(** * Hangul structural analyzer: a shallow embedding of [hangul.js]

    The development follows the source file top to bottom: the jamo
    tables, the codec ([isSyllable], [decompose], [compose]), the
    analyzer ([analyze]), the rhyme detector ([findRhymes]), the harmony
    mapper ([vowelHarmonyAnalysis]), the fingerprint generator
    ([fingerprint]) and the comparator ([compare]).

    Modelling conventions.
    - A JavaScript string is the list of its UTF-16 code units.
    - [null] and [undefined] are kept apart from strings in [jsval].
    - A plain object keyed by strings is an association list in insertion
      order, which is the order [Object.entries] enumerates non-index
      keys in.  Every key the program uses starts with a jamo, so no key
      is an array index and none names an inherited property.
    - Counters are integers ([Z]); they stay far below 2^53, where the
      arithmetic of doubles is exact.
    - Numbers that are not counters are modelled twice.  The functions
      under their plain names take quotients, square roots and
      logarithms in the real numbers ([R]); they serve the properties
      whose values binary64 computes exactly (0, 1, -1, integers) or
      that rest on the sign, the order or the symmetry of the
      operations.  The module [Binary64] repeats the same functions with
      every operation rounded as IEEE-754 binary64 rounds it; it serves
      the properties that depend on the rounding.  Every division of the
      source is guarded against a zero divisor, and both models keep
      each guard. *)

From Stdlib Require Import ZArith List Bool Lia Reals Lra Psatz Permutation Sorted.
Import ListNotations.
Local Open Scope Z_scope.

(* ================================================================= *)
(** ** JavaScript values *)

Definition jsstring := list Z.

Inductive jsval : Type :=
| JUndefined
| JNull
| JStr (s : jsstring).

Fixpoint str_eqb (a b : jsstring) : bool :=
  match a, b with
  | [], [] => true
  | x :: a', y :: b' => (x =? y) && str_eqb a' b'
  | _, _ => false
  end.

(** ToBoolean on the values that occur. *)
Definition truthy (v : jsval) : bool :=
  match v with
  | JStr (_ :: _) => true
  | _ => false
  end.

(** [a || b] *)
Definition js_or (a b : jsval) : jsval := if truthy a then a else b.

(** The code units of the words "undefined" and "null". *)
Definition str_undefined : jsstring := [117; 110; 100; 101; 102; 105; 110; 101; 100].
Definition str_null : jsstring := [110; 117; 108; 108].

(** ToString, as used by [+] on strings and by property access. *)
Definition to_str (v : jsval) : jsstring :=
  match v with
  | JUndefined => str_undefined
  | JNull => str_null
  | JStr s => s
  end.

(** [arr[i]] for a numeric index. *)
Definition js_index (arr : list jsstring) (i : Z) : jsval :=
  if i <? 0 then JUndefined
  else match nth_error arr (Z.to_nat i) with
       | Some s => JStr s
       | None => JUndefined
       end.

Fixpoint index_from (s : jsstring) (arr : list jsstring) (i : Z) : Z :=
  match arr with
  | [] => -1
  | x :: arr' => if str_eqb x s then i else index_from s arr' (i + 1)
  end.

(** [arr.indexOf(v)]: strict equality, so only a string can be found. *)
Definition indexOf (arr : list jsstring) (v : jsval) : Z :=
  match v with
  | JStr s => index_from s arr 0
  | _ => -1
  end.

(** [arr.includes(v)] *)
Definition includes (arr : list jsstring) (v : jsval) : bool :=
  match v with
  | JStr s => existsb (fun x => str_eqb x s) arr
  | _ => false
  end.

(** [s.charCodeAt(0)]; [None] stands for NaN (the empty string). *)
Definition charCodeAt0 (s : jsstring) : option Z :=
  match s with
  | [] => None
  | c :: _ => Some c
  end.

(** [String.fromCharCode(code)] *)
Definition fromCharCode (code : Z) : jsstring := [code mod 65536].

Definition is_high_surrogate (c : Z) : bool := (0xD800 <=? c) && (c <=? 0xDBFF).
Definition is_low_surrogate (c : Z) : bool := (0xDC00 <=? c) && (c <=? 0xDFFF).

(** [for (const ch of s)]: iteration by code point; a surrogate pair is
    one element of two code units. *)
Fixpoint string_iter (s : jsstring) : list jsstring :=
  match s with
  | [] => []
  | c :: s' =>
      match s' with
      | c2 :: s'' =>
          if is_high_surrogate c && is_low_surrogate c2
          then [c; c2] :: string_iter s''
          else [c] :: string_iter s'
      | [] => [[c]]
      end
  end.

(** White space and line terminators: the class [\s] of regular
    expressions and the characters [trim] strips. *)
Definition is_ws (c : Z) : bool :=
  ((9 <=? c) && (c <=? 13)) || (c =? 32) || (c =? 0xA0) || (c =? 0x1680)
  || ((0x2000 <=? c) && (c <=? 0x200A))
  || (c =? 0x2028) || (c =? 0x2029) || (c =? 0x202F) || (c =? 0x205F)
  || (c =? 0x3000) || (c =? 0xFEFF).

Fixpoint drop_ws (s : jsstring) : jsstring :=
  match s with
  | [] => []
  | c :: s' => if is_ws c then drop_ws s' else s
  end.

(** [s.trim()] *)
Definition trim (s : jsstring) : jsstring := rev (drop_ws (rev (drop_ws s))).

(** [s.split(/\s+/)]: the pieces between maximal runs of white space; a
    run at either end leaves an empty piece there. *)
Fixpoint split_ws (s : jsstring) : list jsstring :=
  match s with
  | [] => [[]]
  | c :: s' =>
      if is_ws c then
        match s' with
        | c2 :: _ => if is_ws c2 then split_ws s' else [] :: split_ws s'
        | [] => [[]; []]
        end
      else
        match split_ws s' with
        | w :: ws => (c :: w) :: ws
        | [] => [[c]]
        end
  end.

(** [s.split('\n')] *)
Fixpoint split_lines (s : jsstring) : list jsstring :=
  match s with
  | [] => [[]]
  | c :: s' =>
      if c =? 10 then [] :: split_lines s'
      else match split_lines s' with
           | w :: ws => (c :: w) :: ws
           | [] => [[c]]
           end
  end.

(* ================================================================= *)
(** ** Objects used as dictionaries *)

Definition jsobj (V : Type) := list (jsstring * V).

Fixpoint obj_get {V} (k : jsstring) (o : jsobj V) : option V :=
  match o with
  | [] => None
  | (k', v) :: o' => if str_eqb k' k then Some v else obj_get k o'
  end.

(** [o[k] = v]: an existing key keeps its place, a new key goes last. *)
Fixpoint obj_set {V} (k : jsstring) (v : V) (o : jsobj V) : jsobj V :=
  match o with
  | [] => [(k, v)]
  | (k', v') :: o' =>
      if str_eqb k' k then (k', v) :: o' else (k', v') :: obj_set k v o'
  end.

(** [Object.fromEntries(es)] *)
Definition fromEntries {V} (es : list (jsstring * V)) : jsobj V :=
  fold_left (fun o e => obj_set (fst e) (snd e) o) es [].

(** [o[k] || 0] on a table of counts. *)
Definition count_or_0 (o : jsobj Z) (k : jsstring) : Z :=
  match obj_get k o with
  | Some n => n
  | None => 0
  end.

(** [Array.prototype.sort] with a comparator.  The language requires the
    sort to be stable, and every comparator of the program is a
    difference of counts, hence a consistent order: the sorted array is
    then unique, and an insertion sort that keeps equal elements in their
    original order computes it. *)
Fixpoint sort_insert {A} (cmp : A -> A -> Z) (x : A) (l : list A) : list A :=
  match l with
  | [] => [x]
  | y :: l' => if cmp x y <=? 0 then x :: l else y :: sort_insert cmp x l'
  end.

Definition array_sort {A} (cmp : A -> A -> Z) (l : list A) : list A :=
  fold_right (sort_insert cmp) [] l.

(* ================================================================= *)
(** ** Jamo tables *)

Definition CHOSEONG : list jsstring :=
  [ [0x3131]; [0x3132]; [0x3134]; [0x3137]; [0x3138]; [0x3139]; [0x3141];
    [0x3142]; [0x3143]; [0x3145]; [0x3146]; [0x3147]; [0x3148]; [0x3149];
    [0x314A]; [0x314B]; [0x314C]; [0x314D]; [0x314E] ].

Definition JUNGSEONG : list jsstring :=
  [ [0x314F]; [0x3150]; [0x3151]; [0x3152]; [0x3153]; [0x3154]; [0x3155];
    [0x3156]; [0x3157]; [0x3158]; [0x3159]; [0x315A]; [0x315B]; [0x315C];
    [0x315D]; [0x315E]; [0x315F]; [0x3160]; [0x3161]; [0x3162]; [0x3163] ].

Definition JONGSEONG : list jsstring :=
  [ []; [0x3131]; [0x3132]; [0x3133]; [0x3134]; [0x3135]; [0x3136];
    [0x3137]; [0x3139]; [0x313A]; [0x313B]; [0x313C]; [0x313D]; [0x313E];
    [0x313F]; [0x3140]; [0x3141]; [0x3142]; [0x3144]; [0x3145]; [0x3146];
    [0x3147]; [0x3148]; [0x314A]; [0x314B]; [0x314C]; [0x314D]; [0x314E] ].

Definition VOWEL_TYPES_bright : list jsstring :=
  [ [0x314F]; [0x3150]; [0x3151]; [0x3152]; [0x3157]; [0x3158]; [0x3159];
    [0x315A]; [0x315B] ].

Definition VOWEL_TYPES_dark : list jsstring :=
  [ [0x3153]; [0x3154]; [0x3155]; [0x3156]; [0x315C]; [0x315D]; [0x315E];
    [0x315F]; [0x3160] ].

Definition VOWEL_TYPES_neutral : list jsstring :=
  [ [0x3161]; [0x3162]; [0x3163] ].

Definition SYLLABLE_BASE : Z := 0xAC00.
Definition SYLLABLE_END : Z := 0xD7A3.

(* ================================================================= *)
(** ** Codec *)

Definition isSyllable (ch : jsstring) : bool :=
  match charCodeAt0 ch with
  | Some code => (SYLLABLE_BASE <=? code) && (code <=? SYLLABLE_END)
  | None => false
  end.

Record Decomposed : Type := mkDecomposed {
  syllable : jsstring;
  cho : jsval;
  jung : jsval;
  jong : jsval;
  choIdx : Z;
  jungIdx : Z;
  jongIdx : Z;
  hasJong : bool
}.

(** The three indices of [decompose].  [%] is the truncating remainder.
    [code - jongIdx] is a multiple of 28 (lemma [jong_split_exact]), so
    the quotient by 28 is an integer and the double division is exact;
    [Math.floor] of the last quotient is the floor division. *)
Definition jongIdx_of (code : Z) : Z := Z.rem code 28.
Definition jungIdx_of (code : Z) : Z := Z.rem ((code - jongIdx_of code) / 28) 21.
Definition choIdx_of (code : Z) : Z := ((code - jongIdx_of code) / 28) / 21.

Definition decompose (ch : jsstring) : option Decomposed :=
  if negb (isSyllable ch) then None
  else
    match charCodeAt0 ch with
    | None => None
    | Some c =>
        let code := c - SYLLABLE_BASE in
        let jongIdx := jongIdx_of code in
        let jungIdx := jungIdx_of code in
        let choIdx := choIdx_of code in
        Some {| syllable := ch;
                cho := js_index CHOSEONG choIdx;
                jung := js_index JUNGSEONG jungIdx;
                jong := js_or (js_index JONGSEONG jongIdx) JNull;
                choIdx := choIdx;
                jungIdx := jungIdx;
                jongIdx := jongIdx;
                hasJong := negb (jongIdx =? 0) |}
    end.

(** [compose(cho, jung, jong = '')]; [None] is the [null] result. *)
Definition compose (cho jung jong : jsval) : option jsstring :=
  let jong := match jong with JUndefined => JStr [] | _ => jong end in
  let choIdx := indexOf CHOSEONG cho in
  let jungIdx := indexOf JUNGSEONG jung in
  let jongIdx := if truthy jong then indexOf JONGSEONG jong else 0 in
  if (choIdx <? 0) || (jungIdx <? 0) || (jongIdx <? 0) then None
  else Some (fromCharCode (SYLLABLE_BASE + (choIdx * 21 + jungIdx) * 28 + jongIdx)).

(* ================================================================= *)
(** ** Analyzer *)

Inductive Tendency : Type := TendBright | TendDark | TendBalanced.

Record VowelHarmony : Type := mkVowelHarmony {
  bright : Z;
  dark : Z;
  neutral : Z;
  tendency : Tendency
}.

Record AnalysisResult : Type := mkAnalysisResult {
  syllables : list Decomposed;
  totalSyllables : Z;
  withJong : Z;
  withoutJong : Z;
  jongRatio : R;
  choFreq : jsobj Z;
  jungFreq : jsobj Z;
  jongFreq : jsobj Z;
  vowelHarmony : VowelHarmony
}.

(** The variables the loop of [analyze] updates. *)
Record AState : Type := mkAState {
  st_syllables : list Decomposed;
  st_choFreq : jsobj Z;
  st_jungFreq : jsobj Z;
  st_jongFreq : jsobj Z;
  st_total : Z;
  st_withJong : Z;
  st_bright : Z;
  st_dark : Z;
  st_neutral : Z
}.

Definition init_state : AState :=
  {| st_syllables := []; st_choFreq := []; st_jungFreq := []; st_jongFreq := [];
     st_total := 0; st_withJong := 0; st_bright := 0; st_dark := 0;
     st_neutral := 0 |}.

(** [freq[k] = (freq[k] || 0) + 1] *)
Definition bump (k : jsval) (freq : jsobj Z) : jsobj Z :=
  obj_set (to_str k) (count_or_0 freq (to_str k) + 1) freq.

(** One iteration of the loop body. *)
Definition analyze_step (st : AState) (ch : jsstring) : AState :=
  match decompose ch with
  | None => st
  | Some d =>
      let isb := includes VOWEL_TYPES_bright (jung d) in
      let isd := includes VOWEL_TYPES_dark (jung d) in
      {| st_syllables := st_syllables st ++ [d];
         st_choFreq := bump (cho d) (st_choFreq st);
         st_jungFreq := bump (jung d) (st_jungFreq st);
         st_jongFreq := if truthy (jong d) then bump (jong d) (st_jongFreq st)
                        else st_jongFreq st;
         st_total := st_total st + 1;
         st_withJong := if truthy (jong d) then st_withJong st + 1
                        else st_withJong st;
         st_bright := if isb then st_bright st + 1 else st_bright st;
         st_dark := if isb then st_dark st
                    else if isd then st_dark st + 1 else st_dark st;
         st_neutral := if isb then st_neutral st
                       else if isd then st_neutral st else st_neutral st + 1 |}
  end.

Definition analyze_loop (text : jsstring) : AState :=
  fold_left analyze_step (string_iter text) init_state.

(** [sortByValue(obj)] *)
Definition sortByValue (obj : jsobj Z) : jsobj Z :=
  fromEntries (array_sort (fun a b => snd b - snd a) obj).

Definition analyze (text : jsstring) : AnalysisResult :=
  let st := analyze_loop text in
  {| syllables := st_syllables st;
     totalSyllables := st_total st;
     withJong := st_withJong st;
     withoutJong := st_total st - st_withJong st;
     jongRatio := if st_total st =? 0 then 0%R
                  else (IZR (st_withJong st) / IZR (st_total st))%R;
     choFreq := sortByValue (st_choFreq st);
     jungFreq := sortByValue (st_jungFreq st);
     jongFreq := sortByValue (st_jongFreq st);
     vowelHarmony :=
       {| bright := st_bright st;
          dark := st_dark st;
          neutral := st_neutral st;
          tendency := if st_dark st <? st_bright st then TendBright
                      else if st_bright st <? st_dark st then TendDark
                      else TendBalanced |} |}.

(* ================================================================= *)
(** ** Rhyme detector *)

(** [s.jung + (s.jong || '')] *)
Definition ending_key (s : Decomposed) : jsstring :=
  to_str (jung s) ++ to_str (js_or (jong s) (JStr [])).

(** One iteration of the grouping loop: create the group when the key is
    new (an array, even empty, is truthy), then push the syllable. *)
Definition rhyme_step (endings : jsobj (list jsstring)) (s : Decomposed)
  : jsobj (list jsstring) :=
  let key := ending_key s in
  let endings1 :=
    match obj_get key endings with
    | Some _ => endings
    | None => obj_set key [] endings
    end in
  match obj_get key endings1 with
  | Some v => obj_set key (v ++ [syllable s]) endings1
  | None => endings1
  end.

Definition len {A} (l : list A) : Z := Z.of_nat (length l).

Definition findRhymes (text : jsstring) : jsobj (list jsstring) :=
  let analysis := analyze text in
  let endings := fold_left rhyme_step (syllables analysis) [] in
  fromEntries
    (array_sort (fun a b => len (snd b) - len (snd a))
       (filter (fun e => 1 <? len (snd e)) endings)).

(* ================================================================= *)
(** ** Harmony pattern mapper *)

Record WordPattern : Type := mkWordPattern {
  word : jsstring;
  pattern : jsstring
}.

Definition sym_plus : jsstring := [43].
Definition sym_minus : jsstring := [45].
Definition sym_dot : jsstring := [0xB7].

(** The inner loop: [pattern] is an array of one-character strings. *)
Definition pattern_step (pat : list jsstring) (ch : jsstring) : list jsstring :=
  match decompose ch with
  | None => pat
  | Some d =>
      if includes VOWEL_TYPES_bright (jung d) then pat ++ [sym_plus]
      else if includes VOWEL_TYPES_dark (jung d) then pat ++ [sym_minus]
      else pat ++ [sym_dot]
  end.

Definition word_step (wordPatterns : list WordPattern) (w : jsstring)
  : list WordPattern :=
  let pat := fold_left pattern_step (string_iter w) [] in
  if 0 <? len pat
  then wordPatterns ++ [ {| word := w; pattern := concat pat |} ]
  else wordPatterns.

(** The source also calls [analyze(text)] first and never reads the
    result; the call has no effect and is left out. *)
Definition vowelHarmonyAnalysis (text : jsstring) : list WordPattern :=
  fold_left word_step (split_ws text) [].

(* ================================================================= *)
(** ** Structural pattern encoder *)

Definition str_CV : jsstring := [67; 86].
Definition str_CVC : jsstring := [67; 86; 67].

(** One iteration of the loop of [structuralPattern]: a syllable pushes
    its shape, any other character is pushed itself unless it trims to
    the empty string. *)
Definition structural_step (result : list jsstring) (ch : jsstring)
  : list jsstring :=
  match decompose ch with
  | None => if truthy (JStr (trim ch)) then result ++ [ch] else result
  | Some d => result ++ [if hasJong d then str_CVC else str_CV]
  end.

(** [arr.join(sep)] on an array of strings. *)
Fixpoint join (sep : jsstring) (arr : list jsstring) : jsstring :=
  match arr with
  | [] => []
  | x :: arr' =>
      match arr' with
      | [] => x
      | _ :: _ => x ++ sep ++ join sep arr'
      end
  end.

Definition structuralPattern (text : jsstring) : jsstring :=
  join [32] (fold_left structural_step (string_iter text) []).

(* ================================================================= *)
(** ** Fingerprint generator *)

Definition log2 (x : R) : R := (ln x / ln 2)%R.

(** [Math.round]: the nearest integer, halves towards plus infinity. *)
Definition Math_round (x : R) : R := IZR (Int_part (x + / 2)).

Definition round (n : R) (digits : nat) : R :=
  let f := (10 ^ digits)%R in (Math_round (n * f) / f)%R.

Definition shannonEntropy (probs : list R) : R :=
  (- fold_left (fun sum p => sum + (if Rlt_dec 0 p then p * log2 p else 0)) probs 0)%R.

(** The loop runs over the indices of [a] and reads [b] at the same
    index; the two vectors of [compare] have the same length (lemma
    [fingerprint_features]), so the loop visits the pairs of [combine]. *)
Definition cosineSimilarity (a b : list R) : R :=
  let step := fun (acc : R * R * R) (xy : R * R) =>
    let '(dot, magA, magB) := acc in
    (dot + fst xy * snd xy, magA + fst xy ^ 2, magB + snd xy ^ 2)%R in
  let '(dot, magA, magB) := fold_left step (combine a b) (0, 0, 0)%R in
  let denom := (sqrt magA * sqrt magB)%R in
  if Req_dec_T denom 0 then 0%R else (dot / denom)%R.

Record Fingerprint : Type := mkFingerprint {
  fp_totalSyllables : Z;
  brightness : R;
  weight : R;
  rhythmRegularity : R;
  avgLineLength : R;
  consonantDiversity : R;
  vowelDiversity : R;
  choProfile : jsobj R;
  jungProfile : jsobj R;
  topCho : list jsstring;
  topJung : list jsstring
}.

(** [for (const c of table) profile[c] = (freq[c] || 0) / total] *)
Definition build_profile (table : list jsstring) (freq : jsobj Z) (total : Z)
  : jsobj R :=
  fold_left
    (fun prof c => obj_set c (IZR (count_or_0 freq c) / IZR total)%R prof)
    table [].

(** The number of syllables of one line. *)
Definition line_count (line : jsstring) : Z :=
  fold_left (fun count ch => if isSyllable ch then count + 1 else count)
    (string_iter line) 0.

Definition lineLengths_of (text : jsstring) : list Z :=
  filter (fun n => 0 <? n)
    (map line_count
       (filter (fun l => truthy (JStr (trim l))) (split_lines text))).

Definition avgLineLength_of (lineLengths : list Z) : R :=
  if len lineLengths =? 0 then 0%R
  else (IZR (fold_left Z.add lineLengths 0%Z) / IZR (len lineLengths))%R.

Definition lineVariance_of (lineLengths : list Z) : R :=
  let avg := avgLineLength_of lineLengths in
  if 1 <? len lineLengths
  then (fold_left (fun sum n => sum + (IZR n - avg) ^ 2) lineLengths 0
        / IZR (len lineLengths))%R
  else 0%R.

Definition rhythmRegularity_of (lineLengths : list Z) : R :=
  let avg := avgLineLength_of lineLengths in
  if Rlt_dec 0 avg
  then (1 - Rmin 1 (sqrt (lineVariance_of lineLengths) / avg))%R
  else 0%R.

(** [Object.values(profile).filter(v => v > 0)], then the entropy over
    the largest possible one. *)
Definition diversity_of (table : list jsstring) (profile : jsobj R) : R :=
  let entropy :=
    shannonEntropy (filter (fun v => if Rlt_dec 0 v then true else false)
                      (map snd profile)) in
  let maxEntropy := log2 (IZR (len table)) in
  if Rlt_dec 0 maxEntropy then (entropy / maxEntropy)%R else 0%R.

Definition fingerprint (text : jsstring) : option Fingerprint :=
  let result := analyze text in
  if totalSyllables result =? 0 then None
  else
    let total := totalSyllables result in
    let choProfile := build_profile CHOSEONG (choFreq result) total in
    let jungProfile := build_profile JUNGSEONG (jungFreq result) total in
    let b := bright (vowelHarmony result) in
    let d := dark (vowelHarmony result) in
    let brightnessRaw := b - d in
    let brightnessMax := if b + d =? 0 then 1 else b + d in
    let brightness := (IZR brightnessRaw / IZR brightnessMax)%R in
    let weight := jongRatio result in
    let lineLengths := lineLengths_of text in
    Some {| fp_totalSyllables := total;
            brightness := round brightness 3;
            weight := round weight 3;
            rhythmRegularity := round (rhythmRegularity_of lineLengths) 3;
            avgLineLength := round (avgLineLength_of lineLengths) 1;
            consonantDiversity := round (diversity_of CHOSEONG choProfile) 3;
            vowelDiversity := round (diversity_of JUNGSEONG jungProfile) 3;
            choProfile := choProfile;
            jungProfile := jungProfile;
            topCho := map fst (firstn 3 (choFreq result));
            topJung := map fst (firstn 3 (jungFreq result)) |}.

(* ================================================================= *)
(** ** Comparator *)

(** [profile[c] || 0] on a table of fractions. *)
Definition frac_or_0 (o : jsobj R) (k : jsstring) : R :=
  match obj_get k o with
  | Some x => x
  | None => 0%R
  end.

Definition feature_vector (fp : Fingerprint) : list R :=
  map (frac_or_0 (choProfile fp)) CHOSEONG
  ++ map (frac_or_0 (jungProfile fp)) JUNGSEONG
  ++ [brightness fp; weight fp; rhythmRegularity fp].

Definition compare (textA textB : jsstring) : option R :=
  match fingerprint textA, fingerprint textB with
  | Some fpA, Some fpB =>
      Some (round (cosineSimilarity (feature_vector fpA) (feature_vector fpB)) 4)
  | _, _ => None
  end.

(* ================================================================= *)
(** ** Binary64 arithmetic

    The numbers of the source are IEEE-754 binary64 values.  A finite
    binary64 value is the real number it denotes, and every operation of
    the source returns the exact result rounded to the nearest number
    with a significand of 53 bits, ties to the even significand.  The
    range of the exponent is not modelled: counters below 2^53 keep every
    non-zero quantity of the program between 2^-1022 and 2^1024, where a
    binary64 operation neither underflows nor overflows.  No operation
    of the program produces NaN: every divisor is guarded and every
    square root is taken of a sum of squares. *)

Local Open Scope R_scope.

(** The binade of a non-zero real: [2^(mag2 x) <= |x| < 2^(mag2 x + 1)]. *)
Definition mag2 (x : R) : Z := Int_part (ln (Rabs x) / ln 2).

(** The integer nearest to a real, halves to the even integer. *)
Definition nearest_even (y : R) : Z :=
  let f := Int_part y in
  if Rlt_dec (y - IZR f) (/ 2) then f
  else if Rlt_dec (/ 2) (y - IZR f) then (f + 1)%Z
  else if Z.even f then f else (f + 1)%Z.

(** Rounding to binary64: the significand is the integer nearest to
    [x / 2^e] for the exponent [e] that leaves it 53 bits. *)
Definition rnd (x : R) : R :=
  let e := (mag2 x - 52)%Z in
  IZR (nearest_even (x * powerRZ 2 (- e))) * powerRZ 2 e.

Local Close Scope R_scope.

(** The numeric part of [hangul.js] over binary64: the same functions as
    above with every operation rounded.  [analyze] is shared: its
    counters are exact, and its [jongRatio] is rounded where the
    fingerprint reads it. *)
Module Binary64.

(** [x + y], [x - y], [x * y], [x / y] and [Math.sqrt(x)]. *)
Definition fadd (x y : R) : R := rnd (x + y).
Definition fsub (x y : R) : R := rnd (x - y).
Definition fmul (x y : R) : R := rnd (x * y).
Definition fdiv (x y : R) : R := rnd (x / y).
Definition fsqrt (x : R) : R := rnd (sqrt x).

(** [10 ** digits] is an exact power of ten for the digits in use;
    [Math.round] returns an integer, which is exact. *)
Definition round (n : R) (digits : nat) : R :=
  let f := (10 ^ digits)%R in fdiv (Math_round (fmul n f)) f.

(** [a[i] ** 2] is the rounded product of [a[i]] with itself. *)
Definition cosineSimilarity (a b : list R) : R :=
  let step := fun (acc : R * R * R) (xy : R * R) =>
    let '(dot, magA, magB) := acc in
    (fadd dot (fmul (fst xy) (snd xy)),
     fadd magA (fmul (fst xy) (fst xy)),
     fadd magB (fmul (snd xy) (snd xy))) in
  let '(dot, magA, magB) := fold_left step (combine a b) (0, 0, 0)%R in
  let denom := fmul (fsqrt magA) (fsqrt magB) in
  if Req_dec_T denom 0 then 0%R else fdiv dot denom.

Definition build_profile (table : list jsstring) (freq : jsobj Z) (total : Z)
  : jsobj R :=
  fold_left
    (fun prof c => obj_set c (fdiv (IZR (count_or_0 freq c)) (IZR total)) prof)
    table [].

(** The sum of the line lengths is a sum of integers, hence exact. *)
Definition avgLineLength_of (lineLengths : list Z) : R :=
  if len lineLengths =? 0 then 0%R
  else fdiv (IZR (fold_left Z.add lineLengths 0%Z)) (IZR (len lineLengths)).

Definition lineVariance_of (lineLengths : list Z) : R :=
  let avg := avgLineLength_of lineLengths in
  if 1 <? len lineLengths
  then fdiv (fold_left
               (fun sum n => fadd sum (let d := fsub (IZR n) avg in fmul d d))
               lineLengths 0%R)
            (IZR (len lineLengths))
  else 0%R.

Definition rhythmRegularity_of (lineLengths : list Z) : R :=
  let avg := avgLineLength_of lineLengths in
  if Rlt_dec 0 avg
  then fsub 1 (Rmin 1 (fdiv (fsqrt (lineVariance_of lineLengths)) avg))
  else 0%R.

Section Engine.

(** [Math.log2] is left to the engine by the language; it is a parameter
    here, and the statements that depend on it say how accurate they
    need it to be. *)
Variable Math_log2 : R -> R.

Definition shannonEntropy (probs : list R) : R :=
  (- fold_left
       (fun sum p => fadd sum (if Rlt_dec 0 p then fmul p (Math_log2 p) else 0))
       probs 0)%R.

Definition diversity_of (table : list jsstring) (profile : jsobj R) : R :=
  let entropy :=
    shannonEntropy (filter (fun v => if Rlt_dec 0 v then true else false)
                      (map snd profile)) in
  let maxEntropy := Math_log2 (IZR (len table)) in
  if Rlt_dec 0 maxEntropy then fdiv entropy maxEntropy else 0%R.

Definition fingerprint (text : jsstring) : option Fingerprint :=
  let result := analyze text in
  if totalSyllables result =? 0 then None
  else
    let total := totalSyllables result in
    let choProfile := build_profile CHOSEONG (choFreq result) total in
    let jungProfile := build_profile JUNGSEONG (jungFreq result) total in
    let b := bright (vowelHarmony result) in
    let d := dark (vowelHarmony result) in
    let brightnessRaw := b - d in
    let brightnessMax := if b + d =? 0 then 1 else b + d in
    let brightness := fdiv (IZR brightnessRaw) (IZR brightnessMax) in
    (* [result.jongRatio]: the quotient [analyze] stores, as binary64 *)
    let weight := rnd (jongRatio result) in
    let lineLengths := lineLengths_of text in
    Some {| fp_totalSyllables := total;
            brightness := round brightness 3;
            weight := round weight 3;
            rhythmRegularity := round (rhythmRegularity_of lineLengths) 3;
            avgLineLength := round (avgLineLength_of lineLengths) 1;
            consonantDiversity := round (diversity_of CHOSEONG choProfile) 3;
            vowelDiversity := round (diversity_of JUNGSEONG jungProfile) 3;
            choProfile := choProfile;
            jungProfile := jungProfile;
            topCho := map fst (firstn 3 (choFreq result));
            topJung := map fst (firstn 3 (jungFreq result)) |}.

Definition compare (textA textB : jsstring) : option R :=
  match fingerprint textA, fingerprint textB with
  | Some fpA, Some fpB =>
      Some (round (cosineSimilarity (feature_vector fpA) (feature_vector fpB)) 4)
  | _, _ => None
  end.

End Engine.

End Binary64.

(* ================================================================= *)
(** ** Command line: the structure section of [cli.js]

    For each non-blank line the program prints the number of syllables
    of the line without its white space, the line, and the structural
    pattern of the line without its white space; the printed values are
    modelled as a list. *)

(** [line.replace(/\s/g, '')] *)
Definition cli_clean (line : jsstring) : jsstring :=
  filter (fun c => negb (is_ws c)) line.

(** [[...clean].filter(ch => ...).length] *)
Definition cli_count (clean : jsstring) : Z :=
  len (filter (fun ch => match charCodeAt0 ch with
                         | Some c => (0xAC00 <=? c) && (c <=? 0xD7A3)
                         | None => false
                         end)
         (string_iter clean)).

Definition cli_structure (text : jsstring) : list (Z * jsstring * jsstring) :=
  map (fun line =>
         let clean := cli_clean line in
         (cli_count clean, line, structuralPattern clean))
    (filter (fun l => truthy (JStr (trim l))) (split_lines text)).

(* ================================================================= *)
(** ** Vocabulary of the statements *)

(** A value is recognised by a table when it is one of its strings. *)
Definition recognized (table : list jsstring) (v : jsval) : Prop :=
  exists s, v = JStr s /\ In s table.

(** [a] stands at an earlier position of [l] than [b]. *)
Definition before {A} (a b : A) (l : list A) : Prop :=
  exists l1 l2 l3, l = l1 ++ a :: l2 ++ b :: l3.

(** [x] occurs in [l], and [y] does not occur up to and including that
    occurrence: the first appearance of [x] precedes that of [y]. *)
Definition first_before (x y : jsstring) (l : list jsstring) : Prop :=
  exists l1 l2, l = l1 ++ x :: l2 /\ ~ In y l1 /\ x <> y.

(** The number of occurrences of a string in a list. *)
Definition count_str (k : jsstring) (l : list jsstring) : Z :=
  len (filter (str_eqb k) l).

(** The syllables of a text, decomposed, in order of appearance. *)
Definition decomposed_syllables (text : jsstring) : list Decomposed :=
  flat_map (fun ch => match decompose ch with Some d => [d] | None => [] end)
    (string_iter text).

(** The symbols the analyzer counts, in order of appearance. *)
Definition cho_syms (ds : list Decomposed) : list jsstring :=
  map (fun d => to_str (cho d)) ds.

Definition jung_syms (ds : list Decomposed) : list jsstring :=
  map (fun d => to_str (jung d)) ds.

Definition jong_syms (ds : list Decomposed) : list jsstring :=
  map (fun d => to_str (jong d)) (filter (fun d => truthy (jong d)) ds).

(** A table of counts agrees with a sequence of symbols: every symbol is
    a key once, with its number of occurrences, and the keys stand in the
    order in which the symbols first appear. *)
Definition freq_ok (freq : jsobj Z) (syms : list jsstring) : Prop :=
  NoDup (map fst freq)
  /\ (forall k, count_or_0 freq k = count_str k syms)
  /\ (forall k, In k (map fst freq) <-> In k syms)
  /\ (forall k1 k2, before k1 k2 (map fst freq) -> first_before k1 k2 syms).

(** The invariant of the loop of [analyze]. *)
Definition state_ok (st : AState) : Prop :=
  freq_ok (st_choFreq st) (cho_syms (st_syllables st))
  /\ freq_ok (st_jungFreq st) (jung_syms (st_syllables st))
  /\ freq_ok (st_jongFreq st) (jong_syms (st_syllables st))
  /\ st_total st = len (st_syllables st)
  /\ st_withJong st = len (filter (fun d => truthy (jong d)) (st_syllables st))
  /\ 0 <= st_withJong st <= st_total st
  /\ 0 <= st_bright st /\ 0 <= st_dark st /\ 0 <= st_neutral st
  /\ st_bright st + st_dark st + st_neutral st = st_total st.

(** A sorted table of counts over a sequence of symbols: counts descend,
    every symbol is a key once with its number of occurrences, and of two
    keys with the same count the one that appears first in the sequence
    comes first. *)
Definition sorted_by_count_then_first_seen
           (freq : jsobj Z) (syms : list jsstring) : Prop :=
  StronglySorted (fun a b => snd a >= snd b) freq
  /\ NoDup (map fst freq)
  /\ (forall k, In k (map fst freq) <-> In k syms)
  /\ (forall k, count_or_0 freq k = count_str k syms)
  /\ (forall k1 k2 n, before (k1, n) (k2, n) freq -> first_before k1 k2 syms).

(** Ties broken by the canonical order of a jamo table. *)
Definition ties_in_table_order (table : list jsstring) (freq : jsobj Z) : Prop :=
  forall k1 k2 n,
    before (k1, n) (k2, n) freq ->
    indexOf table (JStr k1) < indexOf table (JStr k2).

(** The characters of the syllables whose ending key is [k], in order. *)
Definition rhyme_members (k : jsstring) (ds : list Decomposed) : list jsstring :=
  map syllable (filter (fun d => str_eqb (ending_key d) k) ds).

(** The invariant of the grouping loop of [findRhymes]. *)
Definition groups_ok (endings : jsobj (list jsstring)) (ds : list Decomposed)
  : Prop :=
  NoDup (map fst endings)
  /\ (forall k, match obj_get k endings with
                | Some v => v = rhyme_members k ds /\ v <> []
                | None => rhyme_members k ds = []
                end).

(** The harmony symbol of a syllable: [+] when its medial is bright, [-]
    when it is dark, the middle dot when it is neutral. *)
Definition harmony_symbol (d : Decomposed) : jsstring :=
  if includes VOWEL_TYPES_bright (jung d) then sym_plus
  else if includes VOWEL_TYPES_dark (jung d) then sym_minus
  else if includes VOWEL_TYPES_neutral (jung d) then sym_dot
  else [].

Definition harmony_pattern (w : jsstring) : jsstring :=
  concat (map harmony_symbol (decomposed_syllables w)).

Definition has_syllable (w : jsstring) : bool :=
  0 <? len (decomposed_syllables w).

(** The symbol the loop of [vowelHarmonyAnalysis] pushes. *)
Definition pushed_symbol (d : Decomposed) : jsstring :=
  if includes VOWEL_TYPES_bright (jung d) then sym_plus
  else if includes VOWEL_TYPES_dark (jung d) then sym_minus
  else sym_dot.

(** [ws_split s ws]: the string [s] is the words [ws] separated by
    maximal non-empty runs of white space. *)
Inductive ws_split : jsstring -> list jsstring -> Prop :=
| ws_split_last (w : jsstring) :
    Forall (fun c => is_ws c = false) w -> ws_split w [w]
| ws_split_more (w sep rest : jsstring) (ws : list jsstring) :
    Forall (fun c => is_ws c = false) w ->
    sep <> [] -> Forall (fun c => is_ws c = true) sep ->
    (forall c rest', rest = c :: rest' -> is_ws c = false) ->
    ws_split rest ws ->
    ws_split (w ++ sep ++ rest) (w :: ws).

(** Sums, as the reductions of the source accumulate them. *)
Fixpoint Rsum (l : list R) : R :=
  match l with
  | [] => 0%R
  | x :: l' => (x + Rsum l')%R
  end.

Definition Zsum (l : list Z) : Z := fold_right Z.add 0 l.

(** The summand of [shannonEntropy] and the filter of [fingerprint]. *)
Definition plogp (p : R) : R := if Rlt_dec 0 p then (p * log2 p)%R else 0%R.

Definition is_pos (v : R) : bool := if Rlt_dec 0 v then true else false.

(** Dot product and squared norm, as [cosineSimilarity] accumulates them. *)
Definition Rdot (a b : list R) : R :=
  Rsum (map (fun xy => fst xy * snd xy)%R (combine a b)).

Definition Rsq (a : list R) : R := Rsum (map (fun x => x ^ 2)%R a).

Definition Zdot (a b : list Z) : Z :=
  Zsum (map (fun xy => fst xy * snd xy) (combine a b)).

(** Counts divided by a total: a normalized profile in table order. *)
Definition scaled (t : Z) (zs : list Z) : list R :=
  map (fun z => IZR z / IZR t)%R zs.

(** Two texts for the comparator.  The first is three lines of 1, 1 and
    10 times the syllable U+AC00 (initial U+3131, bright medial U+314F,
    no final); the second is the single syllable U+B108 (initial U+3134,
    dark medial U+3153, no final). *)
Definition sample_bright_uneven : jsstring :=
  [0xAC00; 10; 0xAC00; 10; 0xAC00; 0xAC00; 0xAC00; 0xAC00; 0xAC00; 0xAC00;
   0xAC00; 0xAC00; 0xAC00; 0xAC00].

Definition sample_dark_single : jsstring := [0xB108].

(** A code unit in the block of Hangul syllables. *)
Definition is_syllable_unit (c : Z) : bool :=
  (SYLLABLE_BASE <=? c) && (c <=? SYLLABLE_END).

(** The syllables of a text taken code unit by code unit. *)
Definition unit_syllables (text : jsstring) : list Decomposed :=
  flat_map (fun c => match decompose [c] with Some d => [d] | None => [] end)
    text.

(** The vowel class the loop of [analyze] counts a syllable in. *)
Definition is_bright (d : Decomposed) : bool :=
  includes VOWEL_TYPES_bright (jung d).

Definition is_dark (d : Decomposed) : bool :=
  negb (is_bright d) && includes VOWEL_TYPES_dark (jung d).

Definition is_neutral (d : Decomposed) : bool :=
  negb (is_bright d) && negb (includes VOWEL_TYPES_dark (jung d)).

Definition has_final (d : Decomposed) : bool := truthy (jong d).

(** The result of [analyze] on a text without syllables. *)
Definition empty_analysis : AnalysisResult :=
  {| syllables := []; totalSyllables := 0; withJong := 0; withoutJong := 0;
     jongRatio := 0%R; choFreq := []; jungFreq := []; jongFreq := [];
     vowelHarmony := {| bright := 0; dark := 0; neutral := 0;
                        tendency := TendBalanced |} |}.

(** The number of occurrences of a code unit in a string. *)
Definition count_unit (c : Z) (s : jsstring) : Z := len (filter (Z.eqb c) s).

(** The token [structuralPattern] emits for one character, if any. *)
Definition structure_token (ch : jsstring) : list jsstring :=
  match decompose ch with
  | Some d => [if hasJong d then str_CVC else str_CV]
  | None => if truthy (JStr (trim ch)) then [ch] else []
  end.

Definition structure_tokens (text : jsstring) : list jsstring :=
  flat_map structure_token (string_iter text).

(** A character of the iteration: one code unit or a surrogate pair. *)
Definition code_point (ch : jsstring) : Prop :=
  (exists c, ch = [c])
  \/ (exists c c2, ch = [c; c2] /\ is_high_surrogate c = true
                   /\ is_low_surrogate c2 = true).
(** A text of 400 syllables for the weight: 201 times the closed
    syllable U+AC01 and 199 times the open syllable U+AC00. *)
Definition sample_closed_201_of_400 : jsstring :=
  repeat 0xAC01 201 ++ repeat 0xAC00 199.

(** A token is not empty and holds no white space. *)
Definition solid (t : jsstring) : Prop :=
  t <> [] /\ forall c, In c t -> is_ws c = false.

(** A normalized profile over a table, as binary64 stores it: the keys
    are the table, in its order; each value is the rounded share of its
    symbol among the symbols of the text; the values lie in [0, 1] and,
    added as real numbers, miss 1 by at most 2^-53. *)
Definition profile_of (table : list jsstring) (syms : list jsstring)
           (profile : jsobj R) : Prop :=
  map fst profile = table
  /\ (forall c, In c table ->
        obj_get c profile
        = Some (Binary64.fdiv (IZR (count_str c syms)) (IZR (len syms))))
  /\ (forall k v, In (k, v) profile -> (0 <= v <= 1)%R)
  /\ (Rabs (Rsum (map snd profile) - 1) <= / 2 ^ 53)%R.

(** An implementation of [Math.log2] that is accurate to nine
    significant digits. *)
Definition log2_accurate (Math_log2 : R -> R) : Prop :=
  forall x, (0 < x)%R ->
    (Rabs (Math_log2 x - log2 x) <= / 10 ^ 9 * Rabs (log2 x))%R.

(** [top] lists up to three of the symbols of [syms], the most frequent
    ones: distinct, in descending number of occurrences, each at least as
    frequent as any symbol left out, and all of them when fewer than three
    are listed. *)
Definition top_three (top syms : list jsstring) : Prop :=
  (length top <= 3)%nat
  /\ NoDup top
  /\ (forall k, In k top -> In k syms)
  /\ (forall k1 k2, before k1 k2 top -> count_str k2 syms <= count_str k1 syms)
  /\ (forall k k', In k top -> ~ In k' top ->
                   count_str k' syms <= count_str k syms)
  /\ ((length top < 3)%nat -> forall k, In k syms -> In k top).

(** The keys of a mapping stand in the order in which they first appear
    in a sequence, and are the strings of that sequence. *)
Definition keys_first_seen (keys syms : list jsstring) : Prop :=
  (forall k, In k keys <-> In k syms)
  /\ (forall k1 k2, before k1 k2 keys -> first_before k1 k2 syms).

(** Groups of equal size stand in the order in which their keys first
    appear in a sequence of keys. *)
Definition equal_groups_by_first_seen
           (groups : jsobj (list jsstring)) (keys : list jsstring) : Prop :=
  forall k1 v1 k2 v2,
    before (k1, v1) (k2, v2) groups -> len v1 = len v2 ->
    first_before k1 k2 keys.

(* ================================================================= *)
(** * Properties *)

(** ** Strings, array search and lookup *)

Lemma str_eqb_eq (a b : jsstring) : str_eqb a b = true <-> a = b.
Proof.
  revert b; induction a as [|x a IH]; intros [|y b]; simpl; split;
    try congruence; intro H.
  - apply andb_true_iff in H as [Hx Ha]. apply Z.eqb_eq in Hx.
    apply IH in Ha. congruence.
  - injection H as -> ->. rewrite Z.eqb_refl. simpl. now apply IH.
Qed.

Lemma str_eqb_refl (a : jsstring) : str_eqb a a = true.
Proof. now apply str_eqb_eq. Qed.

Lemma str_eqb_neq (a b : jsstring) : str_eqb a b = false <-> a <> b.
Proof.
  destruct (str_eqb a b) eqn:E; split; try congruence.
  - apply str_eqb_eq in E. congruence.
  - intros _ H. apply str_eqb_eq in H. congruence.
Qed.

Lemma str_eq_dec (a b : jsstring) : {a = b} + {a <> b}.
Proof.
  destruct (str_eqb a b) eqn:E.
  - left. now apply str_eqb_eq.
  - right. now apply str_eqb_neq.
Defined.

Lemma index_from_range (s : jsstring) (arr : list jsstring) (i : Z) :
  index_from s arr i = -1
  \/ i <= index_from s arr i < i + Z.of_nat (length arr).
Proof.
  revert i; induction arr as [|x arr IH]; intro i; simpl; [now left|].
  destruct (str_eqb x s); [right; lia|].
  destruct (IH (i + 1)) as [H|H]; [now left | right; lia].
Qed.

Lemma index_from_absent (s : jsstring) (arr : list jsstring) (i : Z) :
  0 <= i -> (index_from s arr i < 0 <-> ~ In s arr).
Proof.
  revert i; induction arr as [|x arr IH]; intros i Hi; simpl.
  - split; [tauto | lia].
  - destruct (str_eqb x s) eqn:E.
    + apply str_eqb_eq in E. split; [lia | tauto].
    + apply str_eqb_neq in E. rewrite IH by lia. tauto.
Qed.

Lemma index_from_nth (s : jsstring) (arr : list jsstring) (n : nat) (i : Z) :
  NoDup arr -> nth_error arr n = Some s ->
  index_from s arr i = i + Z.of_nat n.
Proof.
  revert n i; induction arr as [|x arr IH]; intros n i Hnd Hn.
  - destruct n; discriminate.
  - inversion Hnd as [|? ? Hx Hnd']; subst. destruct n as [|n]; simpl in *.
    + injection Hn as ->. rewrite str_eqb_refl. lia.
    + destruct (str_eqb x s) eqn:E.
      * apply str_eqb_eq in E. subst x. apply nth_error_In in Hn. tauto.
      * rewrite (IH n (i + 1)) by assumption. lia.
Qed.

Lemma js_index_in_bounds (arr : list jsstring) (i : Z) :
  0 <= i < Z.of_nat (length arr) ->
  exists s, js_index arr i = JStr s /\ nth_error arr (Z.to_nat i) = Some s.
Proof.
  intros Hi. unfold js_index.
  destruct (i <? 0) eqn:E; [apply Z.ltb_lt in E; lia|].
  destruct (nth_error arr (Z.to_nat i)) as [s|] eqn:En; [now exists s|].
  apply nth_error_None in En. lia.
Qed.

Lemma indexOf_unrecognized (table : list jsstring) (v : jsval) :
  indexOf table v < 0 <-> ~ recognized table v.
Proof.
  unfold recognized. destruct v as [| |s]; simpl.
  - split; [intros _ [s [H _]]; discriminate | lia].
  - split; [intros _ [s [H _]]; discriminate | lia].
  - rewrite index_from_absent by lia. split.
    + intros H [s' [E Hin]]. injection E as <-. tauto.
    + intros H Hin. apply H. now exists s.
Qed.

Lemma indexOf_range (table : list jsstring) (v : jsval) :
  indexOf table v = -1 \/ 0 <= indexOf table v < Z.of_nat (length table).
Proof.
  destruct v as [| |s]; simpl; try now left.
  destruct (index_from_range s table 0); [now left | right; lia].
Qed.

(** ** The jamo tables *)

Lemma NoDup_CHOSEONG : NoDup CHOSEONG.
Proof.
  unfold CHOSEONG.
  repeat (constructor; [simpl; intuition discriminate|]). constructor.
Qed.

Lemma NoDup_JUNGSEONG : NoDup JUNGSEONG.
Proof.
  unfold JUNGSEONG.
  repeat (constructor; [simpl; intuition discriminate|]). constructor.
Qed.

Lemma NoDup_JONGSEONG : NoDup JONGSEONG.
Proof.
  unfold JONGSEONG.
  repeat (constructor; [simpl; intuition discriminate|]). constructor.
Qed.

Lemma JONGSEONG_nonempty (n : nat) (s : jsstring) :
  nth_error JONGSEONG n = Some s -> n <> 0%nat -> s <> [].
Proof.
  intros Hn Hz. destruct n as [|n]; [congruence|].
  assert (Hin : In s (tl JONGSEONG)) by (eapply nth_error_In; exact Hn).
  simpl in Hin. intuition (subst; discriminate).
Qed.

(** ** Index arithmetic of [decompose] *)

(** [code - jongIdx] is a multiple of 28: the division by 28 is exact. *)
Lemma jong_split_exact (code : Z) :
  0 <= code -> (code - jongIdx_of code) mod 28 = 0.
Proof.
  intros H. unfold jongIdx_of. rewrite Z.rem_mod_nonneg by lia.
  rewrite Zminus_mod_idemp_r, Z.sub_diag. reflexivity.
Qed.

Lemma idx_bounds (code : Z) :
  0 <= code < 11172 ->
  0 <= choIdx_of code < 19 /\ 0 <= jungIdx_of code < 21
  /\ 0 <= jongIdx_of code < 28
  /\ code = (choIdx_of code * 21 + jungIdx_of code) * 28 + jongIdx_of code.
Proof.
  intros H. unfold choIdx_of, jungIdx_of, jongIdx_of.
  rewrite (Z.rem_mod_nonneg code 28) by lia.
  assert (E : (code - code mod 28) / 28 = code / 28).
  { rewrite (Z.div_mod code 28) at 1 by lia.
    replace (28 * (code / 28) + code mod 28 - code mod 28)
      with (code / 28 * 28) by lia.
    apply Z.div_mul. lia. }
  rewrite E.
  assert (0 <= code / 28 < 399) by (split; [apply Z.div_pos | apply Z.div_lt_upper_bound]; lia).
  rewrite (Z.rem_mod_nonneg (code / 28) 21) by lia.
  pose proof (Z.mod_pos_bound code 28).
  pose proof (Z.mod_pos_bound (code / 28) 21).
  pose proof (Z.div_mod code 28).
  pose proof (Z.div_mod (code / 28) 21).
  assert (0 <= code / 28 / 21 < 19)
    by (split; [apply Z.div_pos | apply Z.div_lt_upper_bound]; lia).
  lia.
Qed.

Lemma isSyllable_cons (c : Z) (rest : jsstring) :
  isSyllable (c :: rest) = (SYLLABLE_BASE <=? c) && (c <=? SYLLABLE_END).
Proof. reflexivity. Qed.

Lemma decompose_in_range (c : Z) (rest : jsstring) :
  SYLLABLE_BASE <= c <= SYLLABLE_END ->
  decompose (c :: rest) =
  Some {| syllable := c :: rest;
          cho := js_index CHOSEONG (choIdx_of (c - SYLLABLE_BASE));
          jung := js_index JUNGSEONG (jungIdx_of (c - SYLLABLE_BASE));
          jong := js_or (js_index JONGSEONG (jongIdx_of (c - SYLLABLE_BASE))) JNull;
          choIdx := choIdx_of (c - SYLLABLE_BASE);
          jungIdx := jungIdx_of (c - SYLLABLE_BASE);
          jongIdx := jongIdx_of (c - SYLLABLE_BASE);
          hasJong := negb (jongIdx_of (c - SYLLABLE_BASE) =? 0) |}.
Proof.
  intros [H1 H2]. unfold decompose. rewrite isSyllable_cons.
  apply Z.leb_le in H1, H2. rewrite H1, H2. reflexivity.
Qed.

Lemma decompose_some_iff (ch : jsstring) :
  (exists d, decompose ch = Some d) <-> isSyllable ch = true.
Proof.
  unfold decompose. destruct (isSyllable ch) eqn:E; simpl.
  - split; [reflexivity|]. intros _. unfold isSyllable in E.
    destruct (charCodeAt0 ch); [eauto | discriminate].
  - split; [intros [d H]; discriminate | discriminate].
Qed.

(** What [decompose] returns on a syllable, field by field. *)
Lemma decompose_fields (c : Z) (rest : jsstring) :
  SYLLABLE_BASE <= c <= SYLLABLE_END ->
  exists d sc sj,
    decompose (c :: rest) = Some d
    /\ syllable d = c :: rest
    /\ 0 <= choIdx d < 19 /\ 0 <= jungIdx d < 21 /\ 0 <= jongIdx d < 28
    /\ c = SYLLABLE_BASE + (choIdx d * 21 + jungIdx d) * 28 + jongIdx d
    /\ cho d = JStr sc /\ nth_error CHOSEONG (Z.to_nat (choIdx d)) = Some sc
    /\ jung d = JStr sj /\ nth_error JUNGSEONG (Z.to_nat (jungIdx d)) = Some sj
    /\ hasJong d = negb (jongIdx d =? 0)
    /\ (jongIdx d = 0 -> jong d = JNull)
    /\ (jongIdx d <> 0 ->
        exists sg, jong d = JStr sg /\ sg <> []
                   /\ nth_error JONGSEONG (Z.to_nat (jongIdx d)) = Some sg).
Proof.
  intros Hc. rewrite (decompose_in_range c rest Hc).
  assert (Hcode : 0 <= c - SYLLABLE_BASE < 11172)
    by (unfold SYLLABLE_BASE, SYLLABLE_END in *; lia).
  destruct (idx_bounds _ Hcode) as (Hcho & Hjung & Hjong & Heq).
  destruct (js_index_in_bounds CHOSEONG _ Hcho) as (sc & Ec & Nc).
  destruct (js_index_in_bounds JUNGSEONG _ Hjung) as (sj & Ej & Nj).
  destruct (js_index_in_bounds JONGSEONG _ Hjong) as (sg & Eg & Ng).
  eexists; exists sc, sj. split; [reflexivity|].
  cbn [syllable cho jung jong choIdx jungIdx jongIdx hasJong].
  repeat (split; [first [reflexivity | assumption | lia]|]).
  split.
  - intros Hz. rewrite Hz in Eg, Ng |- *. simpl in Ng. injection Ng as <-.
    reflexivity.
  - intros Hnz. exists sg. rewrite Eg.
    assert (Hne : sg <> []).
    { apply (JONGSEONG_nonempty _ _ Ng). lia. }
    unfold js_or. destruct sg; [congruence|]. simpl. auto.
Qed.

(** ** Codec *)

Lemma indexOf_of_nth (table : list jsstring) (i : Z) (s : jsstring) :
  NoDup table -> 0 <= i -> nth_error table (Z.to_nat i) = Some s ->
  indexOf table (JStr s) = i.
Proof.
  intros Hnd Hi Hn. simpl. rewrite (index_from_nth s table (Z.to_nat i) 0 Hnd Hn).
  lia.
Qed.

Lemma compose_value (c j g : jsval) (ci ji gi : Z) :
  indexOf CHOSEONG c = ci -> indexOf JUNGSEONG j = ji ->
  (if truthy g then indexOf JONGSEONG g else 0) = gi ->
  0 <= ci -> 0 <= ji -> 0 <= gi ->
  compose c j g = Some (fromCharCode (SYLLABLE_BASE + (ci * 21 + ji) * 28 + gi)).
Proof.
  intros Hc Hj Hg Pc Pj Pg. unfold compose.
  assert (Hg' : (if truthy match g with JUndefined => JStr [] | _ => g end
                 then indexOf JONGSEONG match g with JUndefined => JStr [] | _ => g end
                 else 0) = gi) by (destruct g; exact Hg).
  rewrite Hc, Hj, Hg'.
  replace (ci <? 0) with false by (symmetry; apply Z.ltb_ge; lia).
  replace (ji <? 0) with false by (symmetry; apply Z.ltb_ge; lia).
  replace (gi <? 0) with false by (symmetry; apply Z.ltb_ge; lia).
  reflexivity.
Qed.

(** C10. For every character whose first code unit lies in
    [0xAC00, 0xD7A3], [decompose] returns a record whose indices satisfy
    0 <= choIdx < 19, 0 <= jungIdx < 21 and 0 <= jongIdx < 28; each table
    lookup is in bounds, so [cho] and [jung] are the table symbols at
    those indices, [jong] is the (non-empty) table symbol at [jongIdx] or
    [null], and [hasJong] holds exactly when [jongIdx] is not zero, which
    is exactly when [jong] is not [null]. *)
Theorem decompose_indices_in_bounds (c : Z) (rest : jsstring) :
  SYLLABLE_BASE <= c <= SYLLABLE_END ->
  exists d,
    decompose (c :: rest) = Some d
    /\ 0 <= choIdx d < 19 /\ 0 <= jungIdx d < 21 /\ 0 <= jongIdx d < 28
    /\ len CHOSEONG = 19 /\ len JUNGSEONG = 21 /\ len JONGSEONG = 28
    /\ (exists s, cho d = JStr s
                  /\ nth_error CHOSEONG (Z.to_nat (choIdx d)) = Some s)
    /\ (exists s, jung d = JStr s
                  /\ nth_error JUNGSEONG (Z.to_nat (jungIdx d)) = Some s)
    /\ (jong d = JNull
        \/ exists s, jong d = JStr s /\ s <> []
                     /\ nth_error JONGSEONG (Z.to_nat (jongIdx d)) = Some s)
    /\ (hasJong d = true <-> jongIdx d <> 0)
    /\ (jong d = JNull <-> jongIdx d = 0).
Proof.
  intros Hc.
  destruct (decompose_fields c rest Hc)
    as (d & sc & sj & Hd & _ & Bc & Bj & Bg & _ & Ec & Nc & Ej & Nj & Hh & Hz & Hnz).
  exists d. repeat (split; [first [assumption | reflexivity | lia]|]).
  split; [now exists sc|]. split; [now exists sj|].
  destruct (Z.eq_dec (jongIdx d) 0) as [E|E].
  - split; [left; auto|]. split.
    + rewrite Hh, E. simpl. split; [discriminate | tauto].
    + split; auto.
  - destruct (Hnz E) as (sg & Eg & Hne & Ng). split; [right; now exists sg|].
    split.
    + rewrite Hh. pose proof E as E'. apply Z.eqb_neq in E'. rewrite E'.
      simpl. tauto.
    + rewrite Eg. split; [discriminate | tauto].
Qed.

Lemma decompose_indices_in_bounds_witness :
  exists d,
    decompose [0xD55C] = Some d
    /\ 0 <= choIdx d < 19 /\ 0 <= jungIdx d < 21 /\ 0 <= jongIdx d < 28
    /\ len CHOSEONG = 19 /\ len JUNGSEONG = 21 /\ len JONGSEONG = 28
    /\ (exists s, cho d = JStr s
                  /\ nth_error CHOSEONG (Z.to_nat (choIdx d)) = Some s)
    /\ (exists s, jung d = JStr s
                  /\ nth_error JUNGSEONG (Z.to_nat (jungIdx d)) = Some s)
    /\ (jong d = JNull
        \/ exists s, jong d = JStr s /\ s <> []
                     /\ nth_error JONGSEONG (Z.to_nat (jongIdx d)) = Some s)
    /\ (hasJong d = true <-> jongIdx d <> 0)
    /\ (jong d = JNull <-> jongIdx d = 0).
Proof.
  apply (decompose_indices_in_bounds 0xD55C []).
  unfold SYLLABLE_BASE, SYLLABLE_END. lia.
Defined.

(** C1. Round trip: for every code point p in [0xAC00, 0xD7A3],
    [decompose] of the one-character string p succeeds, and [compose] of
    its [cho], [jung] and [jong] gives back that string, whether an
    absent final is passed as [null] (the record's own value) or as
    [undefined] (the form [d.jong || undefined]). *)
Theorem compose_decompose_roundtrip (p : Z) :
  SYLLABLE_BASE <= p <= SYLLABLE_END ->
  exists d,
    decompose [p] = Some d
    /\ compose (cho d) (jung d) (jong d) = Some [p]
    /\ compose (cho d) (jung d) (js_or (jong d) JUndefined) = Some [p].
Proof.
  intros Hp.
  destruct (decompose_fields p [] Hp)
    as (d & sc & sj & Hd & _ & Bc & Bj & Bg & Heq & Ec & Nc & Ej & Nj & _ & Hz & Hnz).
  exists d. split; [exact Hd|].
  assert (Ic : indexOf CHOSEONG (cho d) = choIdx d)
    by (rewrite Ec; apply indexOf_of_nth; [apply NoDup_CHOSEONG | lia | exact Nc]).
  assert (Ij : indexOf JUNGSEONG (jung d) = jungIdx d)
    by (rewrite Ej; apply indexOf_of_nth; [apply NoDup_JUNGSEONG | lia | exact Nj]).
  assert (Hfc : fromCharCode
                  (SYLLABLE_BASE + (choIdx d * 21 + jungIdx d) * 28 + jongIdx d)
                = [p]).
  { rewrite <- Heq. unfold fromCharCode. f_equal. apply Z.mod_small.
    unfold SYLLABLE_BASE, SYLLABLE_END in Hp. lia. }
  destruct (Z.eq_dec (jongIdx d) 0) as [E|E].
  - rewrite (Hz E). unfold js_or. simpl truthy. cbv iota.
    rewrite <- Hfc. split;
      apply compose_value; first [assumption | lia | (simpl; lia)].
  - destruct (Hnz E) as (sg & Eg & Hne & Ng). rewrite Eg.
    assert (Ht : truthy (JStr sg) = true) by (destruct sg; [congruence | reflexivity]).
    unfold js_or. rewrite Ht. rewrite <- Hfc.
    assert (Ig : indexOf JONGSEONG (JStr sg) = jongIdx d)
      by (apply indexOf_of_nth; [apply NoDup_JONGSEONG | lia | exact Ng]).
    split; apply compose_value;
      first [assumption | lia | (rewrite Ht; exact Ig)].
Qed.

Lemma compose_decompose_roundtrip_witness :
  exists d,
    decompose [0xD55C] = Some d
    /\ compose (cho d) (jung d) (jong d) = Some [0xD55C]
    /\ compose (cho d) (jung d) (js_or (jong d) JUndefined) = Some [0xD55C].
Proof.
  apply (compose_decompose_roundtrip 0xD55C).
  unfold SYLLABLE_BASE, SYLLABLE_END. lia.
Defined.

(** C2, as the claim states it, fails: with a recognised initial and
    medial and the non-empty final "A", which is not in the final table,
    [compose] returns [null] and not a character. *)
Lemma compose_unknown_final_is_null :
  recognized CHOSEONG (JStr [0x3131])
  /\ recognized JUNGSEONG (JStr [0x314F])
  /\ truthy (JStr [0x41]) = true
  /\ ~ recognized JONGSEONG (JStr [0x41])
  /\ compose (JStr [0x3131]) (JStr [0x314F]) (JStr [0x41]) = None.
Proof.
  split; [exists [0x3131]; split; [reflexivity | simpl; tauto]|].
  split; [exists [0x314F]; split; [reflexivity | simpl; tauto]|].
  split; [reflexivity|]. split; [|reflexivity].
  apply indexOf_unrecognized. vm_compute. reflexivity.
Qed.

(** C2, amended. [compose] returns [null] exactly when the initial is not
    in the initial table, or the medial is not in the medial table, or
    the final is a non-empty string that is not in the final table.  An
    empty, [null] or omitted final has index 0: with a recognised initial
    and medial the result is then the character of code
    0xAC00 + (choIdx * 21 + jungIdx) * 28. *)
Theorem compose_null_iff (c j g : jsval) :
  (compose c j g = None <->
     ~ recognized CHOSEONG c \/ ~ recognized JUNGSEONG j
     \/ (truthy g = true /\ ~ recognized JONGSEONG g))
  /\ (truthy g = false -> recognized CHOSEONG c -> recognized JUNGSEONG j ->
      compose c j g =
      Some (fromCharCode
              (SYLLABLE_BASE
               + (indexOf CHOSEONG c * 21 + indexOf JUNGSEONG j) * 28 + 0))).
Proof.
  pose proof (indexOf_unrecognized CHOSEONG c) as Uc.
  pose proof (indexOf_unrecognized JUNGSEONG j) as Uj.
  pose proof (indexOf_unrecognized JONGSEONG g) as Ug.
  pose proof (indexOf_range CHOSEONG c) as Rc.
  pose proof (indexOf_range JUNGSEONG j) as Rj.
  pose proof (indexOf_range JONGSEONG g) as Rg.
  assert (Hshape : compose c j g =
            if (indexOf CHOSEONG c <? 0) || (indexOf JUNGSEONG j <? 0)
               || ((if truthy g then indexOf JONGSEONG g else 0) <? 0)
            then None
            else Some (fromCharCode
                   (SYLLABLE_BASE
                    + (indexOf CHOSEONG c * 21 + indexOf JUNGSEONG j) * 28
                    + (if truthy g then indexOf JONGSEONG g else 0))))
    by (unfold compose; destruct g; reflexivity).
  split.
  - rewrite Hshape.
    destruct (indexOf CHOSEONG c <? 0) eqn:Ec; simpl.
    { apply Z.ltb_lt in Ec. split; [intros _; left; tauto | reflexivity]. }
    destruct (indexOf JUNGSEONG j <? 0) eqn:Ej; simpl.
    { apply Z.ltb_lt in Ej. split; [intros _; right; left; tauto | reflexivity]. }
    apply Z.ltb_ge in Ec, Ej.
    destruct (truthy g) eqn:Et.
    + destruct (indexOf JONGSEONG g <? 0) eqn:Eg.
      * apply Z.ltb_lt in Eg. split; [intros _; right; right; tauto | reflexivity].
      * apply Z.ltb_ge in Eg. split; [discriminate|].
        intros [H|[H|[_ H]]]; [apply Uc in H | apply Uj in H | apply Ug in H]; lia.
    + simpl. split; [discriminate|].
      intros [H|[H|[H _]]]; [apply Uc in H; lia | apply Uj in H; lia | discriminate].
  - intros Et Hc Hj. apply compose_value; try reflexivity.
    + now rewrite Et.
    + destruct (Z.lt_ge_cases (indexOf CHOSEONG c) 0) as [H|H]; [|lia].
      apply Uc in H. tauto.
    + destruct (Z.lt_ge_cases (indexOf JUNGSEONG j) 0) as [H|H]; [|lia].
      apply Uj in H. tauto.
Qed.

(** ** Positions in a list *)

Lemma before_nil {A} (a b : A) : ~ before a b [].
Proof. intros (l1 & l2 & l3 & H). destruct l1; discriminate. Qed.

Lemma before_cons {A} (a b x : A) (l : list A) :
  before a b (x :: l) <-> (x = a /\ In b l) \/ before a b l.
Proof.
  split.
  - intros (l1 & l2 & l3 & H). destruct l1 as [|y l1]; simpl in H.
    + injection H as -> ->. left. split; [reflexivity|].
      apply in_or_app. right. now left.
    + injection H as -> ->. right. now exists l1, l2, l3.
  - intros [[-> Hin] | (l1 & l2 & l3 & ->)].
    + apply in_split in Hin as (l2 & l3 & ->). now exists [], l2, l3.
    + now exists (x :: l1), l2, l3.
Qed.

Lemma before_app {A} (a b : A) (l l' : list A) :
  before a b (l ++ l') <->
  before a b l \/ before a b l' \/ (In a l /\ In b l').
Proof.
  induction l as [|x l IH]; simpl.
  - pose proof (@before_nil A a b). tauto.
  - rewrite !before_cons, IH, in_app_iff. tauto.
Qed.

Lemma before_map {A B} (f : A -> B) (a b : A) (l : list A) :
  before a b l -> before (f a) (f b) (map f l).
Proof.
  intros (l1 & l2 & l3 & ->). exists (map f l1), (map f l2), (map f l3).
  now rewrite map_app, (map_cons f a), map_app, (map_cons f b).
Qed.

Lemma before_In {A} (a b : A) (l : list A) : before a b l -> In a l /\ In b l.
Proof.
  intros (l1 & l2 & l3 & ->). split.
  - apply in_or_app. right. now left.
  - apply in_or_app. right. right. apply in_or_app. right. now left.
Qed.

Lemma first_before_snoc (x y k : jsstring) (l : list jsstring) :
  first_before x y l -> first_before x y (l ++ [k]).
Proof.
  intros (l1 & l2 & -> & H). exists l1, (l2 ++ [k]).
  now rewrite <- app_assoc.
Qed.

Lemma fold_left_invariant {A B} (P : A -> Prop) (f : A -> B -> A)
      (l : list B) (a : A) :
  P a -> (forall a b, P a -> P (f a b)) -> P (fold_left f l a).
Proof.
  intros Ha Hstep. revert a Ha. induction l as [|b l IH]; intros a Ha; simpl.
  - exact Ha.
  - apply IH. now apply Hstep.
Qed.

(** ** Dictionaries *)

Lemma obj_get_In {V} (k : jsstring) (v : V) (o : jsobj V) :
  NoDup (map fst o) -> (obj_get k o = Some v <-> In (k, v) o).
Proof.
  induction o as [|[k' v'] o IH]; simpl; intros Hnd.
  - split; [discriminate | tauto].
  - inversion Hnd as [|? ? Hk Hnd']; subst.
    destruct (str_eqb k' k) eqn:E.
    + apply str_eqb_eq in E. subst k'. split.
      * intros H. injection H as ->. now left.
      * intros [H|H]; [congruence|].
        exfalso. apply Hk. change k with (fst (k, v)). now apply in_map.
    + apply str_eqb_neq in E. rewrite (IH Hnd'). split; [tauto|].
      intros [H|H]; [congruence | assumption].
Qed.

Lemma obj_get_None {V} (k : jsstring) (o : jsobj V) :
  obj_get k o = None <-> ~ In k (map fst o).
Proof.
  induction o as [|[k' v'] o IH]; simpl.
  - tauto.
  - destruct (str_eqb k' k) eqn:E.
    + apply str_eqb_eq in E. split; [discriminate | tauto].
    + apply str_eqb_neq in E. rewrite IH. tauto.
Qed.

Lemma obj_get_set {V} (k k' : jsstring) (v : V) (o : jsobj V) :
  obj_get k' (obj_set k v o) = if str_eqb k k' then Some v else obj_get k' o.
Proof.
  induction o as [|[k0 v0] o IH]; simpl.
  - reflexivity.
  - destruct (str_eqb k0 k) eqn:E; simpl.
    + apply str_eqb_eq in E. subst k0. destruct (str_eqb k k'); reflexivity.
    + rewrite IH. destruct (str_eqb k0 k') eqn:E'; [|reflexivity].
      apply str_eqb_eq in E'. apply str_eqb_neq in E.
      destruct (str_eqb k k') eqn:E2; [|reflexivity].
      apply str_eqb_eq in E2. congruence.
Qed.

Lemma obj_set_keys_old {V} (k : jsstring) (v : V) (o : jsobj V) :
  In k (map fst o) -> map fst (obj_set k v o) = map fst o.
Proof.
  induction o as [|[k0 v0] o IH]; simpl; [tauto|]. intros H.
  destruct (str_eqb k0 k) eqn:E; simpl; [reflexivity|].
  apply str_eqb_neq in E. f_equal. apply IH. tauto.
Qed.

Lemma obj_set_new {V} (k : jsstring) (v : V) (o : jsobj V) :
  ~ In k (map fst o) -> obj_set k v o = o ++ [(k, v)].
Proof.
  induction o as [|[k0 v0] o IH]; simpl; [reflexivity|]. intros H.
  destruct (str_eqb k0 k) eqn:E.
  - apply str_eqb_eq in E. tauto.
  - f_equal. apply IH. tauto.
Qed.

Lemma fromEntries_acc {V} (es acc : list (jsstring * V)) :
  NoDup (map fst (acc ++ es)) ->
  fold_left (fun o e => obj_set (fst e) (snd e) o) es acc = acc ++ es.
Proof.
  revert acc; induction es as [|[k v] es IH]; intros acc Hnd; simpl.
  - now rewrite app_nil_r.
  - assert (Hk : ~ In k (map fst acc)).
    { rewrite map_app in Hnd. simpl in Hnd. apply NoDup_remove_2 in Hnd.
      intros H. apply Hnd. apply in_or_app. now left. }
    rewrite (obj_set_new k v acc Hk).
    replace (acc ++ (k, v) :: es) with ((acc ++ [(k, v)]) ++ es)
      by now rewrite <- app_assoc.
    apply IH. now rewrite <- app_assoc.
Qed.

Lemma fromEntries_id {V} (es : list (jsstring * V)) :
  NoDup (map fst es) -> fromEntries es = es.
Proof. intros H. unfold fromEntries. now rewrite fromEntries_acc. Qed.

(** ** The stable sort *)

Section StableSort.

Context {A : Type} (cmp : A -> A -> Z).

Lemma sort_insert_split (x : A) (l : list A) :
  exists l1 l2,
    l = l1 ++ l2 /\ sort_insert cmp x l = l1 ++ x :: l2
    /\ Forall (fun y => 0 < cmp x y) l1.
Proof.
  induction l as [|y l IH]; simpl.
  - exists [], []. auto.
  - destruct (cmp x y <=? 0) eqn:E.
    + exists [], (y :: l). auto.
    + apply Z.leb_gt in E. destruct IH as (l1 & l2 & -> & -> & HF).
      exists (y :: l1), l2. auto.
Qed.

Lemma array_sort_perm (l : list A) : Permutation (array_sort cmp l) l.
Proof.
  induction l as [|x l IH]; simpl; [constructor|].
  destruct (sort_insert_split x (array_sort cmp l)) as (l1 & l2 & E & -> & _).
  rewrite <- IH, E. symmetry. apply Permutation_middle.
Qed.

(** Stability: two elements change their relative order only when the
    comparator strictly asks for it. *)
Lemma array_sort_stable (l : list A) (a b : A) :
  before a b (array_sort cmp l) -> before a b l \/ 0 < cmp b a.
Proof.
  revert a b; induction l as [|x l IH]; intros a b; simpl.
  - intros H. now apply before_nil in H.
  - destruct (sort_insert_split x (array_sort cmp l))
      as (l1 & l2 & E & -> & HF).
    intros H. apply before_app in H. rewrite before_cons in H.
    rewrite before_cons.
    assert (Hl : forall y, In y (array_sort cmp l) -> In y l)
      by (intros y; apply Permutation_in, array_sort_perm).
    assert (Hsub : before a b (array_sort cmp l) -> before a b l \/ 0 < cmp b a)
      by apply IH.
    rewrite E in Hl, Hsub.
    destruct H as [H | [[[-> H] | H] | [Ha [-> | Hb]]]].
    + destruct Hsub as [?|?]; [apply before_app|..]; tauto.
    + left. left. split; [reflexivity|]. apply Hl, in_or_app. tauto.
    + destruct Hsub as [?|?]; [apply before_app|..]; tauto.
    + right. rewrite Forall_forall in HF. now apply HF.
    + destruct Hsub as [?|?]; [apply before_app|..]; tauto.
Qed.

End StableSort.

Lemma sort_insert_sorted {A} (f : A -> Z) (x : A) (l : list A) :
  StronglySorted (fun a b => f a >= f b) l ->
  StronglySorted (fun a b => f a >= f b) (sort_insert (fun a b => f b - f a) x l).
Proof.
  induction l as [|y l IH]; simpl; intros Hs.
  - constructor; constructor.
  - inversion Hs as [|? ? Hs' Hy]; subst.
    destruct (f y - f x <=? 0) eqn:E.
    + apply Z.leb_le in E. constructor; [exact Hs|].
      constructor; [lia|]. rewrite Forall_forall in *. intros z Hz.
      specialize (Hy z Hz). lia.
    + apply Z.leb_gt in E. constructor; [now apply IH|].
      destruct (sort_insert_split (fun a b => f b - f a) x l)
        as (l1 & l2 & El & -> & _).
      subst l. rewrite Forall_forall in *. intros z Hz.
      apply in_app_or in Hz. simpl in Hz.
      destruct Hz as [Hz | [<- | Hz]]; [apply Hy, in_or_app; tauto | lia |
                                        apply Hy, in_or_app; tauto].
Qed.

Lemma array_sort_sorted {A} (f : A -> Z) (l : list A) :
  StronglySorted (fun a b => f a >= f b) (array_sort (fun a b => f b - f a) l).
Proof.
  induction l as [|x l IH]; simpl; [constructor|].
  now apply sort_insert_sorted.
Qed.

Lemma array_sort_keys_NoDup {V} (cmp : jsstring * V -> jsstring * V -> Z)
      (o : jsobj V) :
  NoDup (map fst o) -> NoDup (map fst (array_sort cmp o)).
Proof.
  intros H. eapply Permutation_NoDup; [|exact H].
  apply Permutation_map. symmetry. apply array_sort_perm.
Qed.

Lemma sortByValue_eq (o : jsobj Z) :
  NoDup (map fst o) -> sortByValue o = array_sort (fun a b => snd b - snd a) o.
Proof.
  intros H. unfold sortByValue. apply fromEntries_id.
  now apply array_sort_keys_NoDup.
Qed.

Lemma obj_get_perm {V} (k : jsstring) (o o' : jsobj V) :
  NoDup (map fst o) -> Permutation o o' -> obj_get k o = obj_get k o'.
Proof.
  intros Hnd Hp.
  assert (Hnd' : NoDup (map fst o'))
    by (eapply Permutation_NoDup; [apply Permutation_map; exact Hp | exact Hnd]).
  destruct (obj_get k o) as [v|] eqn:E.
  - symmetry. apply obj_get_In; [exact Hnd'|].
    eapply Permutation_in; [exact Hp|]. now apply obj_get_In.
  - symmetry. apply obj_get_None. apply obj_get_None in E.
    intros H. apply E. eapply Permutation_in; [|exact H].
    apply Permutation_map. now symmetry.
Qed.

(** ** Analyzer *)

Lemma len_app {A} (l l' : list A) : len (l ++ l') = len l + len l'.
Proof. unfold len. rewrite length_app. lia. Qed.

Lemma len_nonneg {A} (l : list A) : 0 <= len l.
Proof. unfold len. lia. Qed.

Lemma str_eqb_sym (a b : jsstring) : str_eqb a b = str_eqb b a.
Proof.
  destruct (str_eqb a b) eqn:E; symmetry.
  - apply str_eqb_eq in E. subst. apply str_eqb_refl.
  - apply str_eqb_neq in E. apply str_eqb_neq. congruence.
Qed.

Lemma count_str_snoc (k k' : jsstring) (l : list jsstring) :
  count_str k (l ++ [k']) = count_str k l + (if str_eqb k' k then 1 else 0).
Proof.
  unfold count_str. rewrite filter_app, len_app. simpl.
  rewrite (str_eqb_sym k k'). destruct (str_eqb k' k); reflexivity.
Qed.

Lemma count_or_0_bump (v : jsval) (freq : jsobj Z) (k : jsstring) :
  count_or_0 (bump v freq) k =
  count_or_0 freq k + (if str_eqb (to_str v) k then 1 else 0).
Proof.
  unfold bump, count_or_0 at 1. rewrite obj_get_set.
  destruct (str_eqb (to_str v) k) eqn:E.
  - apply str_eqb_eq in E. now subst k.
  - fold (count_or_0 freq k). lia.
Qed.

Lemma freq_ok_nil : freq_ok [] [].
Proof.
  repeat split; simpl; try tauto; try constructor.
  intros k1 k2 H. now apply before_nil in H.
Qed.

Lemma freq_ok_bump (v : jsval) (freq : jsobj Z) (syms : list jsstring) :
  freq_ok freq syms -> freq_ok (bump v freq) (syms ++ [to_str v]).
Proof.
  intros (Hnd & Hcnt & Hin & Hord). set (k := to_str v).
  destruct (in_dec str_eq_dec k (map fst freq)) as [Hk|Hk].
  - assert (Ek : map fst (bump v freq) = map fst freq)
      by (apply obj_set_keys_old; exact Hk).
    repeat split.
    + now rewrite Ek.
    + intros k'. rewrite count_or_0_bump, count_str_snoc, Hcnt. reflexivity.
    + rewrite Ek, in_app_iff, Hin. simpl. tauto.
    + rewrite Ek, in_app_iff. simpl. intros [H|[<-|[]]]; [now apply Hin|].
      exact Hk.
    + intros k1 k2. rewrite Ek. intros H. now apply first_before_snoc, Hord.
  - assert (Ek : bump v freq = freq ++ [(k, count_or_0 freq k + 1)])
      by (apply obj_set_new; exact Hk).
    assert (Ekeys : map fst (bump v freq) = map fst freq ++ [k])
      by (rewrite Ek, map_app; reflexivity).
    repeat split.
    + rewrite Ekeys. apply NoDup_app; [exact Hnd | repeat constructor; simpl; tauto |].
      intros x Hx [<-|[]]. tauto.
    + intros k'. rewrite count_or_0_bump, count_str_snoc, Hcnt. reflexivity.
    + rewrite Ekeys, !in_app_iff, Hin. tauto.
    + rewrite Ekeys, !in_app_iff, Hin. tauto.
    + intros k1 k2. rewrite Ekeys. intros H. apply before_app in H.
      destruct H as [H | [H | [H1 [<- | []]]]].
      * now apply first_before_snoc, Hord.
      * apply before_cons in H. destruct H as [[_ []] | H].
        now apply before_nil in H.
      * assert (Hne : k1 <> k) by congruence.
        apply Hin in H1. apply in_split in H1 as (l1 & l2 & E).
        exists l1, (l2 ++ [k]). split; [rewrite E, <- app_assoc; reflexivity|].
        split; [|exact Hne]. intros Hl. apply Hk, Hin. rewrite E.
        apply in_or_app. now left.
Qed.

Lemma state_ok_init : state_ok init_state.
Proof.
  unfold state_ok; simpl.
  do 3 (split; [apply freq_ok_nil|]).
  repeat split; first [reflexivity | lia].
Qed.

Lemma state_ok_step (st : AState) (ch : jsstring) :
  state_ok st -> state_ok (analyze_step st ch).
Proof.
  intros (Hc & Hj & Hg & Ht & Hw & Hwb & Hb & Hd & Hn & Hsum).
  unfold analyze_step. destruct (decompose ch) as [d|]; [|unfold state_ok; tauto].
  unfold state_ok; cbn [st_syllables st_choFreq st_jungFreq st_jongFreq st_total
                        st_withJong st_bright st_dark st_neutral].
  unfold cho_syms, jung_syms, jong_syms in *.
  rewrite filter_app, !map_app, !len_app. simpl filter.
  split; [now apply freq_ok_bump|]. split; [now apply freq_ok_bump|].
  destruct (truthy (jong d)); simpl map; rewrite ?app_nil_r, ?len_app;
    (split; [first [now apply freq_ok_bump | assumption]|]);
    destruct (includes VOWEL_TYPES_bright (jung d));
    destruct (includes VOWEL_TYPES_dark (jung d));
    change (len [d]) with 1; change (@len Decomposed []) with 0; lia.
Qed.

Lemma analyze_loop_ok (text : jsstring) : state_ok (analyze_loop text).
Proof.
  unfold analyze_loop. apply fold_left_invariant.
  - apply state_ok_init.
  - intros a b. apply state_ok_step.
Qed.

Lemma analyze_step_syllables (chars : list jsstring) (st : AState) :
  st_syllables (fold_left analyze_step chars st) =
  st_syllables st
  ++ flat_map (fun ch => match decompose ch with Some d => [d] | None => [] end)
       chars.
Proof.
  revert st; induction chars as [|ch chars IH]; intros st;
    cbn [fold_left flat_map].
  - now rewrite app_nil_r.
  - rewrite IH. unfold analyze_step.
    destruct (decompose ch) as [d|]; cbn [st_syllables app]; [|reflexivity].
    now rewrite <- app_assoc.
Qed.

Lemma analyze_syllables (text : jsstring) :
  syllables (analyze text) = decomposed_syllables text.
Proof. apply (analyze_step_syllables (string_iter text) init_state). Qed.

(** C4. Count conservation: in the result of [analyze],
    withJong + withoutJong = totalSyllables, and the bright, dark and
    neutral counts sum to totalSyllables (which is the number of
    decomposed syllables of the text). *)
Theorem analyze_count_conservation (text : jsstring) :
  let r := analyze text in
  withJong r + withoutJong r = totalSyllables r
  /\ bright (vowelHarmony r) + dark (vowelHarmony r) + neutral (vowelHarmony r)
     = totalSyllables r
  /\ totalSyllables r = len (decomposed_syllables text).
Proof.
  destruct (analyze_loop_ok text) as (_ & _ & _ & Ht & _ & _ & _ & _ & _ & Hsum).
  cbv zeta. rewrite <- analyze_syllables. unfold analyze; simpl.
  repeat split; [lia | assumption | assumption].
Qed.

Lemma sortByValue_ok (freq : jsobj Z) (syms : list jsstring) :
  freq_ok freq syms -> sorted_by_count_then_first_seen (sortByValue freq) syms.
Proof.
  intros (Hnd & Hcnt & Hin & Hord). rewrite (sortByValue_eq freq Hnd).
  pose proof (array_sort_perm (fun a b : jsstring * Z => snd b - snd a) freq) as Hp.
  repeat split.
  - apply (array_sort_sorted (@snd jsstring Z)).
  - now apply array_sort_keys_NoDup.
  - intros H. apply Hin. eapply Permutation_in; [|exact H].
    now apply Permutation_map.
  - intros H. apply Hin in H. eapply Permutation_in; [|exact H].
    apply Permutation_map. now symmetry.
  - intros k. rewrite <- Hcnt. unfold count_or_0.
    rewrite (obj_get_perm k freq
               (array_sort (fun a b : jsstring * Z => snd b - snd a) freq) Hnd);
      [reflexivity | now symmetry].
  - intros k1 k2 n H. apply array_sort_stable in H. simpl in H.
    destruct H as [H|H]; [|lia].
    apply Hord. apply (before_map fst) in H. exact H.
Qed.

(** C3, as the claim states it, fails: in the text of the two syllables
    U+B098 U+AC00 the initials U+3134 and U+3131 both occur once, and
    [choFreq] lists them in that order, the order of first appearance,
    whereas U+3131 comes first in the table of initials. *)
Lemma ties_not_in_table_order :
  ~ ties_in_table_order CHOSEONG (choFreq (analyze [0xB098; 0xAC00])).
Proof.
  intros H. specialize (H [0x3134] [0x3131] 1).
  assert (Hb : before ([0x3134], 1) ([0x3131], 1)
                 (choFreq (analyze [0xB098; 0xAC00])))
    by (exists [], [], []; vm_compute; reflexivity).
  apply H in Hb. vm_compute in Hb. discriminate.
Qed.

(** C3, amended. For every text, each of the three frequency mappings
    returned by [analyze] is sorted by descending count and holds every
    symbol that occurs, once, with its number of occurrences; two symbols
    with equal counts appear in the order of their first appearance in
    the text. *)
Theorem analyze_freq_sorted (text : jsstring) :
  let r := analyze text in
  let ds := decomposed_syllables text in
  sorted_by_count_then_first_seen (choFreq r) (cho_syms ds)
  /\ sorted_by_count_then_first_seen (jungFreq r) (jung_syms ds)
  /\ sorted_by_count_then_first_seen (jongFreq r) (jong_syms ds).
Proof.
  cbv zeta. rewrite <- analyze_syllables.
  destruct (analyze_loop_ok text) as (Hc & Hj & Hg & _).
  unfold analyze; cbn [choFreq jungFreq jongFreq syllables].
  split; [|split]; now apply sortByValue_ok.
Qed.

(** ** Rhyme detector *)

Lemma rhyme_members_snoc (k : jsstring) (ds : list Decomposed) (d : Decomposed) :
  rhyme_members k (ds ++ [d]) =
  rhyme_members k ds ++ (if str_eqb (ending_key d) k then [syllable d] else []).
Proof.
  unfold rhyme_members. rewrite filter_app, map_app. simpl.
  destruct (str_eqb (ending_key d) k); reflexivity.
Qed.

Lemma obj_get_Some_key {V} (k : jsstring) (v : V) (o : jsobj V) :
  obj_get k o = Some v -> In k (map fst o).
Proof.
  intros H. destruct (in_dec str_eq_dec k (map fst o)) as [Hin|Hin]; [exact Hin|].
  apply obj_get_None in Hin. congruence.
Qed.

Lemma groups_ok_step (endings : jsobj (list jsstring)) (ds : list Decomposed)
      (d : Decomposed) :
  groups_ok endings ds -> groups_ok (rhyme_step endings d) (ds ++ [d]).
Proof.
  intros (Hnd & Hget). unfold rhyme_step. set (key := ending_key d).
  pose proof (Hget key) as Hkey.
  destruct (obj_get key endings) as [v|] eqn:E.
  - rewrite E. split.
    + rewrite obj_set_keys_old; [exact Hnd | now apply obj_get_Some_key in E].
    + intros k. rewrite obj_get_set, rhyme_members_snoc. fold key.
      destruct (str_eqb key k) eqn:Ek.
      * apply str_eqb_eq in Ek. subst k. destruct Hkey as [-> _].
        split; [reflexivity|]. intros H. apply app_eq_nil in H as [_ H].
        discriminate.
      * rewrite app_nil_r. apply Hget.
  - apply obj_get_None in E.
    rewrite (obj_get_set key key), str_eqb_refl. split.
    + rewrite obj_set_keys_old.
      * rewrite (obj_set_new key [] endings E), map_app.
        apply NoDup_app; [exact Hnd | repeat constructor; simpl; tauto |].
        intros x Hx [<-|[]]. tauto.
      * rewrite (obj_set_new key [] endings E), map_app.
        apply in_or_app. right. now left.
    + intros k. rewrite !obj_get_set, rhyme_members_snoc. fold key.
      destruct (str_eqb key k) eqn:Ek.
      * apply str_eqb_eq in Ek. subst k. rewrite Hkey.
        split; [reflexivity | discriminate].
      * rewrite app_nil_r. apply Hget.
Qed.

Lemma groups_ok_fold (ds0 ds : list Decomposed) (endings : jsobj (list jsstring)) :
  groups_ok endings ds0 ->
  groups_ok (fold_left rhyme_step ds endings) (ds0 ++ ds).
Proof.
  revert ds0 endings; induction ds as [|d ds IH]; intros ds0 endings H; simpl.
  - now rewrite app_nil_r.
  - replace (ds0 ++ d :: ds) with ((ds0 ++ [d]) ++ ds)
      by now rewrite <- app_assoc.
    apply IH. now apply groups_ok_step.
Qed.

Lemma filter_keys_NoDup {V} (p : jsstring * V -> bool) (o : jsobj V) :
  NoDup (map fst o) -> NoDup (map fst (filter p o)).
Proof.
  induction o as [|e o IH]; simpl; intros H; [constructor|].
  inversion H as [|? ? Hk Hnd]; subst. destruct (p e); simpl; [|now apply IH].
  constructor; [|now apply IH]. intros Hin. apply Hk.
  apply in_map_iff in Hin as (e' & Ee & Hin). apply filter_In in Hin as [Hin _].
  rewrite <- Ee. now apply in_map.
Qed.

Lemma decomposed_in_range (text : jsstring) (d : Decomposed) :
  In d (decomposed_syllables text) ->
  exists c rest,
    SYLLABLE_BASE <= c <= SYLLABLE_END /\ decompose (c :: rest) = Some d.
Proof.
  unfold decomposed_syllables. intros H.
  apply in_flat_map in H as (ch & _ & Hd).
  destruct (decompose ch) as [d'|] eqn:E; [|contradiction].
  destruct Hd as [<-|[]].
  assert (Hs : isSyllable ch = true) by (apply decompose_some_iff; eauto).
  destruct ch as [|c rest]; [discriminate|]. exists c, rest.
  rewrite isSyllable_cons in Hs. apply andb_true_iff in Hs as [H1 H2].
  apply Z.leb_le in H1, H2. auto.
Qed.

(** The ending key of a decomposed syllable is its medial symbol followed
    by its final symbol, which is the empty string of index 0 when the
    syllable has no final. *)
Lemma ending_key_symbols (text : jsstring) (d : Decomposed) :
  In d (decomposed_syllables text) ->
  ending_key d = nth (Z.to_nat (jungIdx d)) JUNGSEONG []
                 ++ nth (Z.to_nat (jongIdx d)) JONGSEONG [].
Proof.
  intros H. apply decomposed_in_range in H as (c & rest & Hc & Hd).
  destruct (decompose_fields c rest Hc)
    as (d' & sc & sj & Hd' & _ & _ & _ & _ & _ & _ & _ & Ej & Nj & _ & Hz & Hnz).
  rewrite Hd in Hd'. injection Hd' as <-.
  unfold ending_key. rewrite Ej. simpl to_str.
  rewrite (nth_error_nth _ _ _ Nj). f_equal.
  destruct (Z.eq_dec (jongIdx d) 0) as [E|E].
  - rewrite (Hz E), E. reflexivity.
  - destruct (Hnz E) as (sg & Eg & Hne & Ng). rewrite Eg.
    rewrite (nth_error_nth _ _ _ Ng). destruct sg; [congruence | reflexivity].
Qed.

(** C7. For every text, [findRhymes] maps an ending key (medial symbol
    followed by final symbol, the empty string when there is no final)
    to the characters of all the syllables with that key, duplicates
    included and in order of appearance, exactly when there are at least
    two of them; each key occurs once and the groups are sorted by
    descending size.  On the three syllables U+C0B0 U+AC04 U+B9CC the
    result is the single key U+314F U+3134 with these three characters. *)
Theorem findRhymes_groups (text : jsstring) :
  let ds := decomposed_syllables text in
  let r := findRhymes text in
  (forall d, In d ds ->
             ending_key d = nth (Z.to_nat (jungIdx d)) JUNGSEONG []
                            ++ nth (Z.to_nat (jongIdx d)) JONGSEONG [])
  /\ NoDup (map fst r)
  /\ (forall k, obj_get k r = if 1 <? len (rhyme_members k ds)
                              then Some (rhyme_members k ds) else None)
  /\ StronglySorted (fun a b => len (snd a) >= len (snd b)) r
  /\ findRhymes [0xC0B0; 0xAC04; 0xB9CC]
     = [([0x314F; 0x3134], [[0xC0B0]; [0xAC04]; [0xB9CC]])].
Proof.
  cbv zeta. split; [intros d; apply ending_key_symbols|].
  unfold findRhymes. rewrite analyze_syllables.
  set (ds := decomposed_syllables text).
  set (endings := fold_left rhyme_step ds []).
  assert (Hg : groups_ok endings ds).
  { apply (groups_ok_fold [] ds []). split; [constructor | reflexivity]. }
  destruct Hg as (Hnd & Hget).
  set (p := fun e : jsstring * list jsstring => 1 <? len (snd e)).
  set (cmp := fun a b : jsstring * list jsstring => len (snd b) - len (snd a)).
  assert (Hndf : NoDup (map fst (filter p endings)))
    by now apply filter_keys_NoDup.
  assert (Hnds : NoDup (map fst (array_sort cmp (filter p endings))))
    by now apply array_sort_keys_NoDup.
  rewrite (fromEntries_id _ Hnds).
  assert (Hin : forall k v, In (k, v) (array_sort cmp (filter p endings))
                            <-> obj_get k endings = Some v /\ 1 < len v).
  { intros k v. rewrite (obj_get_In k v endings Hnd). split.
    - intros H. apply (Permutation_in _ (array_sort_perm cmp _)) in H.
      apply filter_In in H as [H1 H2]. unfold p in H2. simpl in H2.
      apply Z.ltb_lt in H2. auto.
    - intros [H1 H2].
      apply (Permutation_in _ (Permutation_sym (array_sort_perm cmp _))).
      apply filter_In. split; [exact H1|]. unfold p. simpl. now apply Z.ltb_lt. }
  split; [exact Hnds|]. split; [|split].
  - intros k. pose proof (Hget k) as Hk.
    destruct (1 <? len (rhyme_members k ds)) eqn:E.
    + apply Z.ltb_lt in E. apply obj_get_In; [exact Hnds|]. apply Hin.
      split; [|exact E].
      destruct (obj_get k endings) as [v|].
      * destruct Hk as [-> _]. reflexivity.
      * rewrite Hk in E. unfold len in E. simpl in E. lia.
    + apply Z.ltb_ge in E.
      destruct (obj_get k (array_sort cmp (filter p endings))) as [v|] eqn:Er;
        [|reflexivity].
      apply obj_get_In in Er; [|exact Hnds]. apply Hin in Er as [H1 H2].
      rewrite H1 in Hk. destruct Hk as [-> _]. lia.
  - apply (array_sort_sorted (fun e : jsstring * list jsstring => len (snd e))).
  - vm_compute. reflexivity.
Qed.

(** ** Harmony pattern mapper *)

Lemma split_ws_spec (s : jsstring) : ws_split s (split_ws s).
Proof.
  induction s as [|c s IH].
  - apply ws_split_last. constructor.
  - cbn [split_ws]. destruct (is_ws c) eqn:Ec.
    + destruct s as [|c2 s'].
      * apply (ws_split_more [] [c] [] [[]]); try (repeat constructor; assumption).
        -- discriminate.
        -- discriminate.
      * destruct (is_ws c2) eqn:Ec2.
        -- inversion IH as [w Hw Ew | w sep rest ws Hw Hsep Hws Hrest Hr Ew Es].
           ++ subst w. inversion Hw; subst. congruence.
           ++ destruct w as [|x w].
              ** apply (ws_split_more [] (c :: sep) rest ws); auto.
                 discriminate.
              ** simpl in Ew. injection Ew as Ex _. inversion Hw; subst.
                 congruence.
        -- apply (ws_split_more [] [c] (c2 :: s') (split_ws (c2 :: s')));
             try (repeat constructor; assumption).
           ++ discriminate.
           ++ intros c0 rest' E. injection E as <- _. exact Ec2.
    + inversion IH as [w Hw Ew | w sep rest ws Hw Hsep Hws Hrest Hr Ew Es].
      * apply ws_split_last. constructor; assumption.
      * apply (ws_split_more (c :: w) sep rest ws); auto.
Qed.

Lemma pattern_fold (chars : list jsstring) (pat : list jsstring) :
  fold_left pattern_step chars pat =
  pat ++ map pushed_symbol
           (flat_map (fun ch => match decompose ch with
                                | Some d => [d] | None => [] end) chars).
Proof.
  revert pat; induction chars as [|ch chars IH]; intros pat;
    cbn [fold_left flat_map].
  - simpl. now rewrite app_nil_r.
  - rewrite IH. unfold pattern_step, pushed_symbol.
    destruct (decompose ch) as [d|]; [|reflexivity].
    cbn [app map].
    destruct (includes VOWEL_TYPES_bright (jung d));
      [|destruct (includes VOWEL_TYPES_dark (jung d))];
      now rewrite <- app_assoc.
Qed.

Lemma medial_classified (s : jsstring) :
  In s JUNGSEONG ->
  includes VOWEL_TYPES_bright (JStr s) || includes VOWEL_TYPES_dark (JStr s)
  || includes VOWEL_TYPES_neutral (JStr s) = true.
Proof.
  revert s. apply forallb_forall. vm_compute. reflexivity.
Qed.

Lemma harmony_symbol_pushed (text : jsstring) (d : Decomposed) :
  In d (decomposed_syllables text) ->
  pushed_symbol d = harmony_symbol d /\ length (harmony_symbol d) = 1%nat.
Proof.
  intros H. apply decomposed_in_range in H as (c & rest & Hc & Hd).
  destruct (decompose_fields c rest Hc)
    as (d' & sc & sj & Hd' & _ & _ & _ & _ & _ & _ & _ & Ej & Nj & _).
  rewrite Hd in Hd'. injection Hd' as <-.
  apply nth_error_In in Nj. apply medial_classified in Nj.
  unfold pushed_symbol, harmony_symbol. rewrite Ej.
  destruct (includes VOWEL_TYPES_bright (JStr sj)); [auto|].
  destruct (includes VOWEL_TYPES_dark (JStr sj)); [auto|].
  destruct (includes VOWEL_TYPES_neutral (JStr sj)); [auto | discriminate].
Qed.

Lemma word_pattern (w : jsstring) :
  fold_left pattern_step (string_iter w) [] =
  map harmony_symbol (decomposed_syllables w).
Proof.
  rewrite pattern_fold. simpl. apply map_ext_in.
  intros d Hd. now apply (harmony_symbol_pushed w).
Qed.

Lemma len_map {A B} (f : A -> B) (l : list A) : len (map f l) = len l.
Proof. unfold len. now rewrite length_map. Qed.

Lemma word_fold (words : list jsstring) (acc : list WordPattern) :
  fold_left word_step words acc =
  acc ++ map (fun w => {| word := w; pattern := harmony_pattern w |})
           (filter has_syllable words).
Proof.
  revert acc; induction words as [|w words IH]; intros acc; cbn [fold_left filter].
  - simpl. now rewrite app_nil_r.
  - rewrite IH. unfold word_step. rewrite word_pattern, len_map.
    fold (has_syllable w). fold (harmony_pattern w).
    destruct (has_syllable w); [|reflexivity].
    cbn [map]. now rewrite <- app_assoc.
Qed.

Lemma harmony_pattern_length (w : jsstring) :
  len (harmony_pattern w) = len (decomposed_syllables w).
Proof.
  unfold harmony_pattern.
  assert (H : forall ds, (forall d, In d ds -> In d (decomposed_syllables w)) ->
                         len (concat (map harmony_symbol ds)) = len ds).
  { induction ds as [|d ds IH]; intros Hsub; [reflexivity|].
    cbn [map concat]. rewrite len_app, IH by (intros; apply Hsub; now right).
    destruct (harmony_symbol_pushed w d (Hsub d (or_introl eq_refl))) as [_ Hl].
    unfold len. rewrite Hl. simpl length. lia. }
  now apply H.
Qed.

(** C8. For every text, [vowelHarmonyAnalysis] splits the text at the
    maximal runs of white space and returns, in order, one entry for each
    word that has a decomposable syllable; the pattern of an entry is one
    symbol per decomposable syllable of the word, in order, [+] for a
    bright medial, [-] for a dark one and the middle dot for a neutral
    one, so no pattern is empty.  On the word U+C544 U+BC84 U+C9C0 the
    result is the single entry with that word and the pattern [+-.]
    (the last symbol being the middle dot U+00B7). *)
Theorem vowelHarmonyAnalysis_patterns (text : jsstring) :
  let r := vowelHarmonyAnalysis text in
  ws_split text (split_ws text)
  /\ r = map (fun w => {| word := w; pattern := harmony_pattern w |})
           (filter has_syllable (split_ws text))
  /\ (forall e, In e r ->
        pattern e <> []
        /\ pattern e = concat (map harmony_symbol (decomposed_syllables (word e)))
        /\ len (pattern e) = len (decomposed_syllables (word e))
        /\ (forall d, In d (decomposed_syllables (word e)) ->
             harmony_symbol d = sym_plus \/ harmony_symbol d = sym_minus
             \/ harmony_symbol d = sym_dot))
  /\ vowelHarmonyAnalysis [0xC544; 0xBC84; 0xC9C0]
     = [ {| word := [0xC544; 0xBC84; 0xC9C0]; pattern := [43; 45; 0xB7] |} ].
Proof.
  cbv zeta. split; [apply split_ws_spec|].
  assert (E : vowelHarmonyAnalysis text =
              map (fun w => {| word := w; pattern := harmony_pattern w |})
                (filter has_syllable (split_ws text)))
    by (unfold vowelHarmonyAnalysis; now rewrite word_fold).
  split; [exact E|]. split; [|vm_compute; reflexivity].
  intros e He. rewrite E in He. apply in_map_iff in He as (w & <- & Hw).
  apply filter_In in Hw as [_ Hw]. cbn [word pattern].
  unfold has_syllable in Hw. apply Z.ltb_lt in Hw.
  pose proof (harmony_pattern_length w) as Hl.
  split; [|split; [reflexivity | split; [exact Hl|]]].
  - intros Hnil. rewrite Hnil in Hl. unfold len in Hl at 1. simpl in Hl. lia.
  - intros d Hd. destruct (harmony_symbol_pushed w d Hd) as [<- _].
    unfold pushed_symbol.
    destruct (includes VOWEL_TYPES_bright (jung d)); [auto|].
    destruct (includes VOWEL_TYPES_dark (jung d)); auto.
Qed.

(* ================================================================= *)
(** ** Fingerprint generator and comparator *)

Local Open Scope R_scope.

(** Bound a quotient by a positive divisor [d]: multiply both sides by
    [d] and leave a linear goal. *)
Ltac by_divisor d :=
  apply Rmult_le_reg_r with d; [lra|];
  unfold Rdiv; rewrite Rmult_assoc, Rinv_l by lra; lra.

Lemma Math_round_bounds (y : R) (za zb : Z) :
  IZR za <= y <= IZR zb -> IZR za <= Math_round y <= IZR zb.
Proof.
  intros [Ha Hb]. unfold Math_round.
  destruct (base_Int_part (y + / 2)) as [H1 H2].
  split; apply IZR_le.
  - assert (H : IZR za - 1 < IZR (Int_part (y + / 2))) by lra.
    rewrite <- minus_IZR in H. apply lt_IZR in H. lia.
  - assert (H : IZR (Int_part (y + / 2)) < IZR zb + 1) by lra.
    rewrite <- plus_IZR in H. apply lt_IZR in H. lia.
Qed.

Lemma Math_round_IZR (z : Z) : Math_round (IZR z) = IZR z.
Proof.
  destruct (Math_round_bounds (IZR z) z z) as [H1 H2]; lra.
Qed.

Lemma pow10_pos (d : nat) : 0 < 10 ^ d.
Proof. apply pow_lt. lra. Qed.

Lemma round_bounds (x : R) (d : nat) (a b : Z) :
  IZR a <= x <= IZR b -> IZR a <= round x d <= IZR b.
Proof.
  intros [Ha Hb]. unfold round. pose proof (pow10_pos d) as Hf.
  assert (E : (10 ^ d)%R = IZR (10 ^ Z.of_nat d)).
  { rewrite <- pow_IZR. reflexivity. }
  destruct (Math_round_bounds (x * 10 ^ d) (a * 10 ^ Z.of_nat d) (b * 10 ^ Z.of_nat d)) as [H1 H2].
  { rewrite !mult_IZR, <- E. split; apply Rmult_le_compat_r; lra. }
  rewrite !mult_IZR, <- E in H1, H2.
  split.
  - by_divisor (10 ^ d).
  - by_divisor (10 ^ d).
Qed.

Lemma round_IZR (z : Z) (d : nat) : round (IZR z) d = IZR z.
Proof. destruct (round_bounds (IZR z) d z z); lra. Qed.

Lemma ln_lower (x : R) : 0 < x -> 1 - / x <= ln x.
Proof.
  intros Hx. pose proof (exp_ineq1_le (- ln x)) as H.
  rewrite exp_Ropp, exp_ln in H by assumption. lra.
Qed.

Lemma ln2_pos : 0 < ln 2.
Proof. rewrite <- ln_1. apply ln_increasing; lra. Qed.

Lemma fold_left_Rsum {A} (g : A -> R) (l : list A) (a : R) :
  fold_left (fun s p => s + g p) l a = a + Rsum (map g l).
Proof.
  revert a; induction l as [|x l IH]; intros a; simpl.
  - lra.
  - rewrite IH. lra.
Qed.

Lemma shannonEntropy_sum (ps : list R) :
  shannonEntropy ps = - Rsum (map plogp ps).
Proof.
  unfold shannonEntropy. rewrite (fold_left_Rsum plogp). unfold plogp. lra.
Qed.

Lemma plogp_pos (p : R) : 0 < p -> plogp p = p * ln p * / ln 2.
Proof.
  intros H. unfold plogp, log2. destruct (Rlt_dec 0 p); [|contradiction].
  unfold Rdiv. ring.
Qed.

Lemma inv_ln2_pos : 0 < / ln 2.
Proof. apply Rinv_0_lt_compat, ln2_pos. Qed.

Lemma plogp_sum_lower (ps : list R) (N : R) :
  0 < N -> (forall q, In q ps -> 0 < q) ->
  Rsum ps - INR (length ps) / N - ln N * Rsum ps
  <= Rsum (map (fun p => p * ln p) ps).
Proof.
  intros HN. induction ps as [|p ps IH]; intros H.
  - simpl. unfold Rdiv. lra.
  - assert (Hp : 0 < p) by (apply H; simpl; tauto).
    assert (Hs := IH (fun q Hq => H q (or_intror Hq))).
    change (length (p :: ps)) with (S (length ps)). rewrite S_INR.
    cbn [map Rsum fold_right] in *. fold (Rsum ps) in *.
    fold (Rsum (map (fun p => p * ln p) ps)) in *.
    assert (Hnp : 0 < N * p) by nra.
    pose proof (ln_lower (N * p) Hnp) as Hl.
    rewrite ln_mult in Hl by assumption.
    assert (Hi : p * / (N * p) = / N) by (field; lra).
    assert (Hm : p * (1 - / (N * p)) <= p * (ln N + ln p))
      by (apply Rmult_le_compat_l; lra).
    rewrite Rmult_minus_distr_l, Hi in Hm.
    unfold Rdiv in *. lra.
Qed.

Lemma Rsum_plogp_scale (ps : list R) :
  (forall q, In q ps -> 0 < q) ->
  Rsum (map plogp ps) = Rsum (map (fun p => p * ln p) ps) * / ln 2.
Proof.
  induction ps as [|p ps IH]; intros H; simpl.
  - lra.
  - rewrite plogp_pos by (apply H; simpl; tauto).
    rewrite IH by (intros; apply H; simpl; tauto). lra.
Qed.

Lemma build_profile_acc (table : list jsstring) (freq : jsobj Z) (total : Z)
      (acc : jsobj R) :
  NoDup (map fst acc ++ table) ->
  fold_left
    (fun prof c => obj_set c (IZR (count_or_0 freq c) / IZR total) prof)
    table acc
  = acc ++ map (fun c => (c, IZR (count_or_0 freq c) / IZR total)) table.
Proof.
  revert acc; induction table as [|c table IH]; intros acc Hnd; simpl.
  - now rewrite app_nil_r.
  - assert (Hc : ~ In c (map fst acc)).
    { apply NoDup_remove_2 in Hnd. intros H. apply Hnd, in_or_app. now left. }
    rewrite (obj_set_new c _ acc Hc), IH.
    + now rewrite <- app_assoc.
    + rewrite map_app, <- app_assoc. exact Hnd.
Qed.

Lemma build_profile_eq (table : list jsstring) (freq : jsobj Z) (total : Z) :
  NoDup table ->
  build_profile table freq total
  = map (fun c => (c, IZR (count_or_0 freq c) / IZR total)) table.
Proof. intros H. unfold build_profile. now rewrite build_profile_acc. Qed.

Lemma build_profile_values (table : list jsstring) (freq : jsobj Z) (total : Z) :
  NoDup table ->
  map snd (build_profile table freq total)
  = map (fun c => IZR (count_or_0 freq c) / IZR total) table.
Proof.
  intros H. rewrite build_profile_eq, map_map by assumption. reflexivity.
Qed.

Lemma Rsum_scaled (f : jsstring -> Z) (total : Z) (table : list jsstring) :
  Rsum (map (fun c => IZR (f c) / IZR total) table)
  = IZR (Zsum (map f table)) / IZR total.
Proof.
  induction table as [|c table IH]; simpl.
  - unfold Rdiv. lra.
  - rewrite IH, plus_IZR. unfold Rdiv. lra.
Qed.

Lemma Zsum_indicator (s : jsstring) (table : list jsstring) :
  NoDup table ->
  Zsum (map (fun c => if str_eqb c s then 1 else 0)%Z table)
  = if in_dec str_eq_dec s table then 1%Z else 0%Z.
Proof.
  induction table as [|c table IH]; intros Hnd; [reflexivity|].
  inversion Hnd as [|? ? Hc Hnd']; subst. cbn [map Zsum fold_right].
  fold (Zsum (map (fun c => if str_eqb c s then 1 else 0)%Z table)).
  rewrite (IH Hnd'). destruct (str_eqb c s) eqn:E.
  - apply str_eqb_eq in E. subst c.
    destruct (in_dec str_eq_dec s table); [contradiction|].
    destruct (in_dec str_eq_dec s (s :: table)) as [_|H]; [reflexivity|].
    exfalso. apply H. now left.
  - apply str_eqb_neq in E.
    destruct (in_dec str_eq_dec s table) as [H|H];
      destruct (in_dec str_eq_dec s (c :: table)) as [H'|H']; try reflexivity.
    + exfalso. apply H'. now right.
    + exfalso. destruct H' as [H'|H']; [congruence | contradiction].
Qed.

Lemma Zsum_add (f g : jsstring -> Z) (table : list jsstring) :
  Zsum (map (fun c => f c + g c)%Z table)
  = (Zsum (map f table) + Zsum (map g table))%Z.
Proof. induction table as [|c table IH]; simpl; [reflexivity | rewrite IH; lia]. Qed.

Lemma count_str_cons (c s : jsstring) (syms : list jsstring) :
  count_str c (s :: syms)
  = ((if str_eqb c s then 1 else 0) + count_str c syms)%Z.
Proof.
  unfold count_str. simpl. destruct (str_eqb c s); [|reflexivity].
  unfold len. simpl length. lia.
Qed.

Lemma Zsum_count (table syms : list jsstring) :
  NoDup table -> (forall s, In s syms -> In s table) ->
  Zsum (map (fun c => count_str c syms) table) = len syms.
Proof.
  intros Hnd. induction syms as [|s syms IH]; intros Hsub.
  - clear. induction table as [|c table IH]; [reflexivity|].
    cbn [map Zsum fold_right]. fold (Zsum (map (fun c => count_str c []) table)).
    rewrite IH. reflexivity.
  - rewrite (map_ext _ (fun c => (if str_eqb c s then 1 else 0)
                                 + count_str c syms)%Z)
      by (intros; apply count_str_cons).
    rewrite Zsum_add, Zsum_indicator, IH by (auto; intros; apply Hsub; now right).
    destruct (in_dec str_eq_dec s table) as [_|H].
    + unfold len. simpl length. lia.
    + exfalso. apply H, Hsub. now left.
Qed.

Lemma Rsum_filter_pos (vs : list R) :
  (forall v, In v vs -> 0 <= v) -> Rsum (filter is_pos vs) = Rsum vs.
Proof.
  induction vs as [|v vs IH]; intros H; [reflexivity|].
  assert (Hv : 0 <= v) by (apply H; now left).
  cbn [filter]. unfold is_pos at 1. destruct (Rlt_dec 0 v) as [Hp|Hp]; simpl;
    rewrite IH by (intros; apply H; now right); lra.
Qed.

Lemma count_str_nonneg (k : jsstring) (l : list jsstring) : (0 <= count_str k l)%Z.
Proof. apply len_nonneg. Qed.

Lemma cho_syms_in_table (text : jsstring) (s : jsstring) :
  In s (cho_syms (decomposed_syllables text)) -> In s CHOSEONG.
Proof.
  unfold cho_syms. intros H. apply in_map_iff in H as (d & <- & Hd).
  apply decomposed_in_range in Hd as (c & rest & Hc & Hd).
  destruct (decompose_fields c rest Hc)
    as (d' & sc & sj & Hd' & _ & _ & _ & _ & _ & Ec & Nc & _).
  rewrite Hd in Hd'. injection Hd' as <-. rewrite Ec. cbn [to_str].
  eapply nth_error_In; exact Nc.
Qed.

Lemma jung_syms_in_table (text : jsstring) (s : jsstring) :
  In s (jung_syms (decomposed_syllables text)) -> In s JUNGSEONG.
Proof.
  unfold jung_syms. intros H. apply in_map_iff in H as (d & <- & Hd).
  apply decomposed_in_range in Hd as (c & rest & Hc & Hd).
  destruct (decompose_fields c rest Hc)
    as (d' & sc & sj & Hd' & _ & _ & _ & _ & _ & _ & _ & Ej & Nj & _).
  rewrite Hd in Hd'. injection Hd' as <-. rewrite Ej. cbn [to_str].
  eapply nth_error_In; exact Nj.
Qed.

(** What the fingerprint needs to know of the result of [analyze]. *)
Lemma analyze_facts (text : jsstring) :
  let r := analyze text in
  let ds := decomposed_syllables text in
  totalSyllables r = len ds
  /\ (forall c, count_or_0 (choFreq r) c = count_str c (cho_syms ds))
  /\ (forall c, count_or_0 (jungFreq r) c = count_str c (jung_syms ds))
  /\ (0 <= bright (vowelHarmony r))%Z /\ (0 <= dark (vowelHarmony r))%Z
  /\ (0 <= withJong r <= totalSyllables r)%Z
  /\ jongRatio r = if (totalSyllables r =? 0)%Z then 0
                   else IZR (withJong r) / IZR (totalSyllables r).
Proof.
  cbv zeta. rewrite <- analyze_syllables.
  destruct (analyze_loop_ok text)
    as (Hc & Hj & _ & Ht & _ & Hw & Hb & Hd & _ & _).
  apply sortByValue_ok in Hc as (_ & _ & _ & Hc & _).
  apply sortByValue_ok in Hj as (_ & _ & _ & Hj & _).
  unfold analyze; cbn [totalSyllables choFreq jungFreq vowelHarmony bright dark
                       withJong jongRatio syllables].
  repeat split; first [assumption | lia | reflexivity | apply Hc | apply Hj].
Qed.

Lemma brightness_bounds (b d : Z) :
  (0 <= b)%Z -> (0 <= d)%Z ->
  -1 <= IZR (b - d) / IZR (if (b + d =? 0)%Z then 1 else b + d) <= 1.
Proof.
  intros Hb Hd. destruct (b + d =? 0)%Z eqn:E.
  - apply Z.eqb_eq in E. replace (b - d)%Z with 0%Z by lia.
    unfold Rdiv. rewrite Rmult_0_l. lra.
  - apply Z.eqb_neq in E. assert (Hs : (0 < b + d)%Z) by lia.
    apply IZR_lt in Hs. apply IZR_le in Hb, Hd.
    rewrite minus_IZR. rewrite plus_IZR in *.
    split.
    + by_divisor (IZR b + IZR d).
    + by_divisor (IZR b + IZR d).
Qed.

Lemma ratio_bounds (w t : Z) :
  (0 <= w <= t)%Z -> (0 < t)%Z -> 0 <= IZR w / IZR t <= 1.
Proof.
  intros [Hw Ht] Hs. apply IZR_lt in Hs. apply IZR_le in Hw, Ht. split.
  - apply Rmult_le_pos; [exact Hw|]. left. now apply Rinv_0_lt_compat.
  - by_divisor (IZR t).
Qed.

Lemma cosine_fold (ab : list (R * R)) (d m n : R) :
  fold_left
    (fun (acc : R * R * R) (xy : R * R) =>
       let '(dot, magA, magB) := acc in
       (dot + fst xy * snd xy, magA + fst xy ^ 2, magB + snd xy ^ 2))
    ab (d, m, n)
  = (d + Rsum (map (fun xy => fst xy * snd xy) ab),
     m + Rsq (map fst ab), n + Rsq (map snd ab)).
Proof.
  revert d m n; induction ab as [|[x y] ab IH]; intros d m n.
  - unfold Rsq. simpl. f_equal; [f_equal|]; lra.
  - cbn [fold_left]. rewrite IH. unfold Rsq.
    cbn [map Rsum fst snd]. f_equal; [f_equal|]; lra.
Qed.

Lemma combine_fst {A B} (a : list A) (b : list B) :
  length a = length b -> map fst (combine a b) = a.
Proof.
  revert b; induction a as [|x a IH]; intros [|y b] H; simpl in *;
    try discriminate; [reflexivity|]. f_equal. apply IH. lia.
Qed.

Lemma combine_snd {A B} (a : list A) (b : list B) :
  length a = length b -> map snd (combine a b) = b.
Proof.
  revert b; induction a as [|x a IH]; intros [|y b] H; simpl in *;
    try discriminate; [reflexivity|]. f_equal. apply IH. lia.
Qed.

Lemma cosineSimilarity_eq (a b : list R) :
  length a = length b ->
  cosineSimilarity a b
  = if Req_dec_T (sqrt (Rsq a) * sqrt (Rsq b)) 0 then 0
    else Rdot a b / (sqrt (Rsq a) * sqrt (Rsq b)).
Proof.
  intros H. unfold cosineSimilarity. rewrite cosine_fold.
  rewrite (combine_fst a b H), (combine_snd a b H), !Rplus_0_l. reflexivity.
Qed.

Lemma Rsq_nonneg (a : list R) : 0 <= Rsq a.
Proof.
  unfold Rsq. induction a as [|x a IH]; simpl; [lra|].
  pose proof (pow2_ge_0 x). simpl in *. lra.
Qed.

Lemma Rsq_app (a b : list R) : Rsq (a ++ b) = Rsq a + Rsq b.
Proof.
  unfold Rsq. induction a as [|x a IH]; simpl; [lra|].
  simpl in IH. rewrite IH. lra.
Qed.

Lemma Rdot_self (a : list R) : Rdot a a = Rsq a.
Proof.
  unfold Rdot, Rsq. induction a as [|x a IH]; simpl; [reflexivity|].
  simpl in IH. rewrite IH. lra.
Qed.

Lemma obj_get_tabulate {V} (g : jsstring -> V) (table : list jsstring)
      (c : jsstring) :
  In c table -> obj_get c (map (fun c => (c, g c)) table) = Some (g c).
Proof.
  induction table as [|x table IH]; simpl; [tauto|]. intros H.
  destruct (str_eqb x c) eqn:E.
  - apply str_eqb_eq in E. now subst.
  - apply str_eqb_neq in E. apply IH. destruct H; [contradiction | assumption].
Qed.

Lemma profile_vector (table : list jsstring) (freq : jsobj Z) (total : Z) :
  NoDup table ->
  map (frac_or_0 (build_profile table freq total)) table
  = map (fun c => IZR (count_or_0 freq c) / IZR total) table.
Proof.
  intros H. rewrite build_profile_eq by assumption. apply map_ext_in.
  intros c Hc. unfold frac_or_0.
  now rewrite (obj_get_tabulate
                 (fun c => IZR (count_or_0 freq c) / IZR total) table c Hc).
Qed.

Lemma Rdot_app (a1 a2 b1 b2 : list R) :
  length a1 = length b1 ->
  Rdot (a1 ++ a2) (b1 ++ b2) = Rdot a1 b1 + Rdot a2 b2.
Proof.
  unfold Rdot. revert b1; induction a1 as [|x a1 IH]; intros [|y b1] H;
    simpl in *; try discriminate; [lra|].
  rewrite IH by lia. lra.
Qed.

Lemma Rdot_scaled (t1 t2 : Z) (zs1 zs2 : list Z) :
  Rdot (scaled t1 zs1) (scaled t2 zs2)
  = IZR (Zdot zs1 zs2) / (IZR t1 * IZR t2).
Proof.
  unfold Rdot, Zdot, scaled.
  revert zs2; induction zs1 as [|x zs1 IH]; intros [|y zs2]; simpl;
    try (unfold Rdiv; lra).
  rewrite IH, plus_IZR, mult_IZR. unfold Rdiv. rewrite Rinv_mult. ring.
Qed.

Lemma Rsq_scaled (t : Z) (zs : list Z) :
  Rsq (scaled t zs) = IZR (Zdot zs zs) / (IZR t * IZR t).
Proof. rewrite <- Rdot_self. apply Rdot_scaled. Qed.

Lemma profile_scaled (table : list jsstring) (freq : jsobj Z) (total : Z) :
  map (fun c => IZR (count_or_0 freq c) / IZR total) table
  = scaled total (map (count_or_0 freq) table).
Proof. unfold scaled. now rewrite map_map. Qed.

(** The feature vector [compare] builds from the fingerprint of a text. *)
Lemma fingerprint_features (text : jsstring) :
  decomposed_syllables text <> [] ->
  let r := analyze text in
  let b := bright (vowelHarmony r) in
  let d := dark (vowelHarmony r) in
  exists fp,
    fingerprint text = Some fp
    /\ feature_vector fp
       = scaled (totalSyllables r) (map (count_or_0 (choFreq r)) CHOSEONG)
         ++ scaled (totalSyllables r) (map (count_or_0 (jungFreq r)) JUNGSEONG)
         ++ [ round (IZR (b - d) / IZR (if (b + d =? 0)%Z then 1 else b + d)) 3;
              round (IZR (withJong r) / IZR (totalSyllables r)) 3;
              round (rhythmRegularity_of (lineLengths_of text)) 3 ].
Proof.
  intros Hne. cbv zeta.
  destruct (analyze_facts text) as (Ht & _ & _ & _ & _ & _ & Hr).
  assert (Hpos : (0 < totalSyllables (analyze text))%Z).
  { rewrite Ht. destruct (decomposed_syllables text); [congruence|].
    unfold len. simpl length. lia. }
  unfold fingerprint.
  destruct (totalSyllables (analyze text) =? 0)%Z eqn:E;
    [apply Z.eqb_eq in E; lia|].
  eexists. split; [reflexivity|]. unfold feature_vector.
  cbn [choProfile jungProfile brightness weight rhythmRegularity].
  rewrite !profile_vector by (apply NoDup_CHOSEONG || apply NoDup_JUNGSEONG).
  rewrite !profile_scaled, Hr. reflexivity.
Qed.

Lemma round_negative (x : R) (d : nat) : x * 10 ^ d < - / 2 -> round x d < 0.
Proof.
  intros H. unfold round, Math_round.
  destruct (base_Int_part (x * 10 ^ d + / 2)) as [H1 _].
  pose proof (pow10_pos d) as Hf.
  apply Rdiv_neg_pos; [lra | exact Hf].
Qed.

Lemma sqrt_4 : sqrt 4 = 2.
Proof. replace 4 with (2 * 2) by lra. apply sqrt_square. lra. Qed.

Lemma rhythm_uneven : rhythmRegularity_of [1; 1; 10]%Z = 0.
Proof.
  assert (Havg : avgLineLength_of [1; 1; 10]%Z = 4).
  { unfold avgLineLength_of. change (len [1; 1; 10]%Z) with 3%Z.
    change (fold_left Z.add [1; 1; 10]%Z 0%Z) with 12%Z.
    change (3 =? 0)%Z with false. cbv iota. lra. }
  assert (Hvar : lineVariance_of [1; 1; 10]%Z = 18).
  { unfold lineVariance_of. rewrite Havg. change (len [1; 1; 10]%Z) with 3%Z.
    change (1 <? 3)%Z with true. cbv iota. cbn [fold_left pow]. lra. }
  unfold rhythmRegularity_of. rewrite Havg, Hvar.
  destruct (Rlt_dec 0 4) as [_|H]; [|lra].
  assert (H4 : 4 <= sqrt 18).
  { replace 4 with (sqrt (4 * 4)) at 1 by (apply sqrt_square; lra).
    apply sqrt_le_1_alt. lra. }
  rewrite Rmin_left; [lra|].
  by_divisor 4.
Qed.

Lemma rhythm_single : rhythmRegularity_of [1]%Z = 1.
Proof.
  assert (Havg : avgLineLength_of [1]%Z = 1).
  { unfold avgLineLength_of. change (len [1]%Z) with 1%Z.
    change (fold_left Z.add [1]%Z 0%Z) with 1%Z.
    change (1 =? 0)%Z with false. cbv iota. lra. }
  assert (Hvar : lineVariance_of [1]%Z = 0).
  { unfold lineVariance_of. change (len [1]%Z) with 1%Z.
    change (1 <? 1)%Z with false. reflexivity. }
  unfold rhythmRegularity_of. rewrite Havg, Hvar, sqrt_0.
  destruct (Rlt_dec 0 1) as [_|H]; [|lra].
  rewrite Rmin_right; lra.
Qed.

(** C9. The result of [compare] is not confined to [0, 1]: the texts
    [sample_bright_uneven] (brightness 1, weight 0, rhythm regularity 0)
    and [sample_dark_single] (brightness -1, weight 0, rhythm regularity
    1) each have a decomposable syllable, share no initial and no medial,
    and their similarity is strictly negative.  (Numbers are exact reals
    here.) *)
Theorem compare_can_be_negative :
  exists r,
    decomposed_syllables sample_bright_uneven <> []
    /\ decomposed_syllables sample_dark_single <> []
    /\ compare sample_bright_uneven sample_dark_single = Some r
    /\ r < 0.
Proof.
  assert (HA : decomposed_syllables sample_bright_uneven <> [])
    by (vm_compute; discriminate).
  assert (HB : decomposed_syllables sample_dark_single <> [])
    by (vm_compute; discriminate).
  destruct (fingerprint_features _ HA) as (fpA & EA & VA).
  destruct (fingerprint_features _ HB) as (fpB & EB & VB).
  cbv zeta in VA, VB.
  assert (TA : totalSyllables (analyze sample_bright_uneven) = 12%Z)
    by (vm_compute; reflexivity).
  assert (TB : totalSyllables (analyze sample_dark_single) = 1%Z)
    by (vm_compute; reflexivity).
  assert (CA : map (count_or_0 (choFreq (analyze sample_bright_uneven))) CHOSEONG
               = [12;0;0;0;0;0;0;0;0;0;0;0;0;0;0;0;0;0;0]%Z)
    by (vm_compute; reflexivity).
  assert (CB : map (count_or_0 (choFreq (analyze sample_dark_single))) CHOSEONG
               = [0;0;1;0;0;0;0;0;0;0;0;0;0;0;0;0;0;0;0]%Z)
    by (vm_compute; reflexivity).
  assert (JA : map (count_or_0 (jungFreq (analyze sample_bright_uneven))) JUNGSEONG
               = [12;0;0;0;0;0;0;0;0;0;0;0;0;0;0;0;0;0;0;0;0]%Z)
    by (vm_compute; reflexivity).
  assert (JB : map (count_or_0 (jungFreq (analyze sample_dark_single))) JUNGSEONG
               = [0;0;0;0;1;0;0;0;0;0;0;0;0;0;0;0;0;0;0;0;0]%Z)
    by (vm_compute; reflexivity).
  assert (BA : bright (vowelHarmony (analyze sample_bright_uneven)) = 12%Z)
    by (vm_compute; reflexivity).
  assert (DA : dark (vowelHarmony (analyze sample_bright_uneven)) = 0%Z)
    by (vm_compute; reflexivity).
  assert (BB : bright (vowelHarmony (analyze sample_dark_single)) = 0%Z)
    by (vm_compute; reflexivity).
  assert (DB : dark (vowelHarmony (analyze sample_dark_single)) = 1%Z)
    by (vm_compute; reflexivity).
  assert (WA : withJong (analyze sample_bright_uneven) = 0%Z)
    by (vm_compute; reflexivity).
  assert (WB : withJong (analyze sample_dark_single) = 0%Z)
    by (vm_compute; reflexivity).
  assert (LA : lineLengths_of sample_bright_uneven = [1; 1; 10]%Z)
    by (vm_compute; reflexivity).
  assert (LB : lineLengths_of sample_dark_single = [1]%Z)
    by (vm_compute; reflexivity).
  rewrite TA, CA, JA, BA, DA, WA, LA, rhythm_uneven in VA.
  rewrite TB, CB, JB, BB, DB, WB, LB, rhythm_single in VB.
  change (12 - 0)%Z with 12%Z in VA. change (12 + 0 =? 0)%Z with false in VA.
  change (12 + 0)%Z with 12%Z in VA. cbv iota in VA.
  change (0 - 1)%Z with (-1)%Z in VB. change (0 + 1 =? 0)%Z with false in VB.
  change (0 + 1)%Z with 1%Z in VB. cbv iota in VB.
  replace (IZR 12 / IZR 12) with (IZR 1) in VA by (field; lra).
  replace (IZR 0 / IZR 12) with (IZR 0) in VA by (field; lra).
  replace (IZR (-1) / IZR 1) with (IZR (-1)) in VB by (field; lra).
  replace (IZR 0 / IZR 1) with (IZR 0) in VB by (field; lra).
  repeat rewrite round_IZR in VA. repeat rewrite round_IZR in VB.
  unfold compare. rewrite EA, EB. eexists.
  split; [exact HA|]. split; [exact HB|]. split; [reflexivity|].
  apply round_negative.
  rewrite cosineSimilarity_eq
    by (rewrite VA, VB; unfold scaled; rewrite !length_app, !length_map; reflexivity).
  rewrite VA, VB.
  rewrite !Rsq_app, !Rsq_scaled.
  rewrite !Rdot_app by (unfold scaled; rewrite !length_map; reflexivity).
  rewrite !Rdot_scaled.
  change (Zdot [12;0;0;0;0;0;0;0;0;0;0;0;0;0;0;0;0;0;0]
               [12;0;0;0;0;0;0;0;0;0;0;0;0;0;0;0;0;0;0])%Z with 144%Z.
  change (Zdot [0;0;1;0;0;0;0;0;0;0;0;0;0;0;0;0;0;0;0]
               [0;0;1;0;0;0;0;0;0;0;0;0;0;0;0;0;0;0;0])%Z with 1%Z.
  change (Zdot [12;0;0;0;0;0;0;0;0;0;0;0;0;0;0;0;0;0;0]
               [0;0;1;0;0;0;0;0;0;0;0;0;0;0;0;0;0;0;0])%Z with 0%Z.
  change (Zdot [12;0;0;0;0;0;0;0;0;0;0;0;0;0;0;0;0;0;0;0;0]
               [12;0;0;0;0;0;0;0;0;0;0;0;0;0;0;0;0;0;0;0;0])%Z with 144%Z.
  change (Zdot [0;0;0;0;1;0;0;0;0;0;0;0;0;0;0;0;0;0;0;0;0]
               [0;0;0;0;1;0;0;0;0;0;0;0;0;0;0;0;0;0;0;0;0])%Z with 1%Z.
  change (Zdot [12;0;0;0;0;0;0;0;0;0;0;0;0;0;0;0;0;0;0;0;0]
               [0;0;0;0;1;0;0;0;0;0;0;0;0;0;0;0;0;0;0;0;0])%Z with 0%Z.
  unfold Rsq, Rdot. cbn [combine map Rsum fst snd pow].
  replace (IZR 144 / (IZR 12 * IZR 12) + (IZR 144 / (IZR 12 * IZR 12)
           + (IZR 1 * (IZR 1 * 1) + (IZR 0 * (IZR 0 * 1) + (IZR 0 * (IZR 0 * 1) + 0)))))
    with 3 by (field; lra).
  replace (IZR 1 / (IZR 1 * IZR 1) + (IZR 1 / (IZR 1 * IZR 1)
           + (IZR (-1) * (IZR (-1) * 1) + (IZR 0 * (IZR 0 * 1) + (IZR 1 * (IZR 1 * 1) + 0)))))
    with 4 by (field; lra).
  replace (IZR 0 / (IZR 12 * IZR 1) + (IZR 0 / (IZR 12 * IZR 1)
           + (IZR 1 * IZR (-1) + (IZR 0 * IZR 0 + (IZR 0 * IZR 1 + 0)))))
    with (-1) by (field; lra).
  rewrite sqrt_4.
  assert (H3 : 0 < sqrt 3) by (apply sqrt_lt_R0; lra).
  assert (H3' : sqrt 3 <= 2) by (rewrite <- sqrt_4; apply sqrt_le_1_alt; lra).
  destruct (Req_dec_T (sqrt 3 * 2) 0) as [E|_]; [lra|].
  assert (Hq : -1 / (sqrt 3 * 2) <= - / 4).
  { by_divisor (sqrt 3 * 2). }
  simpl pow. lra.
Qed.

(* ================================================================= *)
(** * Further properties

    Properties of the rest of the module: the inverse direction of the
    codec, the counters and tables of the analyzer, the structural
    pattern encoder, the order of the rhyme groups, the fields of the
    fingerprint and the comparator, and the structure section of the
    command line. *)

Local Close Scope R_scope.

(** ** Code points and code units *)

Lemma decompose_surrogate_pair (c c2 : Z) :
  is_high_surrogate c = true -> decompose [c; c2] = None.
Proof.
  intros H. unfold decompose. rewrite isSyllable_cons.
  unfold is_high_surrogate in H. apply andb_true_iff in H as [H1 H2].
  apply Z.leb_le in H1. replace (c <=? SYLLABLE_END) with false.
  - now rewrite andb_false_r.
  - symmetry. apply Z.leb_gt. unfold SYLLABLE_END. lia.
Qed.

Lemma decompose_surrogate_unit (c : Z) :
  is_high_surrogate c = true \/ is_low_surrogate c = true ->
  decompose [c] = None.
Proof.
  intros H. unfold decompose. rewrite isSyllable_cons.
  replace (c <=? SYLLABLE_END) with false; [now rewrite andb_false_r|].
  symmetry. apply Z.leb_gt. unfold SYLLABLE_END.
  unfold is_high_surrogate, is_low_surrogate in H.
  destruct H as [H|H]; apply andb_true_iff in H as [H1 _];
    apply Z.leb_le in H1; lia.
Qed.

(** Iterating by code point or by code unit gives the same syllables: a
    surrogate pair holds no syllable, and neither do its two halves. *)
Lemma decomposed_by_units (text : jsstring) :
  decomposed_syllables text = unit_syllables text.
Proof.
  unfold decomposed_syllables, unit_syllables.
  assert (H : forall n s, (length s <= n)%nat ->
                flat_map (fun ch => match decompose ch with
                                    | Some d => [d] | None => [] end)
                  (string_iter s)
                = flat_map (fun c => match decompose [c] with
                                     | Some d => [d] | None => [] end) s).
  { induction n as [|n IH]; intros s Hs.
    - destruct s; [reflexivity | simpl in Hs; lia].
    - destruct s as [|c [|c2 s]]; [reflexivity | reflexivity |].
      cbn [string_iter].
      destruct (is_high_surrogate c && is_low_surrogate c2) eqn:E.
      + apply andb_true_iff in E as [E1 E2]. cbn [flat_map].
        rewrite (decompose_surrogate_pair c c2 E1).
        rewrite (decompose_surrogate_unit c (or_introl E1)).
        rewrite (decompose_surrogate_unit c2 (or_intror E2)).
        cbn [app]. apply IH. simpl in Hs. lia.
      + cbn [flat_map]. f_equal. apply (IH (c2 :: s)). simpl in *. lia. }
  apply (H (length text)). lia.
Qed.

Lemma decomposed_app (a b : jsstring) :
  decomposed_syllables (a ++ b)
  = decomposed_syllables a ++ decomposed_syllables b.
Proof. rewrite !decomposed_by_units. apply flat_map_app. Qed.

Lemma decompose_unit (c : Z) :
  decompose [c] = None <-> is_syllable_unit c = false.
Proof.
  unfold decompose, is_syllable_unit. rewrite isSyllable_cons.
  destruct ((SYLLABLE_BASE <=? c) && (c <=? SYLLABLE_END)); simpl;
    split; congruence.
Qed.

Lemma unit_syllables_nil (text : jsstring) :
  unit_syllables text = [] <-> forall c, In c text -> is_syllable_unit c = false.
Proof.
  unfold unit_syllables. induction text as [|c text IH]; simpl.
  - split; [intros _ c [] | reflexivity].
  - split.
    + intros H. apply app_eq_nil in H as [H1 H2].
      intros x [<-|Hx]; [|now apply IH].
      apply decompose_unit. destruct (decompose [c]); [discriminate | reflexivity].
    + intros H. assert (E : decompose [c] = None)
        by (apply decompose_unit, H; now left).
      rewrite E. simpl. apply IH. intros x Hx. apply H. now right.
Qed.

(** ** From [compose] back to [decompose] *)

Lemma index_from_found (s : jsstring) (arr : list jsstring) (i k : Z) :
  0 <= i -> index_from s arr i = k -> i <= k ->
  nth_error arr (Z.to_nat (k - i)) = Some s.
Proof.
  revert i; induction arr as [|x arr IH]; intros i Hi Hk Hik; simpl in Hk.
  - lia.
  - destruct (str_eqb x s) eqn:E.
    + apply str_eqb_eq in E. subst. replace (k - k) with 0 by lia. reflexivity.
    + destruct (index_from_range s arr (i + 1)) as [H|H]; [lia|].
      replace (Z.to_nat (k - i)) with (S (Z.to_nat (k - (i + 1)))) by lia.
      simpl. apply IH; lia.
Qed.

Lemma js_index_indexOf (table : list jsstring) (v : jsval) :
  0 <= indexOf table v -> js_index table (indexOf table v) = v.
Proof.
  intros H. destruct v as [| |s]; simpl in H; try lia.
  unfold js_index. simpl indexOf.
  destruct (index_from s table 0 <? 0) eqn:E; [apply Z.ltb_lt in E; lia|].
  pose proof (index_from_found s table 0 _ (Z.le_refl 0) eq_refl H) as Hn.
  rewrite Z.sub_0_r in Hn. now rewrite Hn.
Qed.

Lemma idx_of_code (ci ji gi : Z) :
  0 <= ci -> 0 <= ji < 21 -> 0 <= gi < 28 ->
  let code := (ci * 21 + ji) * 28 + gi in
  choIdx_of code = ci /\ jungIdx_of code = ji /\ jongIdx_of code = gi.
Proof.
  intros Hc Hj Hg code. unfold choIdx_of, jungIdx_of, jongIdx_of.
  assert (Hcode : 0 <= code) by (unfold code; nia).
  assert (Eg : Z.rem code 28 = gi).
  { rewrite Z.rem_mod_nonneg by lia. unfold code.
    rewrite Z.add_comm, Z.mod_add by lia. apply Z.mod_small. lia. }
  rewrite Eg.
  assert (Eq : (code - gi) / 28 = ci * 21 + ji).
  { unfold code. replace ((ci * 21 + ji) * 28 + gi - gi)
      with ((ci * 21 + ji) * 28) by lia. apply Z.div_mul. lia. }
  rewrite Eq. rewrite Z.rem_mod_nonneg by lia.
  repeat split.
  - rewrite Z.add_comm, Z.div_add by lia. rewrite Z.div_small by lia. lia.
  - rewrite Z.add_comm, Z.mod_add by lia. apply Z.mod_small. lia.
Qed.

Lemma compose_shape (c j g : jsval) :
  compose c j g =
  if (indexOf CHOSEONG c <? 0) || (indexOf JUNGSEONG j <? 0)
     || ((if truthy g then indexOf JONGSEONG g else 0) <? 0)
  then None
  else Some (fromCharCode
               (SYLLABLE_BASE
                + (indexOf CHOSEONG c * 21 + indexOf JUNGSEONG j) * 28
                + (if truthy g then indexOf JONGSEONG g else 0))).
Proof. unfold compose; destruct g; reflexivity. Qed.

(** X1. Whenever [compose] returns a string, it is a single syllable, and
    [decompose] of it gives back the initial, the medial and the final
    that were composed ([null] for an empty, [null] or omitted final),
    with their positions in the tables as indices. *)
Theorem decompose_compose (c j g : jsval) (s : jsstring) :
  compose c j g = Some s ->
  exists d,
    decompose s = Some d
    /\ isSyllable s = true /\ length s = 1%nat /\ syllable d = s
    /\ cho d = c /\ jung d = j
    /\ jong d = (if truthy g then g else JNull)
    /\ hasJong d = truthy g
    /\ choIdx d = indexOf CHOSEONG c
    /\ jungIdx d = indexOf JUNGSEONG j
    /\ jongIdx d = (if truthy g then indexOf JONGSEONG g else 0).
Proof.
  rewrite compose_shape.
  set (ci := indexOf CHOSEONG c). set (ji := indexOf JUNGSEONG j).
  set (gi := if truthy g then indexOf JONGSEONG g else 0).
  destruct ((ci <? 0) || (ji <? 0) || (gi <? 0)) eqn:E; [discriminate|].
  apply orb_false_iff in E as [E Eg]. apply orb_false_iff in E as [Ec Ej].
  apply Z.ltb_ge in Ec, Ej, Eg.
  assert (Hc : 0 <= ci < 19)
    by (destruct (indexOf_range CHOSEONG c) as [H|H]; fold ci in H;
        [lia | exact H]).
  assert (Hj : 0 <= ji < 21)
    by (destruct (indexOf_range JUNGSEONG j) as [H|H]; fold ji in H;
        [lia | exact H]).
  assert (Hg : 0 <= gi < 28).
  { unfold gi in *. destruct (truthy g); [|lia].
    destruct (indexOf_range JONGSEONG g) as [H|H]; [lia | exact H]. }
  intros Hs.
  assert (Es : s = fromCharCode (SYLLABLE_BASE + (ci * 21 + ji) * 28 + gi))
    by congruence.
  clear Hs. subst s.
  set (code := (ci * 21 + ji) * 28 + gi).
  assert (Hcode : 0 <= code < 11172) by (unfold code; lia).
  assert (Efc : fromCharCode (SYLLABLE_BASE + (ci * 21 + ji) * 28 + gi)
                = [SYLLABLE_BASE + code]).
  { unfold fromCharCode. f_equal. unfold code, SYLLABLE_BASE in *.
    rewrite Z.mod_small by lia. lia. }
  rewrite Efc.
  assert (Hr : SYLLABLE_BASE <= SYLLABLE_BASE + code <= SYLLABLE_END)
    by (unfold SYLLABLE_BASE, SYLLABLE_END; lia).
  rewrite (decompose_in_range _ [] Hr).
  replace (SYLLABLE_BASE + code - SYLLABLE_BASE) with code by lia.
  destruct (idx_of_code ci ji gi) as (Ic & Ij & Ig); try lia.
  fold code in Ic, Ij, Ig. rewrite Ic, Ij, Ig.
  eexists. split; [reflexivity|].
  cbn [syllable cho jung jong choIdx jungIdx jongIdx hasJong].
  split.
  { rewrite isSyllable_cons. destruct Hr as [H1 H2].
    apply Z.leb_le in H1, H2. now rewrite H1, H2. }
  split; [reflexivity|]. split; [reflexivity|].
  split; [apply js_index_indexOf; exact Ec|].
  split; [apply js_index_indexOf; exact Ej|].
  assert (Hjong : js_or (js_index JONGSEONG gi) JNull
                  = (if truthy g then g else JNull)
                  /\ negb (gi =? 0) = truthy g).
  { unfold gi in *. destruct (truthy g) eqn:Et.
    - rewrite (js_index_indexOf JONGSEONG g Eg). unfold js_or. rewrite Et.
      split; [reflexivity|].
      destruct (indexOf JONGSEONG g =? 0) eqn:E0; [|reflexivity].
      apply Z.eqb_eq in E0. pose proof (js_index_indexOf JONGSEONG g Eg) as H.
      rewrite E0 in H. rewrite <- H in Et. discriminate.
    - split; reflexivity. }
  destruct Hjong as [H1 H2]. auto.
Qed.

Lemma decompose_compose_witness :
  exists d,
    decompose [0xD55C] = Some d
    /\ isSyllable [0xD55C] = true /\ length [0xD55C] = 1%nat
    /\ syllable d = [0xD55C]
    /\ cho d = JStr [0x314E] /\ jung d = JStr [0x314F]
    /\ jong d = (if truthy (JStr [0x3134]) then JStr [0x3134] else JNull)
    /\ hasJong d = truthy (JStr [0x3134])
    /\ choIdx d = indexOf CHOSEONG (JStr [0x314E])
    /\ jungIdx d = indexOf JUNGSEONG (JStr [0x314F])
    /\ jongIdx d = (if truthy (JStr [0x3134])
                    then indexOf JONGSEONG (JStr [0x3134]) else 0).
Proof.
  apply (decompose_compose (JStr [0x314E]) (JStr [0x314F]) (JStr [0x3134])).
  reflexivity.
Defined.

(** ** Counters of the analyzer *)

Lemma len_filter_app {A} (p : A -> bool) (l l' : list A) :
  len (filter p (l ++ l')) = len (filter p l) + len (filter p l').
Proof. now rewrite filter_app, len_app. Qed.

Lemma analyze_counters (chars : list jsstring) (st : AState) :
  let ds := flat_map (fun ch => match decompose ch with
                                | Some d => [d] | None => [] end) chars in
  let st' := fold_left analyze_step chars st in
  st_bright st' = st_bright st + len (filter is_bright ds)
  /\ st_dark st' = st_dark st + len (filter is_dark ds)
  /\ st_neutral st' = st_neutral st + len (filter is_neutral ds)
  /\ st_withJong st' = st_withJong st + len (filter has_final ds)
  /\ st_total st' = st_total st + len ds.
Proof.
  revert st; induction chars as [|ch chars IH]; intros st;
    cbn [fold_left flat_map].
  - cbv zeta. cbn [filter]. change (@len Decomposed []) with 0. lia.
  - cbv zeta in *. destruct (IH (analyze_step st ch)) as (Hb & Hd & Hn & Hw & Ht).
    rewrite Hb, Hd, Hn, Hw, Ht. clear. unfold analyze_step.
    destruct (decompose ch) as [d|]; [|cbn [app]; lia].
    cbn [st_bright st_dark st_neutral st_withJong st_total].
    rewrite !len_filter_app, len_app. cbn [filter].
    unfold is_dark, is_neutral, has_final, is_bright.
    destruct (includes VOWEL_TYPES_bright (jung d));
      destruct (includes VOWEL_TYPES_dark (jung d));
      destruct (truthy (jong d)); cbn [negb andb];
      change (len [d]) with 1; change (@len Decomposed []) with 0; lia.
Qed.

Lemma analyze_counts (text : jsstring) :
  let r := analyze text in
  let ds := decomposed_syllables text in
  bright (vowelHarmony r) = len (filter is_bright ds)
  /\ dark (vowelHarmony r) = len (filter is_dark ds)
  /\ neutral (vowelHarmony r) = len (filter is_neutral ds)
  /\ withJong r = len (filter has_final ds)
  /\ totalSyllables r = len ds.
Proof.
  cbv zeta.
  destruct (analyze_counters (string_iter text) init_state)
    as (Hb & Hd & Hn & Hw & Ht).
  unfold analyze; cbn [vowelHarmony bright dark neutral withJong totalSyllables].
  unfold analyze_loop, decomposed_syllables.
  rewrite Hb, Hd, Hn, Hw, Ht. simpl. auto.
Qed.

(** The three tables of [analyze] against the symbols of the text. *)
Lemma analyze_tables_ok (text : jsstring) :
  let r := analyze text in
  let ds := decomposed_syllables text in
  sorted_by_count_then_first_seen (choFreq r) (cho_syms ds)
  /\ sorted_by_count_then_first_seen (jungFreq r) (jung_syms ds)
  /\ sorted_by_count_then_first_seen (jongFreq r) (jong_syms ds).
Proof.
  cbv zeta. rewrite <- analyze_syllables.
  destruct (analyze_loop_ok text) as (Hc & Hj & Hg & _).
  unfold analyze; cbn [choFreq jungFreq jongFreq syllables].
  split; [|split]; now apply sortByValue_ok.
Qed.

Lemma count_str_app (k : jsstring) (l l' : list jsstring) :
  count_str k (l ++ l') = count_str k l + count_str k l'.
Proof. unfold count_str. apply len_filter_app. Qed.

(** X2. [analyze] is additive over concatenation: the syllables of [a + b]
    are those of [a] followed by those of [b], and every counter and
    every frequency of the result is the sum of the two.  This holds also
    when the concatenation joins the two halves of a surrogate pair. *)
Theorem analyze_concat (a b : jsstring) :
  let ra := analyze a in
  let rb := analyze b in
  let r := analyze (a ++ b) in
  syllables r = syllables ra ++ syllables rb
  /\ totalSyllables r = totalSyllables ra + totalSyllables rb
  /\ withJong r = withJong ra + withJong rb
  /\ withoutJong r = withoutJong ra + withoutJong rb
  /\ bright (vowelHarmony r)
     = bright (vowelHarmony ra) + bright (vowelHarmony rb)
  /\ dark (vowelHarmony r) = dark (vowelHarmony ra) + dark (vowelHarmony rb)
  /\ neutral (vowelHarmony r)
     = neutral (vowelHarmony ra) + neutral (vowelHarmony rb)
  /\ (forall k, count_or_0 (choFreq r) k
                = count_or_0 (choFreq ra) k + count_or_0 (choFreq rb) k)
  /\ (forall k, count_or_0 (jungFreq r) k
                = count_or_0 (jungFreq ra) k + count_or_0 (jungFreq rb) k)
  /\ (forall k, count_or_0 (jongFreq r) k
                = count_or_0 (jongFreq ra) k + count_or_0 (jongFreq rb) k).
Proof.
  cbv zeta.
  destruct (analyze_counts a) as (Ba & Da & Na & Wa & Ta).
  destruct (analyze_counts b) as (Bb & Db & Nb & Wb & Tb).
  destruct (analyze_counts (a ++ b)) as (B & D & N & W & T).
  destruct (analyze_tables_ok a) as ((_ & _ & _ & Ca & _) & (_ & _ & _ & Ja & _)
                                     & (_ & _ & _ & Ga & _)).
  destruct (analyze_tables_ok b) as ((_ & _ & _ & Cb & _) & (_ & _ & _ & Jb & _)
                                     & (_ & _ & _ & Gb & _)).
  destruct (analyze_tables_ok (a ++ b))
    as ((_ & _ & _ & C & _) & (_ & _ & _ & J & _) & (_ & _ & _ & G & _)).
  assert (Ew : forall t, withoutJong (analyze t)
                         = totalSyllables (analyze t) - withJong (analyze t))
    by reflexivity.
  rewrite !Ew, B, D, N, W, T, Ba, Da, Na, Wa, Ta, Bb, Db, Nb, Wb, Tb.
  rewrite !analyze_syllables, decomposed_app, !len_filter_app, len_app.
  repeat split; try lia.
  - intros k. rewrite C, Ca, Cb, decomposed_app. unfold cho_syms.
    now rewrite map_app, count_str_app.
  - intros k. rewrite J, Ja, Jb, decomposed_app. unfold jung_syms.
    now rewrite map_app, count_str_app.
  - intros k. rewrite G, Ga, Gb, decomposed_app. unfold jong_syms.
    now rewrite filter_app, map_app, count_str_app.
Qed.

(** ** Texts without syllables *)

Lemma flat_map_nil {A B} (f : A -> list B) (l : list A) :
  flat_map f l = [] <-> forall x, In x l -> f x = [].
Proof.
  induction l as [|x l IH]; simpl.
  - split; [intros _ y [] | reflexivity].
  - split.
    + intros H. apply app_eq_nil in H as [H1 H2]. intros y [<-|Hy]; [exact H1|].
      now apply IH.
    + intros H. rewrite (H x (or_introl eq_refl)). simpl. apply IH.
      intros y Hy. apply H. now right.
Qed.

Lemma analyze_loop_no_syllable (chars : list jsstring) (st : AState) :
  (forall ch, In ch chars -> decompose ch = None) ->
  fold_left analyze_step chars st = st.
Proof.
  revert st; induction chars as [|ch chars IH]; intros st H; [reflexivity|].
  cbn [fold_left]. unfold analyze_step at 2.
  rewrite (H ch (or_introl eq_refl)). apply IH. intros x Hx. apply H. now right.
Qed.

Lemma no_syllable_chars (text : jsstring) :
  decomposed_syllables text = [] ->
  forall ch, In ch (string_iter text) -> decompose ch = None.
Proof.
  unfold decomposed_syllables. intros H ch Hch.
  pose proof (proj1 (flat_map_nil _ _) H ch Hch) as E. cbv beta in E.
  destruct (decompose ch); [discriminate | reflexivity].
Qed.

Lemma analyze_no_syllables (text : jsstring) :
  decomposed_syllables text = [] -> analyze text = empty_analysis.
Proof.
  intros H. unfold analyze, analyze_loop.
  rewrite (analyze_loop_no_syllable _ _ (no_syllable_chars text H)).
  reflexivity.
Qed.

Lemma ws_not_syllable (c : Z) : is_ws c = true -> is_syllable_unit c = false.
Proof.
  unfold is_ws, is_syllable_unit, SYLLABLE_BASE, SYLLABLE_END. intros H.
  destruct (44032 <=? c) eqn:E1; [|reflexivity].
  destruct (c <=? 55203) eqn:E2; [|reflexivity].
  apply Z.leb_le in E1, E2. exfalso.
  repeat (apply orb_true_iff in H; destruct H as [H|H]);
    try (apply andb_true_iff in H; destruct H as [H H']);
    try apply Z.leb_le in H; try apply Z.eqb_eq in H; try apply Z.leb_le in H';
    lia.
Qed.

Lemma split_ws_concat (s : jsstring) :
  concat (split_ws s) = filter (fun c => negb (is_ws c)) s.
Proof.
  induction s as [|c s IH]; [reflexivity|].
  cbn [split_ws filter]. destruct (is_ws c) eqn:Ec; cbn [negb].
  - destruct s as [|c2 s']; [reflexivity|].
    destruct (is_ws c2); [exact IH | exact IH].
  - destruct (split_ws s) as [|w ws]; simpl in *; now rewrite <- IH.
Qed.

Lemma unit_syllables_app (a b : jsstring) :
  unit_syllables (a ++ b) = unit_syllables a ++ unit_syllables b.
Proof. apply flat_map_app. Qed.

Lemma unit_syllables_concat (ws : list jsstring) :
  unit_syllables (concat ws) = concat (map unit_syllables ws).
Proof.
  induction ws as [|w ws IH]; [reflexivity|].
  cbn [concat map]. now rewrite unit_syllables_app, IH.
Qed.

Lemma unit_syllables_no_ws (s : jsstring) :
  unit_syllables (filter (fun c => negb (is_ws c)) s) = unit_syllables s.
Proof.
  induction s as [|c s IH]; [reflexivity|].
  cbn [filter]. destruct (is_ws c) eqn:Ec; cbn [negb].
  - change (unit_syllables (c :: s))
      with ((match decompose [c] with Some d => [d] | None => [] end)
            ++ unit_syllables s).
    rewrite (proj2 (decompose_unit c) (ws_not_syllable c Ec)). exact IH.
  - change (unit_syllables (c :: filter (fun c => negb (is_ws c)) s))
      with ((match decompose [c] with Some d => [d] | None => [] end)
            ++ unit_syllables (filter (fun c => negb (is_ws c)) s)).
    now rewrite IH.
Qed.

(** The syllables of a text are those of its words, in order. *)
Lemma words_syllables (text : jsstring) :
  concat (map decomposed_syllables (split_ws text)) = decomposed_syllables text.
Proof.
  rewrite (map_ext _ unit_syllables) by apply decomposed_by_units.
  rewrite <- unit_syllables_concat, split_ws_concat, unit_syllables_no_ws.
  symmetry. apply decomposed_by_units.
Qed.

Lemma concat_nil_all {A} (ls : list (list A)) :
  concat ls = [] -> forall l, In l ls -> l = [].
Proof.
  induction ls as [|x ls IH]; simpl; [intros _ l []|].
  intros H. apply app_eq_nil in H as [H1 H2]. intros l [<-|Hl]; auto.
Qed.

Lemma vowelHarmonyAnalysis_eq (text : jsstring) :
  vowelHarmonyAnalysis text
  = map (fun w => {| word := w; pattern := harmony_pattern w |})
      (filter has_syllable (split_ws text)).
Proof. unfold vowelHarmonyAnalysis. now rewrite word_fold. Qed.

Lemma filter_none {A} (p : A -> bool) (l : list A) :
  (forall x, In x l -> p x = false) -> filter p l = [].
Proof.
  induction l as [|x l IH]; intros H; [reflexivity|]. simpl.
  rewrite (H x (or_introl eq_refl)). apply IH. intros y Hy. apply H. now right.
Qed.

(** X3. On a text with no code unit in the syllable block (the empty text
    included) nothing is counted: [analyze] returns the all-zero result
    with empty tables and a balanced tendency, [findRhymes] and
    [vowelHarmonyAnalysis] return nothing, [fingerprint] returns [null],
    and [compare] with any other text returns [null]. *)
Theorem no_syllable_results (text : jsstring) :
  (forall c, In c text -> is_syllable_unit c = false) ->
  analyze text = empty_analysis
  /\ findRhymes text = []
  /\ vowelHarmonyAnalysis text = []
  /\ fingerprint text = None
  /\ (forall other, compare text other = None /\ compare other text = None).
Proof.
  intros H. apply unit_syllables_nil in H. rewrite <- decomposed_by_units in H.
  pose proof (analyze_no_syllables text H) as Ea.
  assert (Ef : fingerprint text = None)
    by (unfold fingerprint; rewrite Ea; reflexivity).
  split; [exact Ea|]. split; [unfold findRhymes; rewrite Ea; reflexivity|].
  split.
  - rewrite vowelHarmonyAnalysis_eq, filter_none; [reflexivity|].
    intros w Hw. unfold has_syllable.
    pose proof (words_syllables text) as Hc. rewrite H in Hc.
    rewrite (concat_nil_all _ Hc (decomposed_syllables w)
               (in_map decomposed_syllables _ w Hw)).
    reflexivity.
  - split; [exact Ef|]. intros other. unfold compare. rewrite Ef.
    split; [reflexivity|]. destruct (fingerprint other); reflexivity.
Qed.

Lemma no_syllable_results_witness :
  analyze [72; 105; 32; 49] = empty_analysis
  /\ findRhymes [72; 105; 32; 49] = []
  /\ vowelHarmonyAnalysis [72; 105; 32; 49] = []
  /\ fingerprint [72; 105; 32; 49] = None
  /\ (forall other, compare [72; 105; 32; 49] other = None
                    /\ compare other [72; 105; 32; 49] = None).
Proof.
  apply (no_syllable_results [72; 105; 32; 49]).
  intros c H. simpl in H.
  destruct H as [<-|[<-|[<-|[<-|[]]]]]; reflexivity.
Defined.

(** ** Totals of the frequency tables *)

Lemma count_str_pos (k : jsstring) (l : list jsstring) :
  In k l -> 1 <= count_str k l.
Proof.
  unfold count_str. intros H.
  assert (Hin : In k (filter (str_eqb k) l))
    by (apply filter_In; split; [exact H | apply str_eqb_refl]).
  destruct (filter (str_eqb k) l); [contradiction|].
  unfold len. simpl length. lia.
Qed.

Lemma table_totals (freq : jsobj Z) (syms : list jsstring) :
  sorted_by_count_then_first_seen freq syms ->
  Zsum (map snd freq) = len syms
  /\ (forall k n, In (k, n) freq -> 1 <= n /\ In k syms).
Proof.
  intros (_ & Hnd & Hin & Hcnt & _).
  assert (Hval : forall k n, In (k, n) freq -> n = count_str k syms).
  { intros k n H. apply (obj_get_In k n freq Hnd) in H.
    rewrite <- Hcnt. unfold count_or_0. now rewrite H. }
  split.
  - rewrite <- (Zsum_count (map fst freq) syms Hnd)
      by (intros s Hs; now apply Hin).
    rewrite map_map. f_equal. apply map_ext_in. intros [k n] H.
    now apply Hval.
  - intros k n H. assert (Hk : In k syms).
    { apply Hin. change k with (fst (k, n)). now apply in_map. }
    split; [|exact Hk]. rewrite (Hval k n H). now apply count_str_pos.
Qed.

Lemma jong_syms_in_table (text : jsstring) (s : jsstring) :
  In s (jong_syms (decomposed_syllables text)) -> In s JONGSEONG /\ s <> [].
Proof.
  unfold jong_syms. intros H. apply in_map_iff in H as (d & <- & Hd).
  apply filter_In in Hd as [Hd Ht].
  apply decomposed_in_range in Hd as (c & rest & Hc & Hd).
  destruct (decompose_fields c rest Hc)
    as (d' & sc & sj & Hd' & _ & _ & _ & _ & _ & _ & _ & _ & _ & _ & Hz & Hnz).
  rewrite Hd in Hd'. injection Hd' as <-.
  destruct (Z.eq_dec (jongIdx d) 0) as [E|E].
  - rewrite (Hz E) in Ht. discriminate.
  - destruct (Hnz E) as (sg & Eg & Hne & Ng). rewrite Eg. cbn [to_str].
    split; [eapply nth_error_In; exact Ng | exact Hne].
Qed.

(** X4. The counts of each frequency table of [analyze] add up: those of
    the initials and of the medials to [totalSyllables], those of the
    finals to [withJong].  Every entry has a count of at least 1, and its
    key is a symbol of the table of initials, medials or (non-empty)
    finals. *)
Theorem analyze_freq_totals (text : jsstring) :
  let r := analyze text in
  Zsum (map snd (choFreq r)) = totalSyllables r
  /\ Zsum (map snd (jungFreq r)) = totalSyllables r
  /\ Zsum (map snd (jongFreq r)) = withJong r
  /\ (forall k n, In (k, n) (choFreq r) -> 1 <= n /\ In k CHOSEONG)
  /\ (forall k n, In (k, n) (jungFreq r) -> 1 <= n /\ In k JUNGSEONG)
  /\ (forall k n, In (k, n) (jongFreq r) ->
                  1 <= n /\ In k JONGSEONG /\ k <> []).
Proof.
  cbv zeta. destruct (analyze_tables_ok text) as (Hc & Hj & Hg).
  destruct (analyze_counts text) as (_ & _ & _ & Hw & Ht).
  apply table_totals in Hc as [Sc Kc]. apply table_totals in Hj as [Sj Kj].
  apply table_totals in Hg as [Sg Kg].
  rewrite Sc, Sj, Sg, Ht, Hw. unfold cho_syms, jung_syms, jong_syms.
  rewrite !len_map.
  repeat split; try reflexivity.
  - now apply (Kc k n).
  - apply (cho_syms_in_table text). now apply (Kc k n).
  - now apply (Kj k n).
  - apply (jung_syms_in_table text). now apply (Kj k n).
  - now apply (Kg k n).
  - apply (jong_syms_in_table text). now apply (Kg k n).
  - apply (jong_syms_in_table text k). now apply (Kg k n).
Qed.

(** ** Patterns of the words against the text *)

Lemma harmony_pattern_units (w : jsstring) :
  harmony_pattern w = concat (map harmony_symbol (unit_syllables w)).
Proof. unfold harmony_pattern. now rewrite decomposed_by_units. Qed.

Lemma harmony_pattern_no_syllable (w : jsstring) :
  has_syllable w = false -> harmony_pattern w = [].
Proof.
  unfold has_syllable, harmony_pattern. intros H. apply Z.ltb_ge in H.
  destruct (decomposed_syllables w); [reflexivity|].
  unfold len in H. simpl length in H. lia.
Qed.

Lemma concat_patterns (ws : list jsstring) :
  concat (map harmony_pattern (filter has_syllable ws))
  = concat (map harmony_symbol (concat (map decomposed_syllables ws))).
Proof.
  induction ws as [|w ws IH]; [reflexivity|].
  cbn [filter map concat]. rewrite map_app, concat_app, <- IH.
  fold (harmony_pattern w).
  destruct (has_syllable w) eqn:E; cbn [map concat]; [reflexivity|].
  now rewrite (harmony_pattern_no_syllable w E).
Qed.

Lemma split_ws_words (text w : jsstring) (c : Z) :
  In w (split_ws text) -> In c w -> is_ws c = false /\ In c text.
Proof.
  intros Hw Hc.
  assert (H : In c (concat (split_ws text)))
    by (apply in_concat; exists w; auto).
  rewrite split_ws_concat in H. apply filter_In in H as [H1 H2].
  split; [|exact H1]. now destruct (is_ws c).
Qed.

Lemma patterns_concat (text : jsstring) :
  concat (map pattern (vowelHarmonyAnalysis text)) = harmony_pattern text.
Proof.
  rewrite vowelHarmonyAnalysis_eq, map_map. cbn [pattern].
  now rewrite concat_patterns, words_syllables.
Qed.

(** X5. The patterns of [vowelHarmonyAnalysis], put one after the other,
    are the harmony symbols of all the syllables of the text, in order:
    splitting into words loses no syllable, and the total number of
    symbols is [totalSyllables] of [analyze].  Every reported word is
    non-empty and free of white space. *)
Theorem harmony_patterns_cover_text (text : jsstring) :
  let r := vowelHarmonyAnalysis text in
  concat (map pattern r) = harmony_pattern text
  /\ len (concat (map pattern r)) = totalSyllables (analyze text)
  /\ (forall e, In e r ->
        word e <> [] /\ forall c, In c (word e) -> is_ws c = false /\ In c text).
Proof.
  cbv zeta. rewrite patterns_concat.
  split; [reflexivity|]. split.
  - destruct (analyze_counts text) as (_ & _ & _ & _ & Ht). rewrite Ht.
    apply harmony_pattern_length.
  - intros e He. rewrite vowelHarmonyAnalysis_eq in He.
    apply in_map_iff in He as (w & <- & Hw).
    apply filter_In in Hw as [Hw Hs]. cbn [word]. split.
    + intros ->. discriminate.
    + intros c Hc. now apply (split_ws_words text w c).
Qed.

Lemma count_unit_app (c : Z) (s s' : jsstring) :
  count_unit c (s ++ s') = count_unit c s + count_unit c s'.
Proof. unfold count_unit. now rewrite filter_app, len_app. Qed.

Lemma pushed_symbol_counts (d : Decomposed) :
  count_unit 43 (pushed_symbol d) = len (filter is_bright [d])
  /\ count_unit 45 (pushed_symbol d) = len (filter is_dark [d])
  /\ count_unit 0xB7 (pushed_symbol d) = len (filter is_neutral [d]).
Proof.
  unfold pushed_symbol, is_dark, is_neutral, is_bright. cbn [filter].
  destruct (includes VOWEL_TYPES_bright (jung d));
    destruct (includes VOWEL_TYPES_dark (jung d)); cbn [negb andb];
    repeat split; reflexivity.
Qed.

Lemma symbols_counts (text : jsstring) (ds : list Decomposed) :
  (forall d, In d ds -> In d (decomposed_syllables text)) ->
  let p := concat (map harmony_symbol ds) in
  count_unit 43 p = len (filter is_bright ds)
  /\ count_unit 45 p = len (filter is_dark ds)
  /\ count_unit 0xB7 p = len (filter is_neutral ds).
Proof.
  cbv zeta. induction ds as [|d ds IH]; intros Hsub.
  - repeat split; reflexivity.
  - destruct (IH (fun x Hx => Hsub x (or_intror Hx))) as (I1 & I2 & I3).
    destruct (harmony_symbol_pushed text d (Hsub d (or_introl eq_refl)))
      as [E _].
    destruct (pushed_symbol_counts d) as (P1 & P2 & P3).
    cbn [map concat]. rewrite <- E, !count_unit_app, I1, I2, I3, P1, P2, P3.
    change (d :: ds) with ([d] ++ ds). rewrite !len_filter_app.
    repeat split; reflexivity.
Qed.

(** X6. Over all the patterns of [vowelHarmonyAnalysis], the symbol [+]
    occurs as often as [analyze] counts bright medials, [-] as often as
    dark ones and the middle dot as often as neutral ones. *)
Theorem harmony_symbol_counts (text : jsstring) :
  let p := concat (map pattern (vowelHarmonyAnalysis text)) in
  let vh := vowelHarmony (analyze text) in
  count_unit 43 p = bright vh
  /\ count_unit 45 p = dark vh
  /\ count_unit 0xB7 p = neutral vh.
Proof.
  cbv zeta. rewrite patterns_concat.
  destruct (analyze_counts text) as (Hb & Hd & Hn & _). rewrite Hb, Hd, Hn.
  apply (symbols_counts text). auto.
Qed.

(** ** Structural pattern encoder *)

Lemma string_iter_cons2 (c c2 : Z) (t : jsstring) :
  string_iter (c :: c2 :: t)
  = if is_high_surrogate c && is_low_surrogate c2
    then [c; c2] :: string_iter t
    else [c] :: string_iter (c2 :: t).
Proof. reflexivity. Qed.

Lemma string_iter_code_points (s : jsstring) :
  Forall code_point (string_iter s).
Proof.
  assert (H : forall n s, (length s <= n)%nat -> Forall code_point (string_iter s)).
  { induction n as [|n IH]; intros t Ht.
    - destruct t; [constructor | simpl in Ht; lia].
    - destruct t as [|c [|c2 t]]; [constructor | |].
      + constructor; [left; now exists c | constructor].
      + rewrite string_iter_cons2.
        destruct (is_high_surrogate c && is_low_surrogate c2) eqn:E.
        * apply andb_true_iff in E as [E1 E2]. constructor.
          -- right. now exists c, c2.
          -- apply IH. simpl in Ht. lia.
        * constructor; [left; now exists c|]. apply (IH (c2 :: t)).
          simpl in *. lia. }
  apply (H (length s)). lia.
Qed.

Lemma string_iter_concat (s : jsstring) : concat (string_iter s) = s.
Proof.
  assert (H : forall n s, (length s <= n)%nat -> concat (string_iter s) = s).
  { induction n as [|n IH]; intros t Ht.
    - destruct t; [reflexivity | simpl in Ht; lia].
    - destruct t as [|c [|c2 t]]; [reflexivity | reflexivity |].
      rewrite string_iter_cons2.
      destruct (is_high_surrogate c && is_low_surrogate c2).
      + cbn [concat app]. rewrite IH by (simpl in Ht; lia). reflexivity.
      + cbn [concat app]. rewrite (IH (c2 :: t)) by (simpl in *; lia).
        reflexivity. }
  apply (H (length s)). lia.
Qed.

Lemma surrogate_not_ws (c : Z) :
  is_high_surrogate c = true \/ is_low_surrogate c = true -> is_ws c = false.
Proof.
  unfold is_high_surrogate, is_low_surrogate, is_ws. intros H.
  assert (Hc : 0xD800 <= c <= 0xDFFF).
  { destruct H as [H|H]; apply andb_true_iff in H as [H1 H2];
      apply Z.leb_le in H1, H2; lia. }
  repeat (apply orb_false_iff; split);
    try (apply andb_false_iff; right; apply Z.leb_gt; lia);
    apply Z.eqb_neq; lia.
Qed.

Lemma trim_unit (c : Z) : trim [c] = if is_ws c then [] else [c].
Proof. unfold trim. simpl. destruct (is_ws c) eqn:E; simpl; now rewrite ?E. Qed.

Lemma trim_pair (c c2 : Z) :
  is_ws c = false -> is_ws c2 = false -> trim [c; c2] = [c; c2].
Proof. intros H1 H2. unfold trim. simpl. rewrite H1. simpl. rewrite H2. reflexivity. Qed.

Lemma structural_fold (chars : list jsstring) (acc : list jsstring) :
  fold_left structural_step chars acc = acc ++ flat_map structure_token chars.
Proof.
  revert acc; induction chars as [|ch chars IH]; intros acc;
    cbn [fold_left flat_map].
  - now rewrite app_nil_r.
  - rewrite IH. unfold structural_step, structure_token.
    destruct (decompose ch) as [d|].
    + now rewrite <- app_assoc.
    + destruct (truthy (JStr (trim ch))); [now rewrite <- app_assoc | reflexivity].
Qed.

Lemma structuralPattern_eq (text : jsstring) :
  structuralPattern text = join [32] (structure_tokens text).
Proof. unfold structuralPattern. now rewrite structural_fold. Qed.

Lemma token_solid (ch t : jsstring) :
  code_point ch -> In t (structure_token ch) -> solid t.
Proof.
  unfold structure_token. intros Hch Ht.
  destruct (decompose ch) as [d|].
  - destruct Ht as [<-|[]]. destruct (hasJong d); split; try discriminate;
      intros c Hc; simpl in Hc; intuition (subst; reflexivity).
  - destruct (truthy (JStr (trim ch))) eqn:E; [|contradiction].
    destruct Ht as [<-|[]].
    destruct Hch as [(c & ->) | (c & c2 & -> & H1 & H2)].
    + rewrite trim_unit in E. destruct (is_ws c) eqn:Ec; [discriminate|].
      split; [discriminate|]. intros x [<-|[]]. exact Ec.
    + split; [discriminate|]. intros x [<-|[<-|[]]];
        apply surrogate_not_ws; auto.
Qed.

Lemma tokens_solid (text : jsstring) :
  Forall solid (structure_tokens text).
Proof.
  unfold structure_tokens. apply Forall_forall. intros t Ht.
  apply in_flat_map in Ht as (ch & Hch & Ht).
  pose proof (string_iter_code_points text) as H.
  rewrite Forall_forall in H. eapply token_solid; eauto.
Qed.

Lemma split_ws_solid (w : jsstring) :
  (forall c, In c w -> is_ws c = false) -> split_ws w = [w].
Proof.
  induction w as [|c w IH]; intros H; [reflexivity|].
  cbn [split_ws]. rewrite (H c (or_introl eq_refl)).
  rewrite IH by (intros x Hx; apply H; now right). reflexivity.
Qed.

Lemma split_ws_after_token (w rest : jsstring) (c2 : Z) :
  solid w -> is_ws c2 = false ->
  split_ws (w ++ 32 :: c2 :: rest) = w :: split_ws (c2 :: rest).
Proof.
  intros [Hne Hw] Hc2. induction w as [|c w IH]; [congruence|].
  assert (Hc : is_ws c = false) by (apply Hw; now left).
  destruct w as [|c' w].
  - cbn [app split_ws]. rewrite Hc.
    change (is_ws 32) with true. cbv iota. rewrite Hc2. reflexivity.
  - change ((c :: c' :: w) ++ 32 :: c2 :: rest)
      with (c :: ((c' :: w) ++ 32 :: c2 :: rest)).
    cbn [split_ws]. rewrite Hc. cbv iota.
    rewrite IH; [reflexivity | discriminate |].
    intros x Hx. apply Hw. now right.
Qed.

Lemma join_cons2 (sep x y : jsstring) (l : list jsstring) :
  join sep (x :: y :: l) = x ++ sep ++ join sep (y :: l).
Proof. reflexivity. Qed.

Lemma join_head (t : jsstring) (ts : list jsstring) :
  solid t -> exists c rest, join [32] (t :: ts) = c :: rest /\ is_ws c = false.
Proof.
  intros [Hne Hw]. destruct t as [|c t]; [congruence|].
  assert (Hc : is_ws c = false) by (apply Hw; now left).
  destruct ts as [|t2 ts].
  - exists c, t. auto.
  - rewrite join_cons2. exists c, (t ++ [32] ++ join [32] (t2 :: ts)). auto.
Qed.

Lemma split_ws_join (ts : list jsstring) :
  Forall solid ts -> ts <> [] -> split_ws (join [32] ts) = ts.
Proof.
  induction ts as [|t ts IH]; intros Hs Hne; [congruence|].
  inversion Hs as [|? ? Ht Hts]; subst.
  destruct ts as [|t2 ts].
  - apply split_ws_solid. apply Ht.
  - rewrite join_cons2. inversion Hts as [|? ? Ht2 _]; subst.
    destruct (join_head t2 ts Ht2) as (c & rest & E & Hc).
    rewrite E. cbn [app]. rewrite (split_ws_after_token t rest c Ht Hc).
    rewrite <- E. f_equal. apply IH; [exact Hts | discriminate].
Qed.

Lemma join_nil_iff (ts : list jsstring) :
  Forall solid ts -> (join [32] ts = [] <-> ts = []).
Proof.
  intros Hs. split; [|intros ->; reflexivity].
  destruct ts as [|t ts]; [reflexivity|]. intros H.
  inversion Hs as [|? ? Ht _]; subst.
  destruct (join_head t ts Ht) as (c & rest & E & _). congruence.
Qed.

Lemma structure_token_blank (ch : jsstring) :
  code_point ch ->
  (structure_token ch = [] <-> forall c, In c ch -> is_ws c = true).
Proof.
  intros Hch. unfold structure_token.
  destruct Hch as [(c & ->) | (c & c2 & -> & H1 & H2)].
  - destruct (decompose [c]) as [d|] eqn:Ed.
    + split; [discriminate|]. intros H. exfalso.
      assert (Hs : is_syllable_unit c = true).
      { destruct (is_syllable_unit c) eqn:E; [reflexivity|].
        apply decompose_unit in E. congruence. }
      rewrite (ws_not_syllable c (H c (or_introl eq_refl))) in Hs. discriminate.
    + rewrite trim_unit. destruct (is_ws c) eqn:Ec; simpl.
      * split; [|reflexivity]. intros _ x [<-|[]]. exact Ec.
      * split; [discriminate|]. intros H.
        rewrite (H c (or_introl eq_refl)) in Ec. discriminate.
  - rewrite (decompose_surrogate_pair c c2 H1).
    rewrite trim_pair by (apply surrogate_not_ws; auto). simpl.
    split; [discriminate|]. intros H.
    pose proof (H c (or_introl eq_refl)) as Hc.
    rewrite (surrogate_not_ws c (or_introl H1)) in Hc. discriminate.
Qed.

(** X7. [structuralPattern] joins its tokens (CVC or CV for a syllable,
    the character itself for any other non-blank character) with single
    spaces, and no token is empty or holds white space: splitting the
    result at white space gives the tokens back.  The result is the empty
    string exactly when every code unit of the text is white space. *)
Theorem structuralPattern_tokens (text : jsstring) :
  let ts := structure_tokens text in
  structuralPattern text = join [32] ts
  /\ Forall solid ts
  /\ (ts <> [] -> split_ws (structuralPattern text) = ts)
  /\ (structuralPattern text = [] <-> forall c, In c text -> is_ws c = true).
Proof.
  cbv zeta. pose proof (tokens_solid text) as Hs.
  rewrite structuralPattern_eq.
  split; [reflexivity|]. split; [exact Hs|].
  split; [now apply split_ws_join|].
  rewrite (join_nil_iff _ Hs). unfold structure_tokens.
  rewrite flat_map_nil.
  pose proof (string_iter_code_points text) as Hcp.
  rewrite Forall_forall in Hcp. split.
  - intros H c Hc. rewrite <- (string_iter_concat text) in Hc.
    apply in_concat in Hc as (ch & Hch & Hc).
    apply (proj1 (structure_token_blank ch (Hcp ch Hch)) (H ch Hch) c Hc).
  - intros H ch Hch. apply (structure_token_blank ch (Hcp ch Hch)).
    intros c Hc. apply H. rewrite <- (string_iter_concat text).
    apply in_concat. now exists ch.
Qed.

Lemma hasJong_has_final (ch : jsstring) (d : Decomposed) :
  decompose ch = Some d -> hasJong d = has_final d.
Proof.
  intros Hd.
  assert (Hs : isSyllable ch = true) by (apply decompose_some_iff; eauto).
  destruct ch as [|c rest]; [discriminate|].
  rewrite isSyllable_cons in Hs. apply andb_true_iff in Hs as [H1 H2].
  apply Z.leb_le in H1, H2.
  destruct (decompose_fields c rest (conj H1 H2))
    as (d' & sc & sj & Hd' & _ & _ & _ & _ & _ & _ & _ & _ & _ & Hh & Hz & Hnz).
  rewrite Hd in Hd'. injection Hd' as <-. unfold has_final. rewrite Hh.
  destruct (Z.eq_dec (jongIdx d) 0) as [E|E].
  - rewrite (Hz E), E. reflexivity.
  - destruct (Hnz E) as (sg & Eg & Hne & _). rewrite Eg.
    apply Z.eqb_neq in E. rewrite E. destruct sg; [congruence | reflexivity].
Qed.

Lemma token_counts (ch : jsstring) :
  code_point ch ->
  let ds := match decompose ch with Some d => [d] | None => [] end in
  len (filter (str_eqb str_CVC) (structure_token ch)) = len (filter has_final ds)
  /\ len (filter (str_eqb str_CV) (structure_token ch))
     = len (filter (fun d => negb (has_final d)) ds).
Proof.
  intros Hch. cbv zeta. unfold structure_token.
  destruct (decompose ch) as [d|] eqn:Ed.
  - rewrite (hasJong_has_final ch d Ed). cbn [filter].
    destruct (has_final d); split; reflexivity.
  - destruct (truthy (JStr (trim ch))); [|split; reflexivity].
    destruct Hch as [(c & ->) | (c & c2 & -> & H1 & _)]; cbn [filter].
    + unfold str_CVC, str_CV. cbn [str_eqb]. rewrite !andb_false_r.
      split; reflexivity.
    + unfold str_CVC, str_CV. cbn [str_eqb]. rewrite !andb_false_r.
      replace (67 =? c) with false; [split; reflexivity|].
      symmetry. apply Z.eqb_neq. unfold is_high_surrogate in H1.
      apply andb_true_iff in H1 as [H1 _]. apply Z.leb_le in H1. lia.
Qed.

Lemma len_filter_split {A} (p : A -> bool) (l : list A) :
  len (filter p l) + len (filter (fun x => negb (p x)) l) = len l.
Proof.
  induction l as [|x l IH]; [reflexivity|]. cbn [filter].
  change (x :: l) with ([x] ++ l). rewrite (len_app [x] l).
  destruct (p x); cbn [negb];
    [change (x :: filter p l) with ([x] ++ filter p l)
    |change (x :: filter (fun x => negb (p x)) l)
       with ([x] ++ filter (fun x => negb (p x)) l)];
    rewrite len_app; change (len [x]) with 1; lia.
Qed.

Lemma tokens_vs_finals (chars : list jsstring) :
  Forall code_point chars ->
  let ds := flat_map (fun ch => match decompose ch with
                                | Some d => [d] | None => [] end) chars in
  let ts := flat_map structure_token chars in
  len (filter (str_eqb str_CVC) ts) = len (filter has_final ds)
  /\ len (filter (str_eqb str_CV) ts)
     = len (filter (fun d => negb (has_final d)) ds).
Proof.
  cbv zeta. induction chars as [|ch chars IH]; intros Hcp;
    [split; reflexivity|].
  inversion Hcp as [|? ? Hch Hcp']; subst. cbn [flat_map].
  rewrite !len_filter_app. destruct (IH Hcp') as [IH1 IH2].
  destruct (token_counts ch Hch) as [T1 T2]. cbv zeta in T1, T2.
  rewrite IH1, IH2, T1, T2. split; reflexivity.
Qed.

(** X8. In the tokens of [structuralPattern] the token CVC occurs
    [withJong] times and the token CV occurs [withoutJong] times, as
    [analyze] counts them on the same text: a character that is not a
    syllable never yields one of these two tokens. *)
Theorem structuralPattern_counts (text : jsstring) :
  let ts := structure_tokens text in
  len (filter (str_eqb str_CVC) ts) = withJong (analyze text)
  /\ len (filter (str_eqb str_CV) ts) = withoutJong (analyze text).
Proof.
  cbv zeta. destruct (analyze_counts text) as (_ & _ & _ & Hw & Ht).
  assert (Ew : withoutJong (analyze text)
               = totalSyllables (analyze text) - withJong (analyze text))
    by reflexivity.
  rewrite Ew, Hw, Ht.
  pose proof (len_filter_split has_final (decomposed_syllables text)) as Hsplit.
  replace (len (decomposed_syllables text)
           - len (filter has_final (decomposed_syllables text)))
    with (len (filter (fun d => negb (has_final d)) (decomposed_syllables text)))
    by lia.
  apply (tokens_vs_finals (string_iter text)), string_iter_code_points.
Qed.

(** ** Lines of a text *)

Lemma line_count_fold (chars : list jsstring) (n : Z) :
  fold_left (fun count ch => if isSyllable ch then count + 1 else count) chars n
  = n + len (flat_map (fun ch => match decompose ch with
                                 | Some d => [d] | None => [] end) chars).
Proof.
  revert n; induction chars as [|ch chars IH]; intros n; cbn [fold_left flat_map].
  - change (@len Decomposed []) with 0. lia.
  - rewrite IH, len_app. destruct (isSyllable ch) eqn:E.
    + apply decompose_some_iff in E as (d & ->). change (len [d]) with 1. lia.
    + destruct (decompose ch) as [d|] eqn:Ed.
      * assert (isSyllable ch = true) by (apply decompose_some_iff; eauto).
        congruence.
      * change (@len Decomposed []) with 0. lia.
Qed.

Lemma line_count_eq (line : jsstring) :
  line_count line = len (decomposed_syllables line).
Proof. unfold line_count. now rewrite line_count_fold. Qed.

Lemma drop_ws_nil (s : jsstring) :
  drop_ws s = [] -> forall c, In c s -> is_ws c = true.
Proof.
  induction s as [|x s IH]; simpl; [intros _ c []|].
  destruct (is_ws x) eqn:E; [|discriminate].
  intros H c [<-|Hc]; auto.
Qed.

Lemma drop_ws_head (s r : jsstring) (c : Z) :
  drop_ws s = c :: r -> is_ws c = false.
Proof.
  induction s as [|x s IH]; simpl; [discriminate|].
  destruct (is_ws x) eqn:E; [exact IH|]. intros H. injection H as <- _. exact E.
Qed.

Lemma trim_nil (s : jsstring) :
  trim s = [] -> forall c, In c s -> is_ws c = true.
Proof.
  unfold trim. intros H.
  assert (H1 : drop_ws (rev (drop_ws s)) = []).
  { destruct (drop_ws (rev (drop_ws s))) as [|x l]; [reflexivity|].
    simpl in H. apply app_eq_nil in H as [_ H]. discriminate. }
  destruct (drop_ws s) as [|c r] eqn:E; [now apply drop_ws_nil|].
  pose proof (drop_ws_head s r c E) as Hc.
  pose proof (drop_ws_nil _ H1 c) as Hc'.
  rewrite Hc' in Hc; [discriminate|]. apply in_rev. rewrite rev_involutive.
  now left.
Qed.

Lemma blank_no_syllable (l : jsstring) :
  truthy (JStr (trim l)) = false -> has_syllable l = false.
Proof.
  intros H. assert (Ht : trim l = [])
    by (destruct (trim l); [reflexivity | discriminate]).
  unfold has_syllable. rewrite decomposed_by_units.
  replace (unit_syllables l) with (@nil Decomposed); [reflexivity|].
  symmetry. apply unit_syllables_nil. intros c Hc.
  apply ws_not_syllable. now apply (trim_nil l Ht).
Qed.

Lemma filter_filter_implied {A} (p q : A -> bool) (l : list A) :
  (forall x, q x = true -> p x = true) ->
  filter q (filter p l) = filter q l.
Proof.
  intros H. induction l as [|x l IH]; [reflexivity|]. cbn [filter].
  destruct (p x) eqn:Ep; cbn [filter].
  - now rewrite IH.
  - destruct (q x) eqn:Eq; [|exact IH]. apply H in Eq. congruence.
Qed.

Lemma filter_map_swap {A B} (f : A -> B) (p : B -> bool) (l : list A) :
  filter p (map f l) = map f (filter (fun x => p (f x)) l).
Proof.
  induction l as [|x l IH]; [reflexivity|]. cbn [map filter].
  destruct (p (f x)); cbn [map]; now rewrite IH.
Qed.

(** The line lengths of [fingerprint] are the syllable counts of the
    lines that hold a syllable. *)
Lemma lineLengths_eq (text : jsstring) :
  lineLengths_of text
  = map line_count (filter has_syllable (split_lines text)).
Proof.
  unfold lineLengths_of. rewrite filter_map_swap. f_equal.
  rewrite (filter_ext (fun x => 0 <? line_count x) has_syllable)
    by (intros l; unfold has_syllable; now rewrite line_count_eq).
  apply filter_filter_implied. intros l Hl.
  destruct (truthy (JStr (trim l))) eqn:E; [reflexivity|].
  apply blank_no_syllable in E. congruence.
Qed.

Lemma split_lines_syllables (text : jsstring) :
  concat (map unit_syllables (split_lines text)) = unit_syllables text.
Proof.
  induction text as [|c text IH]; [reflexivity|]. cbn [split_lines].
  destruct (c =? 10) eqn:E.
  - apply Z.eqb_eq in E. subst c. cbn [map concat]. rewrite IH. reflexivity.
  - change (unit_syllables (c :: text))
      with ((match decompose [c] with Some d => [d] | None => [] end)
            ++ unit_syllables text).
    rewrite <- IH. destruct (split_lines text) as [|w ws]; cbn [map concat].
    + unfold unit_syllables. cbn [flat_map concat]. now rewrite !app_nil_r.
    + change (unit_syllables (c :: w))
        with ((match decompose [c] with Some d => [d] | None => [] end)
              ++ unit_syllables w).
      now rewrite <- app_assoc.
Qed.

Lemma Zsum_lens {A} (ls : list (list A)) :
  Zsum (map (fun l => len l) ls) = len (concat ls).
Proof.
  induction ls as [|l ls IH]; [reflexivity|].
  cbn [map concat]. rewrite len_app, <- IH. reflexivity.
Qed.

Lemma Zsum_filter_zero {A} (f : A -> Z) (p : A -> bool) (l : list A) :
  (forall x, p x = false -> f x = 0) ->
  Zsum (map f (filter p l)) = Zsum (map f l).
Proof.
  intros H. induction l as [|x l IH]; [reflexivity|]. cbn [filter map].
  destruct (p x) eqn:E; cbn [map Zsum fold_right];
    fold (Zsum (map f (filter p l))); fold (Zsum (map f l)); rewrite IH;
    [reflexivity | rewrite (H x E); lia].
Qed.

Lemma lineLengths_sum (text : jsstring) :
  Zsum (lineLengths_of text) = len (decomposed_syllables text).
Proof.
  rewrite lineLengths_eq, Zsum_filter_zero.
  - rewrite (map_ext line_count (fun l => len (unit_syllables l)))
      by (intros l; now rewrite line_count_eq, decomposed_by_units).
    rewrite <- (map_map unit_syllables (fun ds => len ds)), Zsum_lens.
    now rewrite split_lines_syllables, decomposed_by_units.
  - intros l Hl. rewrite line_count_eq. unfold has_syllable in Hl.
    apply Z.ltb_ge in Hl. pose proof (len_nonneg (decomposed_syllables l)). lia.
Qed.

Lemma fold_add_Zsum (l : list Z) (a : Z) : fold_left Z.add l a = a + Zsum l.
Proof.
  revert a; induction l as [|x l IH]; intros a; cbn [fold_left Zsum fold_right].
  - lia.
  - rewrite IH. fold (Zsum l). lia.
Qed.

Lemma lineLengths_positive (text : jsstring) (n : Z) :
  In n (lineLengths_of text) -> 1 <= n.
Proof.
  unfold lineLengths_of. intros H. apply filter_In in H as [_ H].
  apply Z.ltb_lt in H. lia.
Qed.

(** ** Rhyme groups of equal size *)

Lemma keys_first_seen_old (keys syms : list jsstring) (k : jsstring) :
  keys_first_seen keys syms -> In k keys -> keys_first_seen keys (syms ++ [k]).
Proof.
  intros [Hin Hord] Hk. split.
  - intros x. rewrite in_app_iff, <- Hin. simpl. split; [tauto|].
    intros [H|[<-|[]]]; assumption.
  - intros k1 k2 H. now apply first_before_snoc, Hord.
Qed.

Lemma keys_first_seen_new (keys syms : list jsstring) (k : jsstring) :
  keys_first_seen keys syms -> ~ In k keys ->
  keys_first_seen (keys ++ [k]) (syms ++ [k]).
Proof.
  intros [Hin Hord] Hk. split.
  - intros x. rewrite !in_app_iff, Hin. tauto.
  - intros k1 k2 H. apply before_app in H.
    destruct H as [H | [H | [H1 [<- | []]]]].
    + now apply first_before_snoc, Hord.
    + apply before_cons in H. destruct H as [[_ []] | H].
      now apply before_nil in H.
    + assert (Hne : k1 <> k) by congruence.
      apply Hin in H1. apply in_split in H1 as (l1 & l2 & E).
      exists l1, (l2 ++ [k]). split; [rewrite E, <- app_assoc; reflexivity|].
      split; [|exact Hne]. intros Hl. apply Hk, Hin. rewrite E.
      apply in_or_app. now left.
Qed.

Lemma rhyme_step_keys (endings : jsobj (list jsstring)) (d : Decomposed) :
  map fst (rhyme_step endings d)
  = if in_dec str_eq_dec (ending_key d) (map fst endings)
    then map fst endings else map fst endings ++ [ending_key d].
Proof.
  unfold rhyme_step. set (key := ending_key d).
  destruct (obj_get key endings) as [v|] eqn:E.
  - rewrite E. pose proof (obj_get_Some_key _ _ _ E) as Hk.
    rewrite obj_set_keys_old by exact Hk.
    destruct (in_dec str_eq_dec key (map fst endings)); [reflexivity | contradiction].
  - apply obj_get_None in E.
    rewrite (obj_get_set key key), str_eqb_refl.
    rewrite obj_set_keys_old;
      rewrite (obj_set_new key [] endings E), map_app;
      [|apply in_or_app; right; now left].
    destruct (in_dec str_eq_dec key (map fst endings)); [contradiction | reflexivity].
Qed.

Lemma rhyme_keys_fold (ds0 ds : list Decomposed)
      (endings : jsobj (list jsstring)) :
  keys_first_seen (map fst endings) (map ending_key ds0) ->
  keys_first_seen (map fst (fold_left rhyme_step ds endings))
    (map ending_key (ds0 ++ ds)).
Proof.
  revert ds0 endings; induction ds as [|d ds IH]; intros ds0 endings H;
    cbn [fold_left].
  - now rewrite app_nil_r.
  - replace (ds0 ++ d :: ds) with ((ds0 ++ [d]) ++ ds)
      by now rewrite <- app_assoc.
    apply IH. rewrite rhyme_step_keys, map_app. cbn [map].
    destruct (in_dec str_eq_dec (ending_key d) (map fst endings)).
    + now apply keys_first_seen_old.
    + now apply keys_first_seen_new.
Qed.

Lemma before_filter {A} (p : A -> bool) (l : list A) (a b : A) :
  before a b (filter p l) -> before a b l.
Proof.
  induction l as [|x l IH]; cbn [filter]; [auto|].
  rewrite before_cons. destruct (p x).
  - rewrite before_cons. intros [[-> H]|H]; [left | right; auto].
    split; [reflexivity|]. apply filter_In in H. tauto.
  - auto.
Qed.

(** X9. Rhyme groups of the same size appear in [findRhymes] in the order
    in which their ending keys first appear in the text. *)
Theorem findRhymes_ties (text : jsstring) :
  equal_groups_by_first_seen (findRhymes text)
    (map ending_key (decomposed_syllables text)).
Proof.
  unfold findRhymes. rewrite analyze_syllables.
  set (ds := decomposed_syllables text).
  set (endings := fold_left rhyme_step ds []).
  assert (Hg : groups_ok endings ds).
  { apply (groups_ok_fold [] ds []). split; [constructor | reflexivity]. }
  destruct Hg as (Hnd & _).
  assert (Hk : keys_first_seen (map fst endings) (map ending_key ds)).
  { apply (rhyme_keys_fold [] ds []). split; [reflexivity|].
    intros k1 k2 H. now apply before_nil in H. }
  rewrite fromEntries_id
    by (apply array_sort_keys_NoDup, filter_keys_NoDup; exact Hnd).
  intros k1 v1 k2 v2 H Hlen.
  apply array_sort_stable in H. cbn [snd] in H.
  destruct H as [H|H]; [|lia].
  apply before_filter in H. apply (before_map fst) in H.
  now apply Hk.
Qed.

(** ** The structure section of the command line *)

Lemma cli_count_eq (clean : jsstring) :
  cli_count clean = len (decomposed_syllables clean).
Proof.
  unfold cli_count, decomposed_syllables.
  induction (string_iter clean) as [|ch chars IH]; [reflexivity|].
  cbn [filter flat_map]. rewrite len_app, <- IH.
  change (match charCodeAt0 ch with
          | Some c => (0xAC00 <=? c) && (c <=? 0xD7A3)
          | None => false
          end) with (isSyllable ch).
  destruct (isSyllable ch) eqn:E.
  - apply decompose_some_iff in E as (d & ->).
    change (ch :: filter _ chars) with ([ch] ++ filter
      (fun ch => match charCodeAt0 ch with
                 | Some c => (0xAC00 <=? c) && (c <=? 0xD7A3)
                 | None => false
                 end) chars).
    rewrite len_app. reflexivity.
  - destruct (decompose ch) as [d|] eqn:Ed; [|reflexivity].
    assert (isSyllable ch = true) by (apply decompose_some_iff; eauto).
    congruence.
Qed.

Lemma clean_syllables (line : jsstring) :
  decomposed_syllables (cli_clean line) = decomposed_syllables line.
Proof.
  rewrite !decomposed_by_units. apply unit_syllables_no_ws.
Qed.

Lemma nonblank_lines_total (text : jsstring) :
  Zsum (map (fun l => len (decomposed_syllables l))
          (filter (fun l => truthy (JStr (trim l))) (split_lines text)))
  = len (decomposed_syllables text).
Proof.
  rewrite Zsum_filter_zero.
  - rewrite (map_ext _ (fun l => len (unit_syllables l)))
      by (intros l; now rewrite decomposed_by_units).
    rewrite <- (map_map unit_syllables (fun ds => len ds)), Zsum_lens.
    now rewrite split_lines_syllables, decomposed_by_units.
  - intros l Hl. apply blank_no_syllable in Hl. unfold has_syllable in Hl.
    apply Z.ltb_ge in Hl. pose proof (len_nonneg (decomposed_syllables l)). lia.
Qed.

(** X10. In the structure section of the command line, the count printed
    for a line is the number of syllables of that line, the structure
    printed has exactly that many CVC and CV tokens, and the counts of all
    the lines add up to [totalSyllables] of [analyze] on the whole text. *)
Theorem cli_structure_counts (text : jsstring) :
  Forall (fun e =>
            let '(count, line, struct) := e in
            let ts := structure_tokens (cli_clean line) in
            count = len (decomposed_syllables line)
            /\ struct = join [32] ts
            /\ len (filter (str_eqb str_CVC) ts) + len (filter (str_eqb str_CV) ts)
               = count)
    (cli_structure text)
  /\ Zsum (map (fun e => fst (fst e)) (cli_structure text))
     = totalSyllables (analyze text).
Proof.
  split.
  - apply Forall_forall. intros [[count line] struct] He.
    unfold cli_structure in He. apply in_map_iff in He as (l & E & _).
    cbv zeta in E. injection E as <- <- <-. cbv zeta.
    rewrite cli_count_eq, clean_syllables.
    split; [reflexivity|]. split; [apply structuralPattern_eq|].
    destruct (tokens_vs_finals (string_iter (cli_clean l))
                (string_iter_code_points (cli_clean l))) as [H1 H2].
    cbv zeta in H1, H2. fold (structure_tokens (cli_clean l)) in H1, H2.
    fold (decomposed_syllables (cli_clean l)) in H1, H2.
    rewrite H1, H2, len_filter_split. now rewrite clean_syllables.
  - destruct (analyze_counts text) as (_ & _ & _ & _ & Ht). rewrite Ht.
    rewrite <- nonblank_lines_total. unfold cli_structure.
    rewrite map_map. f_equal. apply map_ext. intros l. cbn [fst].
    now rewrite cli_count_eq, clean_syllables.
Qed.

Local Open Scope R_scope.

(** ** Ratios of the analyzer and of the fingerprint *)

Lemma ratio_zero_iff (w t : Z) : (0 < t)%Z -> (IZR w / IZR t = 0 <-> w = 0%Z).
Proof.
  intros Ht. apply IZR_lt in Ht. split.
  - intros H. apply eq_IZR. 
    assert (E : IZR w = IZR w / IZR t * IZR t) by (field; lra).
    rewrite E, H. lra.
  - intros ->. unfold Rdiv. lra.
Qed.

Lemma ratio_one_iff (w t : Z) : (0 < t)%Z -> (IZR w / IZR t = 1 <-> w = t).
Proof.
  intros Ht. pose proof (IZR_lt _ _ Ht) as Ht'. split.
  - intros H. apply eq_IZR.
    assert (E : IZR w = IZR w / IZR t * IZR t) by (field; lra).
    rewrite E, H. lra.
  - intros ->. field. lra.
Qed.

(** X11. [jongRatio] of [analyze] lies in [0, 1]; it is 0 exactly when no
    syllable has a final (in particular on a text without syllables) and
    1 exactly when there is a syllable and every syllable has a final. *)
Theorem jongRatio_range (text : jsstring) :
  let r := analyze text in
  0 <= jongRatio r <= 1
  /\ (jongRatio r = 0 <-> withJong r = 0%Z)
  /\ (jongRatio r = 1 <->
      (0 < totalSyllables r)%Z /\ withJong r = totalSyllables r).
Proof.
  cbv zeta. destruct (analyze_facts text) as (_ & _ & _ & _ & _ & Hw & Hr).
  rewrite Hr. destruct (totalSyllables (analyze text) =? 0)%Z eqn:E.
  - apply Z.eqb_eq in E. split; [lra|]. split.
    + split; [lia | reflexivity].
    + split; [lra | lia].
  - apply Z.eqb_neq in E.
    assert (Hpos : (0 < totalSyllables (analyze text))%Z) by lia.
    split; [now apply ratio_bounds|]. split.
    + now apply ratio_zero_iff.
    + rewrite (ratio_one_iff _ _ Hpos). tauto.
Qed.

Lemma fingerprint_unfold (text : jsstring) :
  decomposed_syllables text <> [] ->
  let r := analyze text in
  let total := totalSyllables r in
  let b := bright (vowelHarmony r) in
  let d := dark (vowelHarmony r) in
  (0 < total)%Z
  /\ fingerprint text =
     Some {| fp_totalSyllables := total;
             brightness :=
               round (IZR (b - d) / IZR (if (b + d =? 0)%Z then 1 else b + d)) 3;
             weight := round (jongRatio r) 3;
             rhythmRegularity :=
               round (rhythmRegularity_of (lineLengths_of text)) 3;
             avgLineLength := round (avgLineLength_of (lineLengths_of text)) 1;
             consonantDiversity :=
               round (diversity_of CHOSEONG
                        (build_profile CHOSEONG (choFreq r) total)) 3;
             vowelDiversity :=
               round (diversity_of JUNGSEONG
                        (build_profile JUNGSEONG (jungFreq r) total)) 3;
             choProfile := build_profile CHOSEONG (choFreq r) total;
             jungProfile := build_profile JUNGSEONG (jungFreq r) total;
             topCho := map fst (firstn 3 (choFreq r));
             topJung := map fst (firstn 3 (jungFreq r)) |}.
Proof.
  intros Hne. cbv zeta. destruct (analyze_facts text) as (Ht & _).
  assert (Hpos : (0 < totalSyllables (analyze text))%Z).
  { rewrite Ht. destruct (decomposed_syllables text); [congruence|].
    unfold len. simpl length. lia. }
  split; [exact Hpos|]. unfold fingerprint.
  destruct (totalSyllables (analyze text) =? 0)%Z eqn:E;
    [apply Z.eqb_eq in E; lia | reflexivity].
Qed.

(** ** Extreme values of brightness and weight *)

Lemma round_nonneg (x : R) (d : nat) : 0 <= x <= 1 -> 0 <= round x d <= 1.
Proof. apply (round_bounds x d 0 1). Qed.

Lemma round_nonpos (x : R) (d : nat) : -1 <= x <= 0 -> -1 <= round x d <= 0.
Proof. apply (round_bounds x d (-1) 0). Qed.

(** X13. Weight and brightness at their ends.  The weight of a fingerprint
    is 0 when no syllable has a final and 1 when every syllable has one.
    The brightness is 1 when there are bright medials and no dark one, -1
    when there are dark medials and no bright one, and 0 when there are as
    many of each (none at all included); its sign never contradicts the
    comparison of the two counts. *)
Theorem fingerprint_extremes (text : jsstring) :
  decomposed_syllables text <> [] ->
  let r := analyze text in
  let b := bright (vowelHarmony r) in
  let d := dark (vowelHarmony r) in
  exists fp,
    fingerprint text = Some fp
    /\ (withJong r = 0%Z -> weight fp = 0)
    /\ (withJong r = totalSyllables r -> weight fp = 1)
    /\ (d = 0%Z -> (0 < b)%Z -> brightness fp = 1)
    /\ (b = 0%Z -> (0 < d)%Z -> brightness fp = -1)
    /\ (b = d -> brightness fp = 0)
    /\ ((d <= b)%Z -> 0 <= brightness fp)
    /\ ((b <= d)%Z -> brightness fp <= 0).
Proof.
  intros Hne. cbv zeta. destruct (fingerprint_unfold text Hne) as (Hpos & E).
  cbv zeta in *.
  destruct (analyze_facts text) as (_ & _ & _ & Hb & Hd & Hw & Hr).
  destruct (totalSyllables (analyze text) =? 0)%Z eqn:E0;
    [apply Z.eqb_eq in E0; lia|].
  eexists. split; [exact E|]. cbn [weight brightness]. rewrite Hr.
  set (b := bright (vowelHarmony (analyze text))) in *.
  set (d := dark (vowelHarmony (analyze text))) in *.
  split.
  { intros ->. replace (IZR 0 / IZR (totalSyllables (analyze text))) with (IZR 0)
      by (unfold Rdiv; lra). apply round_IZR. }
  split.
  { intros ->. replace (IZR (totalSyllables (analyze text))
                        / IZR (totalSyllables (analyze text))) with (IZR 1)
      by (field; apply IZR_lt in Hpos; lra). apply round_IZR. }
  split.
  { intros -> Hb0. replace (b + 0)%Z with b by lia. replace (b - 0)%Z with b by lia.
    replace (b =? 0)%Z with false by (symmetry; apply Z.eqb_neq; lia).
    replace (IZR b / IZR b) with (IZR 1) by (field; apply IZR_lt in Hb0; lra).
    apply round_IZR. }
  split.
  { intros Hb0 Hd0. rewrite Hb0. replace (0 + d)%Z with d by lia.
    replace (d =? 0)%Z with false by (symmetry; apply Z.eqb_neq; lia).
    replace (IZR (0 - d) / IZR d) with (IZR (-1)).
    - apply round_IZR.
    - rewrite minus_IZR. field. apply IZR_lt in Hd0. lra. }
  split.
  { intros ->. replace (d - d)%Z with 0%Z by lia.
    replace (IZR 0 / IZR (if (d + d =? 0)%Z then 1 else d + d)) with (IZR 0)
      by (unfold Rdiv; lra). apply round_IZR. }
  pose proof (brightness_bounds b d Hb Hd) as [Hlo Hhi].
  assert (Hden : 0 < IZR (if (b + d =? 0)%Z then 1 else b + d)).
  { apply IZR_lt. destruct (b + d =? 0)%Z eqn:Es; [lia|].
    apply Z.eqb_neq in Es. lia. }
  split.
  - intros Hle. apply round_nonneg. split; [|exact Hhi].
    apply Rmult_le_pos; [apply IZR_le; lia|].
    left. now apply Rinv_0_lt_compat.
  - intros Hle. apply round_nonpos. split; [exact Hlo|].
    assert (H0 : 0 <= IZR (d - b) / IZR (if (b + d =? 0)%Z then 1 else b + d)).
    { apply Rmult_le_pos; [apply IZR_le; lia|].
      left. now apply Rinv_0_lt_compat. }
    rewrite minus_IZR in *. unfold Rdiv in *. lra.
Qed.

Lemma fingerprint_extremes_witness :
  exists fp,
    fingerprint [0xAC00%Z] = Some fp
    /\ (withJong (analyze [0xAC00%Z]) = 0%Z -> weight fp = 0)
    /\ (withJong (analyze [0xAC00%Z]) = totalSyllables (analyze [0xAC00%Z]) ->
        weight fp = 1)
    /\ (dark (vowelHarmony (analyze [0xAC00%Z])) = 0%Z ->
        (0 < bright (vowelHarmony (analyze [0xAC00%Z])))%Z -> brightness fp = 1)
    /\ (bright (vowelHarmony (analyze [0xAC00%Z])) = 0%Z ->
        (0 < dark (vowelHarmony (analyze [0xAC00%Z])))%Z -> brightness fp = -1)
    /\ (bright (vowelHarmony (analyze [0xAC00%Z]))
        = dark (vowelHarmony (analyze [0xAC00%Z])) -> brightness fp = 0)
    /\ ((dark (vowelHarmony (analyze [0xAC00%Z]))
         <= bright (vowelHarmony (analyze [0xAC00%Z])))%Z -> 0 <= brightness fp)
    /\ ((bright (vowelHarmony (analyze [0xAC00%Z]))
         <= dark (vowelHarmony (analyze [0xAC00%Z])))%Z -> brightness fp <= 0).
Proof.
  apply (fingerprint_extremes [0xAC00%Z]). vm_compute. discriminate.
Defined.

(** ** Line statistics of the fingerprint *)

Lemma Zsum_at_least_len (l : list Z) :
  (forall n, In n l -> (1 <= n)%Z) -> (len l <= Zsum l)%Z.
Proof.
  induction l as [|x l IH]; intros H; [reflexivity|].
  change (x :: l) with ([x] ++ l) at 1. rewrite len_app.
  cbn [Zsum fold_right]. fold (Zsum l). change (len [x]) with 1%Z.
  pose proof (H x (or_introl eq_refl)).
  assert (len l <= Zsum l)%Z by (apply IH; intros; apply H; now right). lia.
Qed.

Lemma avgLineLength_value (text : jsstring) :
  decomposed_syllables text <> [] ->
  let k := len (filter has_syllable (split_lines text)) in
  (1 <= k <= len (decomposed_syllables text))%Z
  /\ len (lineLengths_of text) = k
  /\ avgLineLength_of (lineLengths_of text)
     = IZR (len (decomposed_syllables text)) / IZR k.
Proof.
  intros Hne. cbv zeta.
  assert (Hk : len (lineLengths_of text)
               = len (filter has_syllable (split_lines text)))
    by (rewrite lineLengths_eq; apply len_map).
  pose proof (lineLengths_sum text) as Hs.
  pose proof (Zsum_at_least_len _ (lineLengths_positive text)) as Hle.
  assert (Hpos : (0 < len (decomposed_syllables text))%Z).
  { destruct (decomposed_syllables text); [congruence|].
    unfold len. simpl length. lia. }
  assert (Hk1 : (1 <= len (lineLengths_of text))%Z).
  { destruct (lineLengths_of text) as [|x l] eqn:E.
    - simpl in Hs. lia.
    - unfold len. simpl length. lia. }
  split; [lia|]. split; [exact Hk|].
  unfold avgLineLength_of. rewrite fold_add_Zsum, Hs, Z.add_0_l, Hk.
  destruct (len (filter has_syllable (split_lines text)) =? 0)%Z eqn:E;
    [apply Z.eqb_eq in E; lia | reflexivity].
Qed.

(** X14. The average line length of a fingerprint is the number of
    syllables of the text over the number of its lines that hold a
    syllable, rounded to one decimal; lines without a syllable (blank or
    not) count neither as lines nor as syllables. *)
Theorem fingerprint_avg_line (text : jsstring) :
  decomposed_syllables text <> [] ->
  let n := len (decomposed_syllables text) in
  let k := len (filter has_syllable (split_lines text)) in
  exists fp,
    fingerprint text = Some fp
    /\ (1 <= k <= n)%Z
    /\ avgLineLength fp = round (IZR n / IZR k) 1
    /\ 1 <= avgLineLength fp.
Proof.
  intros Hne. cbv zeta. destruct (fingerprint_unfold text Hne) as (_ & E).
  cbv zeta in E. destruct (avgLineLength_value text Hne) as (Hk & _ & Ha).
  cbv zeta in *. eexists. split; [exact E|]. cbn [avgLineLength].
  split; [exact Hk|]. rewrite Ha. split; [reflexivity|].
  set (n := len (decomposed_syllables text)) in *.
  set (k := len (filter has_syllable (split_lines text))) in *.
  assert (Hq : IZR 1 <= IZR n / IZR k <= IZR n).
  { assert (Hk0 : 0 < IZR k) by (apply IZR_lt; lia).
    assert (Hk1 : 1 <= IZR k) by (apply IZR_le; lia).
    assert (Hn : IZR k <= IZR n) by (apply IZR_le; lia).
    split.
    - apply Rmult_le_reg_r with (IZR k); [exact Hk0|].
      unfold Rdiv. rewrite Rmult_assoc, Rinv_l by lra. lra.
    - apply Rmult_le_reg_r with (IZR k); [exact Hk0|].
      unfold Rdiv. rewrite Rmult_assoc, Rinv_l by lra. nra. }
  apply (round_bounds _ 1 1 n Hq).
Qed.

Lemma fingerprint_avg_line_witness :
  exists fp,
    fingerprint [0xD55C%Z] = Some fp
    /\ (1 <= len (filter has_syllable (split_lines [0xD55C%Z]))
        <= len (decomposed_syllables [0xD55C%Z]))%Z
    /\ avgLineLength fp
       = round (IZR (len (decomposed_syllables [0xD55C%Z]))
                / IZR (len (filter has_syllable (split_lines [0xD55C%Z])))) 1
    /\ 1 <= avgLineLength fp.
Proof.
  apply (fingerprint_avg_line [0xD55C%Z]). vm_compute. discriminate.
Defined.

Lemma Zsum_constant (l : list Z) (n : Z) :
  (forall m, In m l -> m = n) -> Zsum l = (n * len l)%Z.
Proof.
  induction l as [|x l IH]; intros H;
    [change (@len Z []) with 0%Z; cbn [Zsum fold_right]; lia|].
  change (x :: l) with ([x] ++ l) at 2. rewrite len_app.
  cbn [Zsum fold_right]. fold (Zsum l). change (len [x]) with 1%Z.
  rewrite IH by (intros; apply H; now right).
  rewrite (H x (or_introl eq_refl)). lia.
Qed.

Lemma variance_constant (l : list Z) (a : R) (n : Z) :
  (forall m, In m l -> m = n) -> a = IZR n ->
  fold_left (fun sum m => sum + (IZR m - a) ^ 2) l 0 = 0.
Proof.
  intros H ->. rewrite (fold_left_Rsum (fun m => (IZR m - IZR n) ^ 2)).
  rewrite Rplus_0_l. induction l as [|x l IH]; [reflexivity|].
  cbn [map Rsum]. rewrite IH by (intros; apply H; now right).
  rewrite (H x (or_introl eq_refl)). simpl. lra.
Qed.

(** X15. When all the lines that hold a syllable hold the same number of
    syllables (a text of one line, for instance), the rhythm regularity
    of the fingerprint is 1. *)
Theorem fingerprint_regular_lines (text : jsstring) (n : Z) :
  decomposed_syllables text <> [] ->
  (forall l, In l (split_lines text) -> has_syllable l = true ->
             len (decomposed_syllables l) = n) ->
  exists fp, fingerprint text = Some fp /\ rhythmRegularity fp = 1.
Proof.
  intros Hne Hall. destruct (fingerprint_unfold text Hne) as (_ & E).
  cbv zeta in E. eexists. split; [exact E|]. cbn [rhythmRegularity].
  destruct (avgLineLength_value text Hne) as (Hk & Hlen & Ha). cbv zeta in *.
  assert (Hconst : forall m, In m (lineLengths_of text) -> m = n).
  { intros m Hm. rewrite lineLengths_eq in Hm.
    apply in_map_iff in Hm as (l & <- & Hl). apply filter_In in Hl as [Hl Hs].
    rewrite line_count_eq. now apply Hall. }
  pose proof (lineLengths_sum text) as Hs.
  rewrite (Zsum_constant _ n Hconst), Hlen in Hs.
  set (k := len (filter has_syllable (split_lines text))) in *.
  assert (Hk0 : 0 < IZR k) by (apply IZR_lt; lia).
  assert (Havg : avgLineLength_of (lineLengths_of text) = IZR n).
  { rewrite Ha, <- Hs, mult_IZR. field. lra. }
  assert (Hn : (1 <= n)%Z) by nia.
  assert (Hvar : lineVariance_of (lineLengths_of text) = 0).
  { unfold lineVariance_of.
    rewrite (variance_constant _ _ n Hconst Havg).
    destruct (1 <? len (lineLengths_of text))%Z; [|reflexivity].
    unfold Rdiv. lra. }
  unfold rhythmRegularity_of. rewrite Hvar, Havg, sqrt_0.
  assert (Hn0 : 0 < IZR n) by (apply IZR_lt; lia).
  destruct (Rlt_dec 0 (IZR n)) as [_|]; [|contradiction].
  replace (0 / IZR n) with 0 by (unfold Rdiv; lra).
  rewrite Rmin_right by lra. replace (1 - 0) with (IZR 1) by lra.
  apply round_IZR.
Qed.

Lemma fingerprint_regular_lines_witness :
  exists fp, fingerprint [0xD55C%Z] = Some fp /\ rhythmRegularity fp = 1.
Proof.
  apply (fingerprint_regular_lines [0xD55C%Z] 1).
  - vm_compute. discriminate.
  - intros l Hl _. simpl in Hl. destruct Hl as [<-|[]]. reflexivity.
Defined.

(** ** The comparator: symmetry, and the Cauchy-Schwarz inequality *)

Lemma cosineSimilarity_pairs (a b : list R) :
  cosineSimilarity a b
  = if Req_dec_T (sqrt (Rsq (map fst (combine a b)))
                  * sqrt (Rsq (map snd (combine a b)))) 0
    then 0
    else Rsum (map (fun xy => fst xy * snd xy) (combine a b))
         / (sqrt (Rsq (map fst (combine a b)))
            * sqrt (Rsq (map snd (combine a b)))).
Proof.
  unfold cosineSimilarity. rewrite cosine_fold, !Rplus_0_l. reflexivity.
Qed.

Lemma combine_swap {A B} (a : list A) (b : list B) :
  combine b a = map (fun xy => (snd xy, fst xy)) (combine a b).
Proof.
  revert b; induction a as [|x a IH]; intros [|y b]; simpl; try reflexivity.
  now rewrite IH.
Qed.

Lemma cosineSimilarity_comm (a b : list R) :
  cosineSimilarity a b = cosineSimilarity b a.
Proof.
  rewrite !cosineSimilarity_pairs, (combine_swap a b), !map_map. cbn [fst snd].
  rewrite (map_ext (fun x : R * R => snd x * fst x) (fun x => fst x * snd x))
    by (intros; apply Rmult_comm).
  rewrite (Rmult_comm (sqrt (Rsq (map (fun x : R * R => snd x) (combine a b))))).
  reflexivity.
Qed.

(** X16. [compare] is symmetric: the two texts can be exchanged. *)
Theorem compare_symmetric (textA textB : jsstring) :
  compare textA textB = compare textB textA.
Proof.
  unfold compare.
  destruct (fingerprint textA) as [fpA|], (fingerprint textB) as [fpB|];
    try reflexivity.
  now rewrite cosineSimilarity_comm.
Qed.

Lemma quadratic_sum (ab : list (R * R)) (t : R) :
  Rsq (map (fun xy => fst xy * t + snd xy) ab)
  = Rsq (map fst ab) * t ^ 2
    + 2 * Rsum (map (fun xy => fst xy * snd xy) ab) * t
    + Rsq (map snd ab).
Proof.
  unfold Rsq. induction ab as [|[x y] ab IH]; cbn [map Rsum fst snd].
  - ring.
  - rewrite IH. ring.
Qed.

Lemma cauchy_schwarz (ab : list (R * R)) :
  Rsum (map (fun xy => fst xy * snd xy) ab) ^ 2
  <= Rsq (map fst ab) * Rsq (map snd ab).
Proof.
  set (D := Rsum (map (fun xy => fst xy * snd xy) ab)).
  set (A := Rsq (map fst ab)). set (B := Rsq (map snd ab)).
  assert (HA : 0 <= A) by apply Rsq_nonneg.
  assert (HB : 0 <= B) by apply Rsq_nonneg.
  assert (Hq : forall t, 0 <= A * t ^ 2 + 2 * D * t + B).
  { intros t. unfold A, D, B. rewrite <- quadratic_sum. apply Rsq_nonneg. }
  destruct (Req_dec A 0) as [E|E].
  - rewrite E in *. destruct (Req_dec D 0) as [ED|ED]; [rewrite ED; lra|].
    exfalso. specialize (Hq (- (B + 1) / (2 * D))).
    assert (Ht : 2 * D * (- (B + 1) / (2 * D)) = - (B + 1)) by (field; exact ED).
    rewrite Ht in Hq. lra.
  - assert (HA' : 0 < A) by lra.
    specialize (Hq (- D / A)).
    assert (Ht : A * (- D / A) ^ 2 + 2 * D * (- D / A) + B = B - D ^ 2 / A)
      by (field; exact E).
    rewrite Ht in Hq.
    assert (Hd : D ^ 2 / A <= B) by lra.
    apply Rmult_le_compat_r with (r := A) in Hd; [|exact HA].
    unfold Rdiv in Hd. rewrite Rmult_assoc, Rinv_l, Rmult_1_r in Hd by exact E.
    lra.
Qed.

(** ** Diversity of a text with a single sound *)

Lemma count_str_constant (c s0 : jsstring) (syms : list jsstring) :
  (forall s, In s syms -> s = s0) ->
  count_str c syms = if str_eqb c s0 then len syms else 0%Z.
Proof.
  intros H. unfold count_str. induction syms as [|s syms IH].
  - destruct (str_eqb c s0); reflexivity.
  - cbn [filter]. rewrite (H s (or_introl eq_refl)).
    assert (IH' := IH (fun x Hx => H x (or_intror Hx))).
    change (s0 :: syms) with ([s0] ++ syms). rewrite len_app.
    destruct (str_eqb c s0).
    + change (s0 :: filter (str_eqb c) syms)
        with ([s0] ++ filter (str_eqb c) syms).
      rewrite len_app, IH'. reflexivity.
    + rewrite IH'. reflexivity.
Qed.

Lemma entropy_zero_one (vs : list R) :
  (forall v, In v vs -> v = 0 \/ v = 1) ->
  shannonEntropy (filter is_pos vs) = 0.
Proof.
  intros H. rewrite shannonEntropy_sum.
  assert (E : Rsum (map plogp (filter is_pos vs)) = 0); [|rewrite E; lra].
  induction vs as [|v vs IH]; [reflexivity|]. cbn [filter].
  assert (IH' := IH (fun x Hx => H x (or_intror Hx))).
  destruct (is_pos v) eqn:Ep; [|exact IH'].
  cbn [map Rsum]. rewrite IH'.
  destruct (H v (or_introl eq_refl)) as [->| ->].
  - unfold is_pos in Ep. destruct (Rlt_dec 0 0); [lra | discriminate].
  - rewrite plogp_pos by lra. rewrite ln_1. lra.
Qed.

Lemma single_symbol_diversity (table : list jsstring) (freq : jsobj Z)
      (total : Z) (syms : list jsstring) (s0 : jsstring) :
  NoDup table -> (forall c, count_or_0 freq c = count_str c syms) ->
  total = len syms -> (0 < total)%Z -> (forall s, In s syms -> s = s0) ->
  diversity_of table (build_profile table freq total) = 0.
Proof.
  intros Hnd Hcnt Htot Hpos Hall. unfold diversity_of.
  destruct (Rlt_dec 0 (log2 (IZR (len table)))) as [_|_]; [|reflexivity].
  rewrite build_profile_values by assumption.
  change (fun v : R => if Rlt_dec 0 v then true else false) with is_pos.
  rewrite entropy_zero_one; [unfold Rdiv; lra|].
  intros v Hv. apply in_map_iff in Hv as (c & <- & _).
  rewrite Hcnt, (count_str_constant c s0 syms Hall), Htot.
  destruct (str_eqb c s0).
  - right. field. apply IZR_lt in Hpos. rewrite Htot in Hpos. lra.
  - left. unfold Rdiv. lra.
Qed.

(** X18. A text whose syllables all have the same initial has consonant
    diversity 0, and a text whose syllables all have the same medial has
    vowel diversity 0. *)
Theorem fingerprint_single_sound (text : jsstring) :
  decomposed_syllables text <> [] ->
  let ds := decomposed_syllables text in
  exists fp,
    fingerprint text = Some fp
    /\ ((forall d d', In d ds -> In d' ds -> cho d = cho d') ->
        consonantDiversity fp = 0)
    /\ ((forall d d', In d ds -> In d' ds -> jung d = jung d') ->
        vowelDiversity fp = 0).
Proof.
  intros Hne. cbv zeta. destruct (fingerprint_unfold text Hne) as (Hpos & E).
  cbv zeta in *. destruct (analyze_facts text) as (Ht & Hc & Hj & _).
  eexists. split; [exact E|]. cbn [consonantDiversity vowelDiversity].
  destruct (decomposed_syllables text) as [|d0 ds] eqn:Eds; [congruence|].
  split; intros Hall.
  - rewrite (single_symbol_diversity CHOSEONG _ _ (cho_syms (d0 :: ds))
               (to_str (cho d0)));
      [ apply (round_IZR 0 3) | apply NoDup_CHOSEONG | exact Hc
      | unfold cho_syms; rewrite len_map; exact Ht | exact Hpos |].
    intros s Hs. unfold cho_syms in Hs. apply in_map_iff in Hs as (d & <- & Hd).
    f_equal. apply Hall; [exact Hd | now left].
  - rewrite (single_symbol_diversity JUNGSEONG _ _ (jung_syms (d0 :: ds))
               (to_str (jung d0)));
      [ apply (round_IZR 0 3) | apply NoDup_JUNGSEONG | exact Hj
      | unfold jung_syms; rewrite len_map; exact Ht | exact Hpos |].
    intros s Hs. unfold jung_syms in Hs. apply in_map_iff in Hs as (d & <- & Hd).
    f_equal. apply Hall; [exact Hd | now left].
Qed.

Lemma fingerprint_single_sound_witness :
  exists fp,
    fingerprint [0xD55C%Z] = Some fp
    /\ ((forall d d', In d (decomposed_syllables [0xD55C%Z]) ->
                      In d' (decomposed_syllables [0xD55C%Z]) -> cho d = cho d') ->
        consonantDiversity fp = 0)
    /\ ((forall d d', In d (decomposed_syllables [0xD55C%Z]) ->
                      In d' (decomposed_syllables [0xD55C%Z]) -> jung d = jung d') ->
        vowelDiversity fp = 0).
Proof.
  apply (fingerprint_single_sound [0xD55C%Z]). vm_compute. discriminate.
Defined.

Local Close Scope R_scope.

(** ** The most frequent sounds *)

Lemma sorted_before {A} (R : A -> A -> Prop) (l : list A) (a b : A) :
  StronglySorted R l -> before a b l -> R a b.
Proof.
  intros Hs (l1 & l2 & l3 & ->). induction l1 as [|x l1 IH]; simpl in Hs.
  - inversion Hs as [|? ? _ Hall]; subst. rewrite Forall_forall in Hall.
    apply Hall. apply in_or_app. right. now left.
  - inversion Hs; subst. now apply IH.
Qed.

Lemma before_map_inv {A B} (f : A -> B) (l : list A) (x y : B) :
  before x y (map f l) ->
  exists a b, before a b l /\ f a = x /\ f b = y.
Proof.
  intros (l1 & l2 & l3 & E).
  apply map_eq_app in E as (m1 & m' & -> & <- & E).
  apply map_eq_cons in E as (a & m'' & -> & <- & E).
  apply map_eq_app in E as (m2 & m''' & -> & <- & E).
  apply map_eq_cons in E as (b & m3 & -> & <- & <-).
  exists a, b. split; [now exists m1, m2, m3 | auto].
Qed.

Lemma before_prefix {A} (n : nat) (l : list A) (a b : A) :
  before a b (firstn n l) -> before a b l.
Proof.
  intros (l1 & l2 & l3 & E). exists l1, l2, (l3 ++ skipn n l).
  rewrite <- (firstn_skipn n l) at 1. rewrite E.
  repeat (rewrite <- ?app_assoc; cbn [app]); reflexivity.
Qed.

Lemma top_three_of_sorted (freq : jsobj Z) (syms : list jsstring) :
  sorted_by_count_then_first_seen freq syms ->
  top_three (map fst (firstn 3 freq)) syms.
Proof.
  intros (Hs & Hnd & Hin & Hcnt & _).
  assert (Hval : forall k n, In (k, n) freq -> n = count_str k syms).
  { intros k n H. apply (obj_get_In k n freq Hnd) in H.
    rewrite <- Hcnt. unfold count_or_0. now rewrite H. }
  assert (Hsplit : freq = firstn 3 freq ++ skipn 3 freq)
    by (symmetry; apply firstn_skipn).
  assert (Hkeys : map fst freq = map fst (firstn 3 freq) ++ map fst (skipn 3 freq))
    by (rewrite <- map_app; f_equal; exact Hsplit).
  assert (Hnd' : NoDup (map fst (firstn 3 freq) ++ map fst (skipn 3 freq)))
    by (rewrite <- Hkeys; exact Hnd).
  assert (Hpre : forall e, In e (firstn 3 freq) -> In e freq)
    by (intros e He; rewrite Hsplit; apply in_or_app; now left).
  repeat split.
  - rewrite length_map. apply firstn_le_length.
  - now apply NoDup_app_remove_r in Hnd'.
  - intros k Hk. apply Hin. rewrite Hkeys. apply in_or_app. now left.
  - intros k1 k2 Hb. apply before_map_inv in Hb as ([a n1] & [b n2] & Hb & <- & <-).
    pose proof (before_In _ _ _ Hb) as [Ha Hb'].
    apply before_prefix in Hb. apply (sorted_before _ _ _ _ Hs) in Hb.
    cbn [fst snd] in *.
    rewrite <- (Hval a n1 (Hpre _ Ha)), <- (Hval b n2 (Hpre _ Hb')). lia.
  - intros k k' Hk Hk'.
    apply in_map_iff in Hk as ([a n] & Ea & Ha). cbn [fst] in Ea. subst a.
    rewrite <- (Hval k n (Hpre _ Ha)).
    destruct (in_dec str_eq_dec k' (map fst freq)) as [Hf|Hf].
    + rewrite Hkeys in Hf. apply in_app_or in Hf as [Hf|Hf]; [contradiction|].
      apply in_map_iff in Hf as ([b n'] & Eb & Hb). cbn [fst] in Eb. subst b.
      assert (Hbf : In (k', n') freq)
        by (rewrite Hsplit; apply in_or_app; now right).
      rewrite <- (Hval k' n' Hbf).
      apply in_split in Ha as (p1 & p2 & Ep).
      apply in_split in Hb as (q1 & q2 & Eq).
      assert (Hbef : before (k, n) (k', n') freq).
      { rewrite Hsplit, Ep, Eq. exists p1, (p2 ++ q1), q2.
        repeat (rewrite <- ?app_assoc; cbn [app]); reflexivity. }
      apply (sorted_before _ _ _ _ Hs) in Hbef. cbn [snd] in Hbef. lia.
    + rewrite <- Hcnt. unfold count_or_0.
      rewrite (proj2 (obj_get_None k' freq) Hf).
      assert (Hk : In k syms)
        by (apply Hin; change k with (fst (k, n)); apply in_map; auto).
      pose proof (count_str_pos k syms Hk). rewrite (Hval k n (Hpre _ Ha)). lia.
  - intros Hlen k Hk. apply Hin in Hk. rewrite length_map in Hlen.
    assert (E : firstn 3 freq = freq).
    { apply firstn_all2. rewrite length_firstn in Hlen. lia. }
    now rewrite E.
Qed.

(** X19. [topCho] and [topJung] of a fingerprint are the three most
    frequent initials and medials of the text (all of them when the text
    has fewer than three): at most three distinct symbols that occur, in
    descending number of occurrences, none less frequent than a symbol
    that is left out.  Each list has at least one symbol. *)
Theorem fingerprint_top_sounds (text : jsstring) :
  decomposed_syllables text <> [] ->
  let ds := decomposed_syllables text in
  exists fp,
    fingerprint text = Some fp
    /\ top_three (topCho fp) (cho_syms ds) /\ topCho fp <> []
    /\ top_three (topJung fp) (jung_syms ds) /\ topJung fp <> [].
Proof.
  intros Hne. cbv zeta. destruct (fingerprint_unfold text Hne) as (Hpos & E).
  cbv zeta in *. destruct (analyze_tables_ok text) as (Hc & Hj & _).
  eexists. split; [exact E|]. cbn [topCho topJung].
  pose proof (top_three_of_sorted _ _ Hc) as Tc.
  pose proof (top_three_of_sorted _ _ Hj) as Tj.
  assert (Hsyl : exists d, In d (decomposed_syllables text))
    by (destruct (decomposed_syllables text) as [|d ?];
        [congruence | exists d; now left]).
  destruct Hsyl as (d & Hd).
  split; [exact Tc|]. split.
  - destruct Tc as (_ & _ & _ & _ & _ & Hall). intros Hnil.
    rewrite Hnil in Hall.
    assert (Hf : In (to_str (cho d)) (@nil jsstring)); [|exact Hf].
    apply Hall; [simpl; lia|].
    unfold cho_syms. apply (in_map (fun d => to_str (cho d))). exact Hd.
  - split; [exact Tj|].
    destruct Tj as (_ & _ & _ & _ & _ & Hall). intros Hnil.
    rewrite Hnil in Hall.
    assert (Hf : In (to_str (jung d)) (@nil jsstring)); [|exact Hf].
    apply Hall; [simpl; lia|].
    unfold jung_syms. apply (in_map (fun d => to_str (jung d))). exact Hd.
Qed.

Lemma fingerprint_top_sounds_witness :
  exists fp,
    fingerprint [0xD55C] = Some fp
    /\ top_three (topCho fp) (cho_syms (decomposed_syllables [0xD55C]))
    /\ topCho fp <> []
    /\ top_three (topJung fp) (jung_syms (decomposed_syllables [0xD55C]))
    /\ topJung fp <> [].
Proof.
  apply (fingerprint_top_sounds [0xD55C]). vm_compute. discriminate.
Defined.

(* ================================================================= *)
(** * Properties of the binary64 model

    The bounds of the fingerprint and the identity and range of the
    comparator depend on how binary64 rounds: the exact quotients do not
    survive the rounding, and the final rounding to three or four
    decimals is what restores them.  This part proves them over
    [Binary64], from three facts about [rnd]: it is monotone, it leaves
    numbers with a significand of 53 bits as they are, and its relative
    error is at most 2^-53. *)

Local Open Scope R_scope.

(** ** Integers nearest to a real *)

Lemma Int_part_IZR (n : Z) : Int_part (IZR n) = n.
Proof. symmetry. apply Int_part_spec. lra. Qed.

Lemma Int_part_le (x y : R) : x <= y -> (Int_part x <= Int_part y)%Z.
Proof.
  intros H. destruct (base_Int_part x) as [H1 H2].
  destruct (base_Int_part y) as [H3 H4].
  assert (Hlt : IZR (Int_part x) < IZR (Int_part y) + 1) by lra.
  rewrite <- plus_IZR in Hlt. apply lt_IZR in Hlt. lia.
Qed.

Lemma nearest_even_cases (y : R) :
  let f := Int_part y in
  (nearest_even y = f /\ y - IZR f <= / 2)
  \/ (nearest_even y = (f + 1)%Z /\ / 2 <= y - IZR f).
Proof.
  cbv zeta. unfold nearest_even.
  destruct (Rlt_dec (y - IZR (Int_part y)) (/ 2)) as [H|H]; [left; split; [reflexivity | lra]|].
  destruct (Rlt_dec (/ 2) (y - IZR (Int_part y))) as [H'|H']; [right; split; [reflexivity | lra]|].
  destruct (Z.even (Int_part y)); [left | right]; split; try reflexivity; lra.
Qed.

Lemma nearest_even_IZR (n : Z) : nearest_even (IZR n) = n.
Proof.
  unfold nearest_even. rewrite Int_part_IZR.
  destruct (Rlt_dec (IZR n - IZR n) (/ 2)) as [_|H]; [reflexivity | lra].
Qed.

Lemma nearest_even_error (y : R) : Rabs (IZR (nearest_even y) - y) <= / 2.
Proof.
  destruct (base_Int_part y) as [H1 H2].
  destruct (nearest_even_cases y) as [[-> H]|[-> H]];
    rewrite ?plus_IZR; apply Rabs_le; lra.
Qed.

Lemma nearest_even_le (x y : R) : x <= y -> (nearest_even x <= nearest_even y)%Z.
Proof.
  intros Hxy. pose proof (Int_part_le x y Hxy) as Hf.
  destruct (base_Int_part x) as [Hx1 Hx2]. destruct (base_Int_part y) as [Hy1 Hy2].
  destruct (Z.eq_dec (Int_part x) (Int_part y)) as [E|E].
  - unfold nearest_even. rewrite <- E.
    destruct (Rlt_dec (x - IZR (Int_part x)) (/ 2)) as [A|A];
      destruct (Rlt_dec (y - IZR (Int_part x)) (/ 2)) as [B|B];
      destruct (Rlt_dec (/ 2) (x - IZR (Int_part x))) as [C|C];
      destruct (Rlt_dec (/ 2) (y - IZR (Int_part x))) as [D|D];
      destruct (Z.even (Int_part x)); try lia; lra.
  - destruct (nearest_even_cases x) as [[-> _]|[-> _]];
      destruct (nearest_even_cases y) as [[-> _]|[-> _]]; lia.
Qed.

Lemma Int_part_opp (y : R) :
  IZR (Int_part y) <> y -> Int_part (- y) = (- Int_part y - 1)%Z.
Proof.
  intros H. destruct (base_Int_part y) as [H1 H2]. symmetry.
  apply Int_part_spec. rewrite minus_IZR, opp_IZR. lra.
Qed.

Lemma nearest_even_opp (y : R) : nearest_even (- y) = (- nearest_even y)%Z.
Proof.
  destruct (Req_dec (IZR (Int_part y)) y) as [E|E].
  - rewrite <- E, <- opp_IZR, !nearest_even_IZR. reflexivity.
  - destruct (base_Int_part y) as [H1 H2].
    unfold nearest_even. rewrite (Int_part_opp y E).
    rewrite minus_IZR, opp_IZR.
    replace (Z.even (- Int_part y - 1)) with (negb (Z.even (Int_part y))).
    2:{ replace (- Int_part y - 1)%Z with (- (Int_part y + 1))%Z by lia.
        rewrite Z.even_opp, Z.even_add. destruct (Z.even (Int_part y)); reflexivity. }
    destruct (Rlt_dec (- y - (- IZR (Int_part y) - 1)) (/ 2)) as [A|A];
      destruct (Rlt_dec (y - IZR (Int_part y)) (/ 2)) as [B|B];
      destruct (Rlt_dec (/ 2) (- y - (- IZR (Int_part y) - 1))) as [C|C];
      destruct (Rlt_dec (/ 2) (y - IZR (Int_part y))) as [D|D];
      destruct (Z.even (Int_part y)); cbn [negb]; try lia; lra.
Qed.

(** ** Powers of two *)

Lemma two_pos (e : Z) : 0 < powerRZ 2 e.
Proof. apply powerRZ_lt. lra. Qed.

Lemma two_add (a b : Z) : powerRZ 2 (a + b) = powerRZ 2 a * powerRZ 2 b.
Proof. apply powerRZ_add. lra. Qed.

Lemma two_opp (a : Z) : powerRZ 2 (- a) = / powerRZ 2 a.
Proof. apply powerRZ_neg'. Qed.

Lemma two_cancel (a : Z) : powerRZ 2 (- a) * powerRZ 2 a = 1.
Proof. rewrite two_opp. apply Rinv_l. pose proof (two_pos a). lra. Qed.

Lemma two_lt (a b : Z) : (a < b)%Z -> powerRZ 2 a < powerRZ 2 b.
Proof.
  intros H. rewrite !powerRZ_Rpower by lra.
  apply Rpower_lt; [lra | now apply IZR_lt].
Qed.

Lemma two_le (a b : Z) : (a <= b)%Z -> powerRZ 2 a <= powerRZ 2 b.
Proof.
  intros H. destruct (Z.eq_dec a b) as [->|E]; [lra|].
  left. apply two_lt. lia.
Qed.

Lemma two_lt_inv (a b : Z) : powerRZ 2 a < powerRZ 2 b -> (a < b)%Z.
Proof.
  intros H. destruct (Z_lt_le_dec a b) as [L|L]; [exact L|].
  apply two_le in L. lra.
Qed.

Lemma two_IZR (n : Z) : (0 <= n)%Z -> powerRZ 2 n = IZR (2 ^ n).
Proof.
  intros H. rewrite <- (Z2Nat.id n H) at 1. rewrite <- pow_powerRZ.
  rewrite <- (Z2Nat.id n H) at 2. now rewrite pow_IZR.
Qed.

(** ** The binade of a real *)

Lemma ln2_gt_0 : 0 < ln 2.
Proof. rewrite <- ln_1. apply ln_increasing; lra. Qed.

Lemma two_exp (m : Z) : powerRZ 2 m = exp (IZR m * ln 2).
Proof. rewrite powerRZ_Rpower by lra. reflexivity. Qed.

Lemma mag2_bounds (x : R) :
  x <> 0 -> powerRZ 2 (mag2 x) <= Rabs x < powerRZ 2 (mag2 x + 1).
Proof.
  intros Hx. assert (Ha : 0 < Rabs x) by now apply Rabs_pos_lt.
  unfold mag2. destruct (base_Int_part (ln (Rabs x) / ln 2)) as [H1 H2].
  set (m := Int_part (ln (Rabs x) / ln 2)) in *.
  pose proof ln2_gt_0 as L2.
  assert (E : ln (Rabs x) / ln 2 * ln 2 = ln (Rabs x)) by (field; lra).
  rewrite !two_exp, plus_IZR. pose proof (exp_ln (Rabs x) Ha) as Ex.
  split.
  - rewrite <- Ex.
    destruct (Req_dec (IZR m * ln 2) (ln (Rabs x))) as [->|N]; [lra|].
    left. apply exp_increasing. nra.
  - rewrite <- Ex at 1. apply exp_increasing. nra.
Qed.

Lemma mag2_unique (x : R) (m : Z) :
  powerRZ 2 m <= Rabs x < powerRZ 2 (m + 1) -> mag2 x = m.
Proof.
  intros [H1 H2]. pose proof (two_pos m) as Hm.
  assert (Hx : x <> 0).
  { intros ->. rewrite Rabs_R0 in H1. lra. }
  destruct (mag2_bounds x Hx) as [H3 H4].
  assert (A : (mag2 x < m + 1)%Z) by (apply two_lt_inv; lra).
  assert (B : (m < mag2 x + 1)%Z) by (apply two_lt_inv; lra).
  lia.
Qed.

Lemma mag2_opp (x : R) : mag2 (- x) = mag2 x.
Proof. unfold mag2. now rewrite Rabs_Ropp. Qed.

(** ** Rounding: sign, error, order and exact values *)

Lemma rnd_0 : rnd 0 = 0.
Proof. unfold rnd. cbv zeta. rewrite Rmult_0_l, (nearest_even_IZR 0). lra. Qed.

Lemma rnd_opp (x : R) : rnd (- x) = - rnd x.
Proof.
  unfold rnd. cbv zeta. rewrite mag2_opp.
  rewrite <- Ropp_mult_distr_l, nearest_even_opp, opp_IZR. lra.
Qed.

Lemma rnd_error (x : R) : Rabs (rnd x - x) <= / 2 ^ 53 * Rabs x.
Proof.
  destruct (Req_dec x 0) as [->|Hx].
  { rewrite rnd_0, Rminus_0_r, Rabs_R0. lra. }
  destruct (mag2_bounds x Hx) as [H1 _].
  unfold rnd. cbv zeta. set (e := (mag2 x - 52)%Z).
  pose proof (two_pos e) as He.
  pose proof (nearest_even_error (x * powerRZ 2 (- e))) as Hn.
  set (n := IZR (nearest_even (x * powerRZ 2 (- e)))) in *.
  replace (n * powerRZ 2 e - x) with ((n - x * powerRZ 2 (- e)) * powerRZ 2 e).
  2:{ rewrite Rmult_minus_distr_r, Rmult_assoc, two_cancel. ring. }
  rewrite Rabs_mult, (Rabs_pos_eq (powerRZ 2 e)) by lra.
  assert (E : powerRZ 2 (mag2 x) = powerRZ 2 e * 2 ^ 52).
  { unfold e. replace (mag2 x) with ((mag2 x - 52) + 52)%Z at 1 by lia.
    rewrite two_add. reflexivity. }
  rewrite E in H1.
  assert (P52 : (2 ^ 53 = 2 * 2 ^ 52)%R) by (simpl; ring).
  assert (Q : 0 < 2 ^ 52) by (apply pow_lt; lra).
  rewrite P52. 
  assert (G : / 2 * powerRZ 2 e <= / (2 * 2 ^ 52) * Rabs x).
  { replace (/ 2 * powerRZ 2 e) with (/ (2 * 2 ^ 52) * (powerRZ 2 e * 2 ^ 52))
      by (field; lra).
    apply Rmult_le_compat_l; [|lra].
    left. apply Rinv_0_lt_compat. lra. }
  eapply Rle_trans; [|exact G].
  apply Rmult_le_compat_r; lra.
Qed.

Lemma rnd_nonneg (x : R) : 0 <= x -> 0 <= rnd x.
Proof.
  intros H. unfold rnd. cbv zeta. set (e := (mag2 x - 52)%Z).
  pose proof (two_pos e). pose proof (two_pos (- e)).
  apply Rmult_le_pos; [|lra]. apply IZR_le.
  rewrite <- (nearest_even_IZR 0). apply nearest_even_le. nra.
Qed.

Lemma rnd_le_pos (x y : R) : 0 < x -> x <= y -> rnd x <= rnd y.
Proof.
  intros Hx Hxy.
  destruct (mag2_bounds x) as [X1 X2]; [lra|].
  destruct (mag2_bounds y) as [Y1 Y2]; [lra|].
  rewrite Rabs_pos_eq in X1, X2, Y1, Y2 by lra.
  assert (Hm : (mag2 x <= mag2 y)%Z).
  { assert (mag2 x < mag2 y + 1)%Z by (apply two_lt_inv; lra). lia. }
  unfold rnd. cbv zeta.
  destruct (Z.eq_dec (mag2 x) (mag2 y)) as [E|E].
  - rewrite E. set (e := (mag2 y - 52)%Z).
    pose proof (two_pos e). pose proof (two_pos (- e)).
    apply Rmult_le_compat_r; [lra|]. apply IZR_le, nearest_even_le.
    apply Rmult_le_compat_r; lra.
  - apply Rle_trans with (powerRZ 2 (mag2 y)).
    + apply Rle_trans with (powerRZ 2 (mag2 x + 1)); [|apply two_le; lia].
      set (e := (mag2 x - 52)%Z).
      replace (mag2 x + 1)%Z with (53 + e)%Z by (unfold e; lia).
      rewrite two_add. pose proof (two_pos e). pose proof (two_pos (- e)).
      apply Rmult_le_compat_r; [lra|].
      rewrite (two_IZR 53) by lia. apply IZR_le.
      rewrite <- (nearest_even_IZR (2 ^ 53)). apply nearest_even_le.
      rewrite <- (two_IZR 53) by lia.
      replace 53%Z with ((mag2 x + 1) + - e)%Z by (unfold e; lia).
      rewrite two_add. apply Rmult_le_compat_r; lra.
    + set (e := (mag2 y - 52)%Z).
      replace (mag2 y) with (52 + e)%Z at 1 by (unfold e; lia).
      rewrite two_add. pose proof (two_pos e). pose proof (two_pos (- e)).
      apply Rmult_le_compat_r; [lra|].
      rewrite (two_IZR 52) by lia. apply IZR_le.
      rewrite <- (nearest_even_IZR (2 ^ 52)). apply nearest_even_le.
      rewrite <- (two_IZR 52) by lia.
      replace 52%Z with (mag2 y + - e)%Z at 1 by (unfold e; lia).
      rewrite two_add. apply Rmult_le_compat_r; lra.
Qed.

Lemma rnd_le (x y : R) : x <= y -> rnd x <= rnd y.
Proof.
  intros H. destruct (Rlt_dec 0 x) as [Hx|Hx].
  - now apply rnd_le_pos.
  - destruct (Rle_dec 0 y) as [Hy|Hy].
    + apply Rle_trans with 0; [|now apply rnd_nonneg].
      assert (A : 0 <= rnd (- x)) by (apply rnd_nonneg; lra).
      rewrite rnd_opp in A. lra.
    + assert (A : rnd (- y) <= rnd (- x)) by (apply rnd_le_pos; lra).
      rewrite !rnd_opp in A. lra.
Qed.

(** Numbers with a significand of 53 bits are left as they are. *)
Lemma rnd_exact (k e : Z) :
  (Z.abs k < 2 ^ 53)%Z -> rnd (IZR k * powerRZ 2 e) = IZR k * powerRZ 2 e.
Proof.
  intros Hk. destruct (Z.eq_dec k 0) as [->|K0].
  { rewrite Rmult_0_l. apply rnd_0. }
  set (x := IZR k * powerRZ 2 e). pose proof (two_pos e) as He.
  assert (Hx : x <> 0).
  { unfold x. apply Rmult_integral_contrapositive_currified; [|lra].
    intros H. apply eq_IZR in H. contradiction. }
  destruct (mag2_bounds x Hx) as [H1 H2].
  assert (Ha : Rabs x = IZR (Z.abs k) * powerRZ 2 e).
  { unfold x. rewrite Rabs_mult, (Rabs_pos_eq (powerRZ 2 e)) by lra.
    now rewrite abs_IZR. }
  assert (Hm : (mag2 x - 52 <= e)%Z).
  { assert (L : powerRZ 2 (mag2 x) < powerRZ 2 (53 + e)).
    { rewrite two_add, (two_IZR 53) by lia. rewrite Ha in H1.
      apply IZR_lt in Hk. eapply Rle_lt_trans; [exact H1|].
      apply Rmult_lt_compat_r; lra. }
    apply two_lt_inv in L. lia. }
  unfold rnd. cbv zeta. fold x. set (s := (mag2 x - 52)%Z) in *.
  assert (Es : x * powerRZ 2 (- s) = IZR (k * 2 ^ (e - s))).
  { unfold x. rewrite mult_IZR, <- two_IZR by lia.
    rewrite Rmult_assoc, <- two_add. reflexivity. }
  rewrite Es, nearest_even_IZR, <- Es.
  rewrite Rmult_assoc, two_cancel. ring.
Qed.

Lemma rnd_IZR (k : Z) : (Z.abs k < 2 ^ 53)%Z -> rnd (IZR k) = IZR k.
Proof.
  intros H. pose proof (rnd_exact k 0 H) as E.
  cbn [powerRZ] in E. now rewrite Rmult_1_r in E.
Qed.

(** ** Rounding to decimals *)

Import Binary64.

Lemma Rabs_bound (x a : R) : Rabs x <= a -> - a <= x <= a.
Proof.
  intros H. pose proof (Rle_abs x). pose proof (Rle_abs (- x)) as H'.
  rewrite Rabs_Ropp in H'. lra.
Qed.

Lemma rnd_rel (x : R) :
  0 <= x -> (1 - / 10 ^ 9) * x <= rnd x <= (1 + / 10 ^ 9) * x.
Proof.
  intros Hx. pose proof (rnd_error x) as H.
  rewrite (Rabs_pos_eq x Hx) in H. apply Rabs_bound in H.
  assert (U : / 2 ^ 53 <= / 10 ^ 9).
  { apply Rinv_le_contravar; [apply pow_lt; lra|]. lra. }
  assert (A : / 2 ^ 53 * x <= / 10 ^ 9 * x) by (apply Rmult_le_compat_r; lra).
  lra.
Qed.

Lemma rnd_pos (x : R) : 0 < x -> 0 < rnd x.
Proof.
  intros Hx. destruct (rnd_rel x) as [H _]; [lra|].
  assert (0 < (1 - / 10 ^ 9) * x); [|lra].
  apply Rmult_lt_0_compat; lra.
Qed.

Lemma rnd_1 : rnd 1 = 1.
Proof. apply (rnd_IZR 1). reflexivity. Qed.

Lemma Math_round_near (y : R) (k : Z) :
  IZR k - / 2 <= y < IZR k + / 2 -> Math_round y = IZR k.
Proof.
  intros H. unfold Math_round. f_equal. symmetry. apply Int_part_spec. lra.
Qed.

Lemma quotient_between (s d lo hi : R) :
  0 < d -> lo * d <= s <= hi * d -> lo <= s / d <= hi.
Proof.
  intros Hd [H1 H2]. split.
  - apply Rmult_le_reg_r with d; [lra|].
    unfold Rdiv. rewrite Rmult_assoc, Rinv_l by lra. lra.
  - apply Rmult_le_reg_r with d; [lra|].
    unfold Rdiv. rewrite Rmult_assoc, Rinv_l by lra. lra.
Qed.

(** The quotient [compare] forms for two equal vectors of squared norm
    [s], rounded to four decimals. *)
Lemma self_quotient (s : R) :
  0 < s ->
  fmul (fsqrt s) (fsqrt s) <> 0
  /\ round (fdiv s (fmul (fsqrt s) (fsqrt s))) 4 = 1.
Proof.
  intros Hs. unfold round. cbv zeta. unfold fmul, fsqrt, fdiv.
  assert (Ht : 0 < sqrt s) by now apply sqrt_lt_R0.
  assert (Et : sqrt s * sqrt s = s) by (apply sqrt_sqrt; lra).
  destruct (rnd_rel (sqrt s)) as [R1 R2]; [lra|].
  set (r := rnd (sqrt s)) in *. set (t := sqrt s) in *.
  set (h := / 10 ^ 9) in *.
  assert (Hh : 0 < h <= / 1000000000).
  { unfold h. replace (10 ^ 9) with 1000000000 by lra. lra. }
  assert (Hr : 0 < r) by nra.
  assert (A1 : (1 - 3 * h) * s <= r * r <= (1 + 3 * h) * s).
  { assert (L : (1 - h) * t * ((1 - h) * t) <= r * r)
      by (apply Rmult_le_compat; nra).
    assert (U : r * r <= (1 + h) * t * ((1 + h) * t))
      by (apply Rmult_le_compat; nra).
    replace ((1 - h) * t * ((1 - h) * t)) with ((1 - h) * (1 - h) * s) in L
      by (rewrite <- Et; ring).
    replace ((1 + h) * t * ((1 + h) * t)) with ((1 + h) * (1 + h) * s) in U
      by (rewrite <- Et; ring).
    nra. }
  destruct (rnd_rel (r * r)) as [R3 R4]; [nra|]. fold h in R3, R4.
  set (d := rnd (r * r)) in *.
  assert (A2 : (1 - 5 * h) * s <= d <= (1 + 5 * h) * s) by nra.
  assert (Hd : 0 < d) by nra.
  split; [lra|].
  assert (A3 : 1 - 6 * h <= s / d <= 1 + 6 * h).
  { apply quotient_between; [exact Hd|]. nra. }
  destruct (rnd_rel (s / d)) as [R5 R6]; [lra|]. fold h in R5, R6.
  set (q := rnd (s / d)) in *.
  assert (A4 : 1 - 8 * h <= q <= 1 + 8 * h) by nra.
  assert (E4 : (10 ^ 4 = 10000)%R) by (simpl; lra).
  rewrite E4.
  destruct (rnd_rel (q * 10000)) as [R7 R8]; [nra|]. fold h in R7, R8.
  set (y := rnd (q * 10000)) in *.
  assert (A5 : 10000 - / 2 <= y < 10000 + / 2) by nra.
  rewrite (Math_round_near y 10000 A5).
  replace (10000 / 10000) with 1 by lra. apply rnd_1.
Qed.

(** ** Rounded profiles *)

Lemma tabulate_acc {V} (g : jsstring -> V) (table : list jsstring)
      (acc : jsobj V) :
  NoDup (map fst acc ++ table) ->
  fold_left (fun prof c => obj_set c (g c) prof) table acc
  = acc ++ map (fun c => (c, g c)) table.
Proof.
  revert acc; induction table as [|c table IH]; intros acc Hnd; simpl.
  - now rewrite app_nil_r.
  - assert (Hc : ~ In c (map fst acc)).
    { apply NoDup_remove_2 in Hnd. intros H. apply Hnd, in_or_app. now left. }
    rewrite (obj_set_new c _ acc Hc), IH.
    + now rewrite <- app_assoc.
    + rewrite map_app, <- app_assoc. exact Hnd.
Qed.

Lemma rounded_profile_eq (table : list jsstring) (freq : jsobj Z) (total : Z) :
  NoDup table ->
  build_profile table freq total
  = map (fun c => (c, fdiv (IZR (count_or_0 freq c)) (IZR total))) table.
Proof.
  intros H. unfold build_profile.
  now rewrite (tabulate_acc (fun c => fdiv (IZR (count_or_0 freq c)) (IZR total))).
Qed.

Lemma rounded_profile_vector (table : list jsstring) (freq : jsobj Z) (total : Z) :
  NoDup table ->
  map (frac_or_0 (build_profile table freq total)) table
  = map (fun c => fdiv (IZR (count_or_0 freq c)) (IZR total)) table.
Proof.
  intros H. rewrite rounded_profile_eq by assumption. apply map_ext_in.
  intros c Hc. unfold frac_or_0.
  now rewrite (obj_get_tabulate
                 (fun c => fdiv (IZR (count_or_0 freq c)) (IZR total)) table c Hc).
Qed.

Lemma rounded_fingerprint_some (Math_log2 : R -> R) (text : jsstring) :
  decomposed_syllables text <> [] ->
  exists fp,
    fingerprint Math_log2 text = Some fp
    /\ (0 < totalSyllables (analyze text))%Z
    /\ choProfile fp = build_profile CHOSEONG (choFreq (analyze text))
                         (totalSyllables (analyze text))
    /\ jungProfile fp = build_profile JUNGSEONG (jungFreq (analyze text))
                          (totalSyllables (analyze text)).
Proof.
  intros Hne. destruct (analyze_facts text) as (Ht & _).
  assert (Hpos : (0 < totalSyllables (analyze text))%Z).
  { rewrite Ht. destruct (decomposed_syllables text); [congruence|].
    unfold len. simpl length. lia. }
  unfold fingerprint. destruct (totalSyllables (analyze text) =? 0)%Z eqn:E.
  - apply Z.eqb_eq in E. lia.
  - eexists. split; [reflexivity|]. cbn [choProfile jungProfile]. auto.
Qed.

(** ** A feature vector against itself *)

Lemma cosine_self_fold (v : list R) (z : R) :
  fold_left
    (fun (acc : R * R * R) (xy : R * R) =>
       let '(dot, magA, magB) := acc in
       (fadd dot (fmul (fst xy) (snd xy)),
        fadd magA (fmul (fst xy) (fst xy)),
        fadd magB (fmul (snd xy) (snd xy))))
    (combine v v) (z, z, z)
  = let s := fold_left (fun acc x => fadd acc (fmul x x)) v z in (s, s, s).
Proof.
  revert z; induction v as [|x v IH]; intros z; [reflexivity|].
  cbn [combine fold_left fst snd]. apply IH.
Qed.

Lemma squares_nonneg (v : list R) (z : R) :
  0 <= z -> 0 <= fold_left (fun acc x => fadd acc (fmul x x)) v z.
Proof.
  revert z; induction v as [|x v IH]; intros z Hz; [exact Hz|].
  cbn [fold_left]. apply IH. unfold fadd, fmul.
  apply rnd_nonneg. pose proof (rnd_nonneg (x * x)). nra.
Qed.

Lemma squares_keep_pos (v : list R) (z : R) :
  0 < z -> 0 < fold_left (fun acc x => fadd acc (fmul x x)) v z.
Proof.
  revert z; induction v as [|x v IH]; intros z Hz; [exact Hz|].
  cbn [fold_left]. apply IH. unfold fadd, fmul.
  apply rnd_pos. pose proof (rnd_nonneg (x * x)). nra.
Qed.

Lemma squares_pos (v : list R) (z x : R) :
  0 <= z -> In x v -> x <> 0 ->
  0 < fold_left (fun acc x => fadd acc (fmul x x)) v z.
Proof.
  revert z; induction v as [|y v IH]; intros z Hz Hin Hx; [contradiction|].
  cbn [fold_left]. destruct Hin as [->|Hin].
  - apply squares_keep_pos. unfold fadd, fmul. apply rnd_pos.
    assert (0 < rnd (x * x)); [apply rnd_pos; nra | lra].
  - apply IH; [|assumption..]. unfold fadd, fmul.
    apply rnd_nonneg. pose proof (rnd_nonneg (y * y)). nra.
Qed.

Lemma some_symbol_counted (syms : list jsstring) :
  syms <> [] -> exists c, In c syms /\ (0 < count_str c syms)%Z.
Proof.
  destruct syms as [|s syms]; [congruence|]. intros _.
  exists s. split; [now left|]. rewrite count_str_cons, str_eqb_refl.
  pose proof (count_str_nonneg s syms). lia.
Qed.

Lemma rounded_feature_vector_pos (Math_log2 : R -> R) (text : jsstring)
      (fp : Fingerprint) :
  decomposed_syllables text <> [] -> fingerprint Math_log2 text = Some fp ->
  exists x, In x (feature_vector fp) /\ x <> 0.
Proof.
  intros Hne Hfp.
  destruct (rounded_fingerprint_some Math_log2 text Hne)
    as (fp' & Hfp' & Hpos & Ec & _).
  rewrite Hfp in Hfp'. injection Hfp' as <-.
  destruct (analyze_facts text) as (Ht & Hc & _).
  destruct (some_symbol_counted (cho_syms (decomposed_syllables text)))
    as (c & Hin & Hcnt).
  { unfold cho_syms. destruct (decomposed_syllables text); [congruence|discriminate]. }
  apply cho_syms_in_table in Hin.
  exists (fdiv (IZR (count_or_0 (choFreq (analyze text)) c))
               (IZR (totalSyllables (analyze text)))).
  split.
  - unfold feature_vector. apply in_or_app. left.
    rewrite Ec, rounded_profile_vector by apply NoDup_CHOSEONG.
    apply in_map_iff. exists c. split; [reflexivity | exact Hin].
  - rewrite Hc. apply IZR_lt in Hcnt, Hpos.
    assert (0 < fdiv (IZR (count_str c (cho_syms (decomposed_syllables text))))
                     (IZR (totalSyllables (analyze text)))); [|lra].
    unfold fdiv. apply rnd_pos. now apply Rdiv_lt_0_compat.
Qed.

(** C6. Similarity identity: for every text with at least one
    decomposable syllable, [compare] of the text with itself is exactly 1
    after the rounding to 4 decimals.  In binary64 the quotient of the
    dot product by the product of the two norms misses 1 by a few units
    in the last place, and the rounding to four decimals returns 1; this
    holds whatever [Math.log2] computes. *)
Theorem compare_self_is_one (Math_log2 : R -> R) (text : jsstring) :
  decomposed_syllables text <> [] ->
  Binary64.compare Math_log2 text text = Some 1.
Proof.
  intros Hne.
  destruct (rounded_fingerprint_some Math_log2 text Hne) as (fp & Hfp & _).
  destruct (rounded_feature_vector_pos Math_log2 text fp Hne Hfp)
    as (x & Hin & Hx).
  unfold compare. rewrite Hfp. f_equal.
  unfold cosineSimilarity. rewrite cosine_self_fold. cbv zeta.
  set (s := fold_left (fun acc x => fadd acc (fmul x x)) (feature_vector fp) 0).
  assert (Hs : 0 < s) by (apply (squares_pos _ 0 x); [lra | exact Hin | exact Hx]).
  destruct (self_quotient s Hs) as [Hd Hq].
  destruct (Req_dec_T (fmul (fsqrt s) (fsqrt s)) 0) as [E|_]; [contradiction|].
  exact Hq.
Qed.

Lemma compare_self_is_one_witness :
  Binary64.compare (fun x => rnd (log2 x)) [0xD55C; 0xAE00]%Z [0xD55C; 0xAE00]%Z
  = Some 1.
Proof.
  apply (compare_self_is_one (fun x => rnd (log2 x)) [0xD55C; 0xAE00]%Z).
  vm_compute. discriminate.
Defined.

(** ** Bounds of the fingerprint *)

Lemma Math_round_upper (y : R) (k : Z) :
  y < IZR k + / 2 -> Math_round y <= IZR k.
Proof.
  intros H. unfold Math_round. destruct (base_Int_part (y + / 2)) as [H1 _].
  apply IZR_le. assert (L : IZR (Int_part (y + / 2)) < IZR (k + 1)).
  { rewrite plus_IZR. lra. }
  apply lt_IZR in L. lia.
Qed.

Lemma Math_round_lower (y : R) (k : Z) :
  IZR k - / 2 <= y -> IZR k <= Math_round y.
Proof.
  intros H. unfold Math_round. destruct (base_Int_part (y + / 2)) as [_ H2].
  apply IZR_le. assert (L : IZR (k - 1) < IZR (Int_part (y + / 2))).
  { rewrite minus_IZR. lra. }
  apply lt_IZR in L. lia.
Qed.

(** Rounding to three decimals keeps a value above the integer [a] and
    brings it down to 1 when it exceeds 1 by less than a millionth. *)
Lemma round3_bounds (x : R) (a : Z) :
  (-1 <= a <= 0)%Z ->
  IZR a <= x <= 1 + / 10 ^ 6 -> IZR a <= round x 3 <= 1.
Proof.
  intros Ha [H1 H2]. unfold round. cbv zeta. unfold fdiv, fmul.
  replace (10 ^ 3) with 1000 by lra.
  replace (10 ^ 6) with 1000000 in H2 by lra.
  assert (Y1 : IZR (a * 1000) <= rnd (x * 1000)).
  { rewrite <- (rnd_IZR (a * 1000)) by lia. apply rnd_le.
    rewrite mult_IZR. lra. }
  assert (Y2 : rnd (x * 1000) <= 1000 + / 100).
  { destruct (Rle_dec 0 x) as [P|P].
    - destruct (rnd_rel (x * 1000)) as [_ U]; [lra|].
      replace (10 ^ 9) with 1000000000 in U by lra. nra.
    - apply Rle_trans with (rnd 0); [apply rnd_le; lra | rewrite rnd_0; lra]. }
  set (y := rnd (x * 1000)) in *.
  assert (M1 : IZR (a * 1000) <= Math_round y) by (apply Math_round_lower; lra).
  assert (M2 : Math_round y <= IZR 1000) by (apply Math_round_upper; lra).
  rewrite mult_IZR in M1. split.
  - rewrite <- (rnd_IZR a) by lia. apply rnd_le. lra.
  - apply Rle_trans with (rnd 1); [apply rnd_le; lra | rewrite rnd_1; lra].
Qed.

Lemma rounded_brightness_bounds (b d : Z) :
  (0 <= b)%Z -> (0 <= d)%Z ->
  -1 <= fdiv (IZR (b - d)) (IZR (if (b + d =? 0)%Z then 1 else b + d)) <= 1.
Proof.
  intros Hb Hd. destruct (brightness_bounds b d Hb Hd) as [H1 H2].
  unfold fdiv. split.
  - rewrite <- (rnd_IZR (-1)) by reflexivity. now apply rnd_le.
  - apply Rle_trans with (rnd 1); [now apply rnd_le | rewrite rnd_1; lra].
Qed.

Lemma rounded_rhythm_bounds (lineLengths : list Z) :
  0 <= rhythmRegularity_of lineLengths <= 1.
Proof.
  unfold rhythmRegularity_of. cbv zeta.
  destruct (Rlt_dec 0 (avgLineLength_of lineLengths)) as [Havg|_]; [|lra].
  set (z := fdiv (fsqrt (lineVariance_of lineLengths)) (avgLineLength_of lineLengths)).
  assert (Hz : 0 <= z).
  { unfold z, fdiv, fsqrt. apply rnd_nonneg.
    apply Rmult_le_pos; [apply rnd_nonneg, sqrt_pos|].
    left. now apply Rinv_0_lt_compat. }
  pose proof (Rmin_l 1 z).
  assert (0 <= Rmin 1 z) by (apply Rmin_glb; lra).
  unfold fsub. split.
  - apply rnd_nonneg. lra.
  - apply Rle_trans with (rnd 1); [apply rnd_le; lra | rewrite rnd_1; lra].
Qed.

(** ** Entropy under rounding *)

Lemma tolerance_small : 0 < / 10 ^ 9 <= / 1000000000.
Proof. replace (10 ^ 9) with 1000000000 by lra. lra. Qed.

Lemma pow_1_plus (h : R) (n : nat) :
  0 <= h -> INR n * h <= / 2 -> (1 + h) ^ n <= 1 + 2 * INR n * h.
Proof.
  intros Hh. induction n as [|n IH]; intros Hn.
  - simpl. lra.
  - rewrite S_INR in *. assert (H0 : 0 <= INR n) by apply pos_INR.
    assert (IH' : (1 + h) ^ n <= 1 + 2 * INR n * h) by (apply IH; nra).
    cbn [pow]. assert (P : 0 <= (1 + h) ^ n) by (apply pow_le; lra).
    apply Rle_trans with ((1 + h) * (1 + 2 * INR n * h)).
    + apply Rmult_le_compat_l; lra.
    + nra.
Qed.

Lemma log2_nonpos (p : R) : 0 < p <= 1 -> log2 p <= 0.
Proof.
  intros [H0 H1]. unfold log2. pose proof ln2_pos.
  assert (Hl : ln p <= 0).
  { destruct (Req_dec p 1) as [->|N]; [rewrite ln_1; lra|].
    rewrite <- ln_1. left. apply ln_increasing; lra. }
  apply Rmult_le_reg_r with (ln 2); [assumption|].
  unfold Rdiv. rewrite Rmult_assoc, Rinv_l by lra. lra.
Qed.

Lemma accurate_log2_nonpos (Math_log2 : R -> R) (p : R) :
  log2_accurate Math_log2 -> 0 < p <= 1 ->
  (1 + / 10 ^ 9) * log2 p <= Math_log2 p <= 0.
Proof.
  intros HL Hp. pose proof (log2_nonpos p Hp) as Hl.
  pose proof (HL p (proj1 Hp)) as H. apply Rabs_bound in H.
  rewrite Rabs_left1 in H by assumption. pose proof tolerance_small.
  split; nra.
Qed.

Lemma plogp_nonpos (p : R) : 0 < p <= 1 -> plogp p = p * log2 p /\ plogp p <= 0.
Proof.
  intros Hp. pose proof (log2_nonpos p Hp). unfold plogp.
  destruct (Rlt_dec 0 p); [|lra]. split; [reflexivity | nra].
Qed.

Lemma Rsum_plogp_nonpos (ps : list R) :
  (forall p, In p ps -> 0 < p <= 1) -> Rsum (map plogp ps) <= 0.
Proof.
  induction ps as [|p ps IH]; intros H; cbn [map Rsum]; [lra|].
  destruct (plogp_nonpos p) as [_ Hp]; [apply H; now left|].
  assert (Rsum (map plogp ps) <= 0) by (apply IH; intros; apply H; now right).
  lra.
Qed.

(** The accumulation of [shannonEntropy] with rounded products and sums
    against the exact sum. *)
Lemma entropy_fold (Math_log2 : R -> R) (ps : list R) (acc : R) :
  log2_accurate Math_log2 -> acc <= 0 ->
  (forall p, In p ps -> 0 < p <= 1) ->
  let F := fold_left
             (fun sum p =>
                fadd sum (if Rlt_dec 0 p then fmul p (Math_log2 p) else 0))
             ps acc in
  F <= 0
  /\ - F <= (1 + / 10 ^ 9) ^ length ps
            * (- acc + (1 + / 10 ^ 9) * (1 + / 10 ^ 9) * - Rsum (map plogp ps)).
Proof.
  intros HL. cbv zeta. pose proof tolerance_small as Hh.
  set (h := / 10 ^ 9) in *.
  revert acc; induction ps as [|p ps IH]; intros acc Hacc Hps.
  - cbn [fold_left length map Rsum pow]. split; [exact Hacc | lra].
  - assert (Hp : 0 < p <= 1) by (apply Hps; now left).
    assert (Hps' : forall q, In q ps -> 0 < q <= 1) by (intros; apply Hps; now right).
    cbn [fold_left length map Rsum pow].
    destruct (Rlt_dec 0 p) as [_|N]; [|lra].
    destruct (accurate_log2_nonpos Math_log2 p HL Hp) as [L1 L2]. fold h in L1.
    destruct (plogp_nonpos p Hp) as [Ep Np]. rewrite Ep in *.
    set (l := log2 p) in *. set (m := Math_log2 p) in *.
    pose proof (Rsum_plogp_nonpos ps Hps') as HS.
    set (S' := Rsum (map plogp ps)) in *.
    (* the rounded product *)
    assert (G0 : 0 <= - (p * m) <= (1 + h) * - (p * l)) by nra.
    assert (G : 0 <= - fmul p m <= (1 + h) * (1 + h) * - (p * l)).
    { unfold fmul. rewrite <- rnd_opp.
      destruct (rnd_rel (- (p * m))) as [_ U]; [lra|]. fold h in U.
      split; [apply rnd_nonneg; lra|]. nra. }
    set (g := fmul p m) in *.
    (* the rounded sum *)
    assert (A : fadd acc g <= 0
                /\ - fadd acc g <= (1 + h) * (- acc + (1 + h) * (1 + h) * - (p * l))).
    { unfold fadd. rewrite <- rnd_opp.
      destruct (rnd_rel (- (acc + g))) as [_ U]; [lra|]. fold h in U.
      assert (0 <= rnd (- (acc + g))) by (apply rnd_nonneg; lra).
      split; [rewrite rnd_opp in *; lra|].
      eapply Rle_trans; [exact U|]. apply Rmult_le_compat_l; lra. }
    destruct A as [A1 A2].
    destruct (IH (fadd acc g) A1 Hps') as [I1 I2].
    split; [exact I1|].
    eapply Rle_trans; [exact I2|].
    assert (E : 1 <= (1 + h) ^ length ps) by (apply pow_R1_Rle; lra).
    set (P := (1 + h) ^ length ps) in *.
    replace ((1 + h) * P * (- acc + (1 + h) * (1 + h) * - (p * l + S')))
      with (P * ((1 + h) * (- acc + (1 + h) * (1 + h) * - (p * l + S')))) by ring.
    apply Rmult_le_compat_l; [lra|].
    set (K := (1 + h) * (1 + h)) in *.
    assert (HK : 0 <= K * - S') by (unfold K; nra).
    nra.
Qed.

Lemma ln_monotone (x y : R) : 0 < x -> x <= y -> ln x <= ln y.
Proof.
  intros Hx [H| ->]; [|lra]. left. now apply ln_increasing.
Qed.

Lemma ln_3_ge_1 : 1 <= ln 3.
Proof.
  rewrite <- (ln_exp 1) at 1.
  apply ln_monotone; [apply exp_pos | apply exp_le_3].
Qed.

Lemma entropy_sum_bound (ps : list R) (N : R) :
  (forall p, In p ps -> 0 < p) -> INR (length ps) <= N -> 3 <= N ->
  Rsum ps <= 1 + / 10 ^ 9 ->
  - Rsum (map plogp ps) <= (1 + / 10 ^ 9) * log2 N.
Proof.
  intros Hpos Hlen HN HS. pose proof tolerance_small as Hh.
  set (h := / 10 ^ 9) in *.
  rewrite Rsum_plogp_scale by assumption.
  pose proof (plogp_sum_lower ps N ltac:(lra) Hpos) as H.
  assert (Hk : INR (length ps) / N <= 1) by (by_divisor N).
  assert (Hln : 1 <= ln N).
  { apply Rle_trans with (ln 3); [apply ln_3_ge_1 | apply ln_monotone; lra]. }
  pose proof inv_ln2_pos as H2. unfold log2, Rdiv.
  assert (Hm : - Rsum (map (fun p => p * ln p) ps) <= (1 + h) * ln N) by nra.
  generalize dependent (Rsum (map (fun p => p * ln p) ps)).
  generalize dependent (/ ln 2). generalize dependent (ln N).
  intros; nra.
Qed.

Lemma count_str_le_len (c : jsstring) (syms : list jsstring) :
  (count_str c syms <= len syms)%Z.
Proof.
  unfold count_str, len. apply Nat2Z.inj_le, filter_length_le.
Qed.

Lemma Rsum_le_scaled {A} (f g : A -> R) (K : R) (l : list A) :
  (forall c, In c l -> f c <= K * g c) ->
  Rsum (map f l) <= K * Rsum (map g l).
Proof.
  induction l as [|c l IH]; intros H; cbn [map Rsum]; [lra|].
  assert (f c <= K * g c) by (apply H; now left).
  assert (Rsum (map f l) <= K * Rsum (map g l))
    by (apply IH; intros; apply H; now right).
  lra.
Qed.

Lemma rounded_share_bounds (c t : Z) :
  (0 <= c <= t)%Z -> (0 < t)%Z ->
  0 <= fdiv (IZR c) (IZR t) <= 1
  /\ fdiv (IZR c) (IZR t) <= (1 + / 10 ^ 9) * (IZR c / IZR t).
Proof.
  intros Hc Ht. destruct (ratio_bounds c t Hc Ht) as [H0 H1].
  unfold fdiv. destruct (rnd_rel (IZR c / IZR t) H0) as [_ U].
  repeat split; [now apply rnd_nonneg | | exact U].
  apply Rle_trans with (rnd 1); [now apply rnd_le | rewrite rnd_1; lra].
Qed.

Lemma rounded_diversity_bounds (Math_log2 : R -> R) (table : list jsstring)
      (freq : jsobj Z) (total : Z) (syms : list jsstring) :
  log2_accurate Math_log2 ->
  NoDup table -> (forall s, In s syms -> In s table) ->
  (forall c, count_or_0 freq c = count_str c syms) ->
  total = len syms -> (0 < total)%Z -> (3 <= len table <= 21)%Z ->
  0 <= diversity_of Math_log2 table (build_profile table freq total)
    <= 1 + / 10 ^ 6.
Proof.
  intros HL Hnd Hsub Hcnt Htot Hpos Hlen. pose proof tolerance_small as Hh.
  unfold diversity_of. cbv zeta.
  set (N := IZR (len table)).
  assert (HN : 3 <= N <= 21) by (unfold N; split; apply IZR_le; lia).
  assert (Hln : 1 <= ln N).
  { apply Rle_trans with (ln 3); [apply ln_3_ge_1 | apply ln_monotone; lra]. }
  pose proof inv_ln2_pos as H2.
  assert (HlN : 0 < log2 N).
  { unfold log2, Rdiv. apply Rmult_lt_0_compat; lra. }
  pose proof (HL N ltac:(lra)) as HM. apply Rabs_bound in HM.
  rewrite (Rabs_pos_eq (log2 N)) in HM by lra.
  set (h := / 10 ^ 9) in *.
  set (M := Math_log2 N) in *.
  assert (HM' : (1 - h) * log2 N <= M) by lra.
  assert (HMpos : 0 < M) by nra.
  destruct (Rlt_dec 0 M) as [_|C]; [|contradiction].
  rewrite rounded_profile_eq, map_map by assumption. cbn [snd].
  change (fun v : R => if Rlt_dec 0 v then true else false) with is_pos.
  set (vs := map (fun c => fdiv (IZR (count_or_0 freq c)) (IZR total)) table).
  assert (Hc : forall c, (0 <= count_or_0 freq c <= total)%Z).
  { intros c. rewrite Hcnt, Htot.
    pose proof (count_str_nonneg c syms). pose proof (count_str_le_len c syms). lia. }
  assert (Hv : forall v, In v vs -> 0 <= v <= 1).
  { intros v Hin. apply in_map_iff in Hin as (c & <- & _).
    apply rounded_share_bounds; [apply Hc | exact Hpos]. }
  assert (Hsum : Rsum (filter is_pos vs) <= 1 + h).
  { rewrite (Rsum_filter_pos vs) by (intros v Hin; apply Hv, Hin).
    unfold vs.
    eapply Rle_trans;
      [apply (Rsum_le_scaled _ (fun c => IZR (count_or_0 freq c) / IZR total) (1 + h))|].
    - intros c _. apply rounded_share_bounds; [apply Hc | exact Hpos].
    - rewrite Rsum_scaled.
      rewrite (map_ext _ (fun c => count_str c syms)) by exact Hcnt.
      rewrite (Zsum_count table syms Hnd Hsub), <- Htot.
      apply IZR_lt in Hpos. replace (IZR total / IZR total) with 1 by (field; lra).
      lra. }
  set (ps := filter is_pos vs) in *.
  assert (Hp : forall p, In p ps -> 0 < p <= 1).
  { intros p Hin. apply filter_In in Hin as [Hin Hq]. unfold is_pos in Hq.
    destruct (Rlt_dec 0 p); [|discriminate]. pose proof (Hv p Hin). lra. }
  assert (Hk : (length ps <= 21)%nat).
  { apply Nat.le_trans with (length vs); [apply filter_length_le|].
    unfold vs. rewrite length_map. unfold len in Hlen. lia. }
  destruct (entropy_fold Math_log2 ps 0 HL ltac:(lra) Hp) as [F1 F2].
  cbv zeta in F1, F2. fold h in F2.
  unfold shannonEntropy.
  set (F := fold_left _ ps 0) in *.
  assert (S1 : - Rsum (map plogp ps) <= (1 + h) * log2 N).
  { apply entropy_sum_bound; [intros p Hin; apply Hp, Hin | | lra | exact Hsum].
    apply Rle_trans with (INR (length vs)); [apply le_INR, filter_length_le|].
    unfold vs. rewrite length_map. unfold N, len. rewrite <- INR_IZR_INZ. lra. }
  pose proof (Rsum_plogp_nonpos ps Hp) as S0.
  set (X := - Rsum (map plogp ps)) in *.
  assert (P1 : (1 + h) ^ length ps <= 1 + 42 * h).
  { apply Rle_trans with ((1 + h) ^ 21).
    - apply Rle_pow; [lra | exact Hk].
    - pose proof (pow_1_plus h 21 ltac:(lra)) as Q.
      replace (INR 21) with 21 in Q by (simpl; lra).
      assert (21 * h <= / 2) by lra. lra. }
  assert (P0 : 1 <= (1 + h) ^ length ps) by (apply pow_R1_Rle; lra).
  set (P := (1 + h) ^ length ps) in *.
  assert (HF : - F <= (1 + 50 * h) * log2 N).
  { eapply Rle_trans; [exact F2|].
    replace (- 0 + (1 + h) * (1 + h) * X) with ((1 + h) * (1 + h) * X) by ring.
    assert (X <= (1 + h) * log2 N) by lra.
    assert (0 <= X) by (unfold X; lra).
    assert (K : 1 <= (1 + h) * (1 + h) <= 1 + 3 * h) by nra.
    set (k := (1 + h) * (1 + h)) in *.
    assert (Q1 : k * X <= (1 + 3 * h) * X) by (apply Rmult_le_compat_r; lra).
    assert (Q2 : (1 + 3 * h) * X <= (1 + 3 * h) * ((1 + h) * log2 N))
      by (apply Rmult_le_compat_l; lra).
    assert (Q : k * X <= (1 + 5 * h) * log2 N) by nra.
    assert (0 <= k * X) by nra.
    apply Rle_trans with ((1 + 42 * h) * ((1 + 5 * h) * log2 N)); [|nra].
    apply Rmult_le_compat; lra. }
  assert (Q : 0 <= - F / M <= 1 + 52 * h).
  { apply quotient_between; [exact HMpos|]. split; [lra|]. nra. }
  unfold fdiv. split; [apply rnd_nonneg; lra|].
  destruct (rnd_rel (- F / M)) as [_ U]; [lra|]. fold h in U.
  replace (10 ^ 6) with 1000000 by lra. nra.
Qed.

Lemma nearest_log2_accurate : log2_accurate (fun x => rnd (log2 x)).
Proof.
  intros x _. eapply Rle_trans; [apply rnd_error|].
  apply Rmult_le_compat_r; [apply Rabs_pos|].
  apply Rinv_le_contravar; [apply pow_lt; lra | lra].
Qed.

(** C5. Fingerprint boundedness: [fingerprint] returns [null] exactly when
    the text has no decomposable syllable; when it returns a fingerprint,
    the brightness lies in [-1, 1] and the weight, the rhythm regularity,
    the consonant diversity and the vowel diversity each lie in [0, 1].
    In binary64 the two diversities can exceed 1 before they are rounded
    to three decimals, by less than a millionth when [Math.log2] is
    accurate to nine digits; the rounding brings them back to 1. *)
Theorem fingerprint_bounded (Math_log2 : R -> R) (text : jsstring) :
  log2_accurate Math_log2 ->
  match Binary64.fingerprint Math_log2 text with
  | None => decomposed_syllables text = []
  | Some fp =>
      decomposed_syllables text <> []
      /\ -1 <= brightness fp <= 1
      /\ 0 <= weight fp <= 1
      /\ 0 <= rhythmRegularity fp <= 1
      /\ 0 <= consonantDiversity fp <= 1
      /\ 0 <= vowelDiversity fp <= 1
  end.
Proof.
  intros HL.
  destruct (analyze_facts text) as (Ht & Hc & Hj & Hb & Hd & Hw & Hr).
  unfold fingerprint. destruct (totalSyllables (analyze text) =? 0)%Z eqn:E.
  - apply Z.eqb_eq in E. rewrite E in Ht.
    destruct (decomposed_syllables text); [reflexivity|].
    unfold len in Ht. simpl in Ht. lia.
  - apply Z.eqb_neq in E.
    assert (Hpos : (0 < totalSyllables (analyze text))%Z)
      by (rewrite Ht in *; pose proof (len_nonneg (decomposed_syllables text)); lia).
    cbn [brightness weight rhythmRegularity consonantDiversity vowelDiversity].
    assert (S6 : 0 < / 10 ^ 6) by (apply Rinv_0_lt_compat, pow_lt; lra).
    split.
    { intros Hnil. rewrite Ht, Hnil in Hpos. unfold len in Hpos.
      simpl in Hpos. lia. }
    split.
    { apply (round3_bounds _ (-1)); [lia|].
      pose proof (rounded_brightness_bounds _ _ Hb Hd). lra. }
    split.
    { apply (round3_bounds _ 0); [lia|].
      rewrite Hr.
      destruct (totalSyllables (analyze text) =? 0)%Z eqn:E0;
        [apply Z.eqb_eq in E0; lia|].
      destruct (rounded_share_bounds _ _ Hw Hpos) as [H _]. unfold fdiv in H. lra. }
    split.
    { apply (round3_bounds _ 0); [lia|].
      pose proof (rounded_rhythm_bounds (lineLengths_of text)). lra. }
    split; apply (round3_bounds _ 0); try lia.
    + apply (rounded_diversity_bounds _ CHOSEONG _ _
               (cho_syms (decomposed_syllables text)));
        [ exact HL | apply NoDup_CHOSEONG | apply cho_syms_in_table | exact Hc
        | unfold cho_syms; rewrite len_map; exact Ht | exact Hpos
        | vm_compute; split; discriminate ].
    + apply (rounded_diversity_bounds _ JUNGSEONG _ _
               (jung_syms (decomposed_syllables text)));
        [ exact HL | apply NoDup_JUNGSEONG | apply jung_syms_in_table | exact Hj
        | unfold jung_syms; rewrite len_map; exact Ht | exact Hpos
        | vm_compute; split; discriminate ].
Qed.

Lemma fingerprint_bounded_witness :
  match Binary64.fingerprint (fun x => rnd (log2 x)) [0xD55C; 0xAE00]%Z with
  | None => decomposed_syllables [0xD55C; 0xAE00]%Z = []
  | Some fp =>
      decomposed_syllables [0xD55C; 0xAE00]%Z <> []
      /\ -1 <= brightness fp <= 1
      /\ 0 <= weight fp <= 1
      /\ 0 <= rhythmRegularity fp <= 1
      /\ 0 <= consonantDiversity fp <= 1
      /\ 0 <= vowelDiversity fp <= 1
  end.
Proof.
  apply (fingerprint_bounded (fun x => rnd (log2 x)) [0xD55C; 0xAE00]%Z).
  exact nearest_log2_accurate.
Defined.

(** ** The range of the similarity *)

Lemma rnd_abs_le (x : R) : Rabs (rnd x) <= (1 + / 10 ^ 9) * Rabs x.
Proof.
  unfold Rabs at 2. destruct (Rcase_abs x) as [N|P].
  - rewrite Rabs_left1.
    + rewrite <- rnd_opp. destruct (rnd_rel (- x)); lra.
    + replace x with (- - x) by ring. rewrite rnd_opp.
      pose proof (rnd_nonneg (- x)). lra.
  - rewrite Rabs_pos_eq by (apply rnd_nonneg; lra).
    destruct (rnd_rel x); lra.
Qed.

Lemma pow_1_minus (h : R) (n : nat) :
  0 <= h <= 1 -> 1 - INR n * h <= (1 - h) ^ n.
Proof.
  intros Hh. induction n as [|n IH].
  - simpl. lra.
  - rewrite S_INR. cbn [pow]. pose proof (pos_INR n).
    assert (P : 0 <= (1 - h) ^ n) by (apply pow_le; lra).
    destruct (Rle_dec 0 (1 - INR n * h)) as [Q|Q].
    + apply Rle_trans with ((1 - h) * (1 - INR n * h)); [nra|].
      apply Rmult_le_compat_l; lra.
    + assert (0 <= (1 - h) * (1 - h) ^ n) by (apply Rmult_le_pos; lra). nra.
Qed.

(** The three accumulators of [cosineSimilarity] against the exact sums:
    the dot product from above, the squared norms from below. *)
Lemma cosine_fold_bounds (ab : list (R * R)) (d mA mB : R) :
  0 <= mA -> 0 <= mB ->
  let '(d', mA', mB') :=
    fold_left
      (fun (acc : R * R * R) (xy : R * R) =>
         let '(dot, magA, magB) := acc in
         (fadd dot (fmul (fst xy) (snd xy)),
          fadd magA (fmul (fst xy) (fst xy)),
          fadd magB (fmul (snd xy) (snd xy))))
      ab (d, mA, mB) in
  Rabs d' <= (1 + / 10 ^ 9) ^ length ab
             * (Rabs d + (1 + / 10 ^ 9)
                         * Rsum (map (fun xy => Rabs (fst xy) * Rabs (snd xy)) ab))
  /\ (1 - / 10 ^ 9) ^ length ab
     * (mA + (1 - / 10 ^ 9) * Rsum (map (fun xy => fst xy * fst xy) ab)) <= mA'
  /\ (1 - / 10 ^ 9) ^ length ab
     * (mB + (1 - / 10 ^ 9) * Rsum (map (fun xy => snd xy * snd xy) ab)) <= mB'.
Proof.
  pose proof tolerance_small as Hh. set (h := / 10 ^ 9) in *.
  revert d mA mB; induction ab as [|[x y] ab IH]; intros d mA mB HA HB.
  - cbn [fold_left length map Rsum pow]. repeat split; lra.
  - cbn [fold_left length map Rsum pow fst snd].
    set (T := Rsum (map (fun xy => Rabs (fst xy) * Rabs (snd xy)) ab)).
    set (SA := Rsum (map (fun xy => fst xy * fst xy) ab)).
    set (SB := Rsum (map (fun xy => snd xy * snd xy) ab)).
    assert (HT : 0 <= T).
    { unfold T. clear. induction ab as [|[u v] ab IH]; cbn [map Rsum fst snd]; [lra|].
      pose proof (Rabs_pos u). pose proof (Rabs_pos v). nra. }
    assert (HSA : 0 <= SA).
    { unfold SA. clear. induction ab as [|[u v] ab IH]; cbn [map Rsum fst snd]; [lra|]. nra. }
    assert (HSB : 0 <= SB).
    { unfold SB. clear. induction ab as [|[u v] ab IH]; cbn [map Rsum fst snd]; [lra|]. nra. }
    (* one step *)
    assert (D1 : Rabs (fadd d (fmul x y))
                 <= (1 + h) * (Rabs d + (1 + h) * (Rabs x * Rabs y))).
    { unfold fadd, fmul. eapply Rle_trans; [apply rnd_abs_le|]. fold h.
      apply Rmult_le_compat_l; [lra|].
      eapply Rle_trans; [apply Rabs_triang|].
      pose proof (rnd_abs_le (x * y)) as Q. fold h in Q.
      rewrite Rabs_mult in Q. lra. }
    assert (Sq : forall m z, 0 <= m ->
               (1 - h) * (m + (1 - h) * (z * z)) <= fadd m (fmul z z)).
    { intros m z Hm. unfold fadd, fmul.
      assert (Z0 : 0 <= z * z) by nra.
      destruct (rnd_rel (z * z) Z0) as [L _]. fold h in L.
      assert (0 <= rnd (z * z)) by now apply rnd_nonneg.
      destruct (rnd_rel (m + rnd (z * z))) as [L' _]; [lra|]. fold h in L'.
      eapply Rle_trans; [|exact L']. apply Rmult_le_compat_l; lra. }
    pose proof (Sq mA x HA) as A1. pose proof (Sq mB y HB) as B1.
    assert (A0 : 0 <= fadd mA (fmul x x)).
    { unfold fadd, fmul. apply rnd_nonneg. pose proof (rnd_nonneg (x * x)). nra. }
    assert (B0 : 0 <= fadd mB (fmul y y)).
    { unfold fadd, fmul. apply rnd_nonneg. pose proof (rnd_nonneg (y * y)). nra. }
    specialize (IH (fadd d (fmul x y)) (fadd mA (fmul x x)) (fadd mB (fmul y y)) A0 B0).
    destruct (fold_left _ ab _) as [[d' mA'] mB'].
    destruct IH as (I1 & I2 & I3). fold T in I1. fold SA in I2. fold SB in I3.
    assert (E : 1 <= (1 + h) ^ length ab) by (apply pow_R1_Rle; lra).
    assert (F : 0 <= (1 - h) ^ length ab) by (apply pow_le; lra).
    set (P := (1 + h) ^ length ab) in *. set (Q := (1 - h) ^ length ab) in *.
    pose proof (Rabs_pos d). pose proof (Rabs_pos x). pose proof (Rabs_pos y).
    assert (Hxy : 0 <= Rabs x * Rabs y) by nra.
    assert (T1 : 0 <= h * T) by nra. assert (T2 : 0 <= h * (h * T)) by nra.
    assert (A2 : 0 <= h * SA) by nra. assert (A3 : 0 <= h * (h * SA)) by nra.
    assert (B2 : 0 <= h * SB) by nra. assert (B3 : 0 <= h * (h * SB)) by nra.
    repeat split.
    + eapply Rle_trans; [exact I1|].
      replace ((1 + h) * P * (Rabs d + (1 + h) * (Rabs x * Rabs y + T)))
        with (P * ((1 + h) * (Rabs d + (1 + h) * (Rabs x * Rabs y + T)))) by ring.
      apply Rmult_le_compat_l; [lra|]. nra.
    + eapply Rle_trans; [|exact I2].
      replace ((1 - h) * Q * (mA + (1 - h) * (x * x + SA)))
        with (Q * ((1 - h) * (mA + (1 - h) * (x * x + SA)))) by ring.
      apply Rmult_le_compat_l; [lra|]. nra.
    + eapply Rle_trans; [|exact I3].
      replace ((1 - h) * Q * (mB + (1 - h) * (y * y + SB)))
        with (Q * ((1 - h) * (mB + (1 - h) * (y * y + SB)))) by ring.
      apply Rmult_le_compat_l; [lra|]. nra.
Qed.

Lemma round_clamp (x : R) (d : nat) :
  (d <= 4)%nat -> -1 - / 10 ^ 6 <= x <= 1 + / 10 ^ 6 ->
  -1 <= round x d <= 1.
Proof.
  intros Hd [H1 H2]. unfold round. cbv zeta. unfold fdiv, fmul.
  pose proof tolerance_small as Hh. set (h := / 10 ^ 9) in *.
  replace (10 ^ 6) with 1000000 in * by lra.
  set (F := (10 ^ Z.of_nat d)%Z).
  assert (EF : (10 ^ d)%R = IZR F) by (unfold F; rewrite <- pow_IZR; reflexivity).
  assert (HF : (1 <= F <= 10000)%Z).
  { unfold F. split.
    - apply (Z.pow_le_mono_r 10 0); lia.
    - apply (Z.pow_le_mono_r 10 _ 4); lia. }
  rewrite EF. assert (HF' : 1 <= IZR F <= 10000) by (split; apply IZR_le; lia).
  set (f := IZR F) in *.
  pose proof (rnd_abs_le (x * f)) as A. fold h in A.
  assert (B : Rabs (x * f) <= f + / 100).
  { apply Rabs_le. split; nra. }
  apply Rabs_bound in A. pose proof (Rabs_pos (x * f)) as B0.
  set (r := Rabs (x * f)) in *.
  assert (C : h * r <= / 1000).
  { apply Rle_trans with (/ 1000000000 * 10001); [|lra].
    apply Rmult_le_compat; lra. }
  set (y := rnd (x * f)) in *.
  assert (Y : - f - / 2 < y < f + / 2) by lra.
  assert (M1 : IZR (- F) <= Math_round y).
  { apply Math_round_lower. rewrite opp_IZR. fold f. lra. }
  assert (M2 : Math_round y <= IZR F).
  { apply Math_round_upper. fold f. lra. }
  rewrite opp_IZR in M1. fold f in M1, M2.
  assert (Q : -1 <= Math_round y / f <= 1).
  { replace (-1) with (- (1)) by ring. split.
    - apply Rmult_le_reg_r with f; [lra|].
      unfold Rdiv. rewrite Rmult_assoc, Rinv_l by lra. lra.
    - apply Rmult_le_reg_r with f; [lra|].
      unfold Rdiv. rewrite Rmult_assoc, Rinv_l by lra. lra. }
  split.
  - rewrite <- (rnd_IZR (-1)) by reflexivity. apply rnd_le. lra.
  - apply Rle_trans with (rnd 1); [apply rnd_le; lra | rewrite rnd_1; lra].
Qed.

Lemma square_le_inv (x y : R) : 0 <= x -> 0 <= y -> x ^ 2 <= y ^ 2 -> x <= y.
Proof.
  intros Hx Hy H. destruct (Rle_dec x y) as [L|L]; [exact L|].
  exfalso. simpl in H. nra.
Qed.

Lemma Rsum_abs_products (ab : list (R * R)) :
  Rsum (map (fun xy => Rabs (fst xy) * Rabs (snd xy)) ab) ^ 2
  <= Rsum (map (fun xy => fst xy * fst xy) ab)
     * Rsum (map (fun xy => snd xy * snd xy) ab).
Proof.
  pose proof (cauchy_schwarz
                (map (fun xy => (Rabs (fst xy), Rabs (snd xy))) ab)) as H.
  unfold Rsq in H. rewrite !map_map in H. cbn [fst snd] in H.
  rewrite (map_ext (fun x : R * R => Rabs (fst x) ^ 2) (fun xy => fst xy * fst xy)) in H
    by (intros; rewrite pow2_abs; ring).
  rewrite (map_ext (fun x : R * R => Rabs (snd x) ^ 2) (fun xy => snd xy * snd xy)) in H
    by (intros; rewrite pow2_abs; ring).
  exact H.
Qed.

Lemma Rsum_nonneg {A} (f : A -> R) (l : list A) :
  (forall x, 0 <= f x) -> 0 <= Rsum (map f l).
Proof.
  intros H. induction l as [|x l IH]; cbn [map Rsum]; [lra|].
  pose proof (H x). lra.
Qed.

(** Before its rounding to four decimals the similarity may leave
    [-1, 1], by less than a millionth. *)
Lemma rounded_cosine_range (a b : list R) :
  (length (combine a b) <= 44)%nat ->
  -1 - / 10 ^ 6 <= cosineSimilarity a b <= 1 + / 10 ^ 6.
Proof.
  intros Hn. unfold cosineSimilarity. cbv zeta.
  pose proof (cosine_fold_bounds (combine a b) 0 0 0 ltac:(lra) ltac:(lra)) as H.
  pose proof (Rsum_abs_products (combine a b)) as CS.
  pose proof tolerance_small as Hh. set (h := / 10 ^ 9) in *.
  replace (10 ^ 6) with 1000000 by lra.
  set (ab := combine a b) in *.
  destruct (fold_left _ ab _) as [[d mA] mB].
  destruct H as (H1 & H2 & H3).
  set (T := Rsum (map (fun xy => Rabs (fst xy) * Rabs (snd xy)) ab)) in *.
  set (SA := Rsum (map (fun xy => fst xy * fst xy) ab)) in *.
  set (SB := Rsum (map (fun xy => snd xy * snd xy) ab)) in *.
  assert (HT : 0 <= T).
  { apply Rsum_nonneg. intros [x y]. cbn [fst snd].
    pose proof (Rabs_pos x). pose proof (Rabs_pos y). nra. }
  assert (HSA : 0 <= SA) by (apply Rsum_nonneg; intros [x y]; cbn [fst snd]; nra).
  assert (HSB : 0 <= SB) by (apply Rsum_nonneg; intros [x y]; cbn [fst snd]; nra).
  assert (Hlen : INR (length ab) <= 44).
  { replace 44 with (INR 44) by (simpl; lra). now apply le_INR. }
  pose proof (pos_INR (length ab)) as Hn0.
  assert (P1 : (1 + h) ^ length ab <= 1 + 88 * h).
  { eapply Rle_trans; [apply pow_1_plus; [lra | nra]|]. nra. }
  assert (P2 : 1 - 44 * h <= (1 - h) ^ length ab).
  { eapply Rle_trans; [|apply pow_1_minus; lra]. nra. }
  assert (P0 : 0 <= (1 + h) ^ length ab) by (apply pow_le; lra).
  rewrite Rabs_R0, Rplus_0_l in H1. rewrite Rplus_0_l in H2, H3.
  assert (U : Rabs d <= (1 + 100 * h) * T).
  { eapply Rle_trans; [exact H1|].
    apply Rle_trans with ((1 + 88 * h) * ((1 + h) * T)).
    - apply Rmult_le_compat_r; [nra | exact P1].
    - rewrite <- Rmult_assoc. apply Rmult_le_compat_r; [exact HT | nra]. }
  assert (LA : (1 - 50 * h) * SA <= mA).
  { eapply Rle_trans; [|exact H2].
    apply Rle_trans with ((1 - 44 * h) * ((1 - h) * SA)).
    - rewrite <- Rmult_assoc. apply Rmult_le_compat_r; [exact HSA | nra].
    - apply Rmult_le_compat_r; [nra | exact P2]. }
  assert (LB : (1 - 50 * h) * SB <= mB).
  { eapply Rle_trans; [|exact H3].
    apply Rle_trans with ((1 - 44 * h) * ((1 - h) * SB)).
    - rewrite <- Rmult_assoc. apply Rmult_le_compat_r; [exact HSB | nra].
    - apply Rmult_le_compat_r; [nra | exact P2]. }
  clear H1 H2 H3 P1 P2 P0.
  assert (HmA : 0 <= mA) by nra. assert (HmB : 0 <= mB) by nra.
  pose proof (sqrt_pos mA) as Ha. pose proof (sqrt_pos mB) as Hb.
  pose proof (sqrt_sqrt mA HmA) as Ea. pose proof (sqrt_sqrt mB HmB) as Eb.
  unfold fsqrt, fmul, fdiv.
  set (sa := sqrt mA) in *. set (sb := sqrt mB) in *.
  destruct (Req_dec_T (rnd (rnd sa * rnd sb)) 0) as [E|E]; [lra|].
  destruct (rnd_rel sa Ha) as [Ra _]. destruct (rnd_rel sb Hb) as [Rb _].
  fold h in Ra, Rb.
  assert (Hra : 0 <= rnd sa) by now apply rnd_nonneg.
  assert (Hrb : 0 <= rnd sb) by now apply rnd_nonneg.
  assert (Hab : 0 <= sa * sb) by nra.
  assert (Hp : (1 - 2 * h) * (sa * sb) <= rnd sa * rnd sb).
  { apply Rle_trans with ((1 - h) * sa * ((1 - h) * sb)).
    - nra.
    - apply Rmult_le_compat; nra. }
  destruct (rnd_rel (rnd sa * rnd sb)) as [Rd _]; [nra|]. fold h in Rd.
  set (den := rnd (rnd sa * rnd sb)) in *.
  assert (Hden : (1 - 3 * h) * (sa * sb) <= den) by nra.
  assert (Hdpos : 0 < den).
  { assert (0 <= den) by nra. lra. }
  (* Cauchy-Schwarz, then the square roots *)
  assert (LT : (1 - 50 * h) * T <= sa * sb).
  { assert (Sq : ((1 - 50 * h) * T) ^ 2 <= (sa * sb) ^ 2).
    { replace ((sa * sb) ^ 2) with (mA * mB) by (rewrite <- Ea, <- Eb; ring).
      apply Rle_trans with ((1 - 50 * h) * SA * ((1 - 50 * h) * SB)).
      - replace (((1 - 50 * h) * T) ^ 2)
          with ((1 - 50 * h) * (1 - 50 * h) * T ^ 2) by ring.
        replace ((1 - 50 * h) * SA * ((1 - 50 * h) * SB))
          with ((1 - 50 * h) * (1 - 50 * h) * (SA * SB)) by ring.
        apply Rmult_le_compat_l; [nra | exact CS].
      - apply Rmult_le_compat; nra. }
    assert (0 <= (1 - 50 * h) * T) by nra.
    apply square_le_inv; [assumption | assumption | exact Sq]. }
  assert (K : Rabs d <= (1 + 200 * h) * den).
  { assert (K1 : (1 - 50 * h) * Rabs d <= (1 + 100 * h) * (sa * sb)).
    { apply Rle_trans with ((1 - 50 * h) * ((1 + 100 * h) * T)).
      - apply Rmult_le_compat_l; lra.
      - replace ((1 - 50 * h) * ((1 + 100 * h) * T))
          with ((1 + 100 * h) * ((1 - 50 * h) * T)) by ring.
        apply Rmult_le_compat_l; lra. }
    assert (K2 : (1 + 100 * h) * (sa * sb)
                 <= (1 - 50 * h) * ((1 + 200 * h) * ((1 - 3 * h) * (sa * sb)))).
    { replace ((1 - 50 * h) * ((1 + 200 * h) * ((1 - 3 * h) * (sa * sb))))
        with ((1 - 50 * h) * (1 + 200 * h) * (1 - 3 * h) * (sa * sb)) by ring.
      apply Rmult_le_compat_r; [exact Hab|]. nra. }
    assert (K3 : (1 - 50 * h) * ((1 + 200 * h) * ((1 - 3 * h) * (sa * sb)))
                 <= (1 - 50 * h) * ((1 + 200 * h) * den)).
    { apply Rmult_le_compat_l; [lra|]. apply Rmult_le_compat_l; lra. }
    apply Rmult_le_reg_l with (1 - 50 * h); lra. }
  apply Rabs_bound in K.
  assert (Q : - (1 + 200 * h) <= d / den <= 1 + 200 * h).
  { apply quotient_between; [exact Hdpos | lra]. }
  pose proof (rnd_abs_le (d / den)) as A. fold h in A.
  assert (B : Rabs (d / den) <= 1 + 200 * h) by (apply Rabs_le; lra).
  apply Rabs_bound in A. nra.
Qed.

Lemma feature_vector_length (fp : Fingerprint) :
  length (feature_vector fp) = 43%nat.
Proof.
  unfold feature_vector. rewrite !length_app, !length_map. reflexivity.
Qed.

(** X17. [compare] returns [null] exactly when one of the two texts has no
    syllable; otherwise its result lies between -1 and 1.  In binary64
    the similarity can leave [-1, 1] before it is rounded to four
    decimals, by less than a millionth; the rounding brings it back. *)
Theorem compare_range (Math_log2 : R -> R) (textA textB : jsstring) :
  match Binary64.compare Math_log2 textA textB with
  | None => decomposed_syllables textA = [] \/ decomposed_syllables textB = []
  | Some r =>
      decomposed_syllables textA <> [] /\ decomposed_syllables textB <> []
      /\ -1 <= r <= 1
  end.
Proof.
  assert (Hf : forall t, match fingerprint Math_log2 t with
                         | None => decomposed_syllables t = []
                         | Some _ => decomposed_syllables t <> []
                         end).
  { intros t. destruct (analyze_facts t) as (Ht & _). unfold fingerprint.
    destruct (totalSyllables (analyze t) =? 0)%Z eqn:E.
    - apply Z.eqb_eq in E. rewrite E in Ht.
      destruct (decomposed_syllables t); [reflexivity|].
      unfold len in Ht. simpl length in Ht. lia.
    - apply Z.eqb_neq in E. intros Hnil. rewrite Hnil in Ht.
      apply E. exact Ht. }
  unfold compare. pose proof (Hf textA) as HA. pose proof (Hf textB) as HB.
  destruct (fingerprint Math_log2 textA) as [fpA|]; [|now left].
  destruct (fingerprint Math_log2 textB) as [fpB|]; [|now right].
  split; [exact HA|]. split; [exact HB|].
  apply round_clamp; [lia|]. apply rounded_cosine_range.
  rewrite length_combine, !feature_vector_length. simpl. lia.
Qed.

(** ** The stored profiles *)

Lemma Rsum_rounded {A} (g : A -> R) (l : list A) :
  (forall c, In c l -> 0 <= g c) ->
  Rabs (Rsum (map (fun c => rnd (g c)) l) - Rsum (map g l))
  <= / 2 ^ 53 * Rsum (map g l).
Proof.
  induction l as [|c l IH]; intros H; cbn [map Rsum].
  - rewrite Rminus_0_r, Rabs_R0. lra.
  - assert (Hc : 0 <= g c) by (apply H; now left).
    assert (IH' := IH (fun c Hin => H c (or_intror Hin))).
    pose proof (rnd_error (g c)) as E. rewrite (Rabs_pos_eq (g c) Hc) in E.
    apply Rabs_bound in E. apply Rabs_bound in IH'. apply Rabs_le. lra.
Qed.

Lemma rounded_profile_ok (table : list jsstring) (freq : jsobj Z) (total : Z)
      (syms : list jsstring) :
  NoDup table -> (forall s, In s syms -> In s table) ->
  (forall c, count_or_0 freq c = count_str c syms) ->
  total = len syms -> (0 < total)%Z ->
  profile_of table syms (build_profile table freq total).
Proof.
  intros Hnd Hsub Hcnt Htot Hpos.
  assert (Hc : forall c, (0 <= count_or_0 freq c <= total)%Z).
  { intros c. rewrite Hcnt, Htot.
    pose proof (count_str_nonneg c syms). pose proof (count_str_le_len c syms). lia. }
  rewrite rounded_profile_eq by assumption.
  split; [|split; [|split]].
  - rewrite map_map. cbn [fst]. apply map_id.
  - intros c Hin.
    rewrite (obj_get_tabulate
               (fun c => fdiv (IZR (count_or_0 freq c)) (IZR total)) table c Hin).
    now rewrite Hcnt, Htot.
  - intros k v H. apply in_map_iff in H as (c & E & _). injection E as <- <-.
    apply rounded_share_bounds; [apply Hc | exact Hpos].
  - rewrite map_map. cbn [snd]. unfold fdiv.
    pose proof (Rsum_rounded (fun c => IZR (count_or_0 freq c) / IZR total) table) as H.
    assert (E : Rsum (map (fun c => IZR (count_or_0 freq c) / IZR total) table) = 1).
    { rewrite Rsum_scaled.
      rewrite (map_ext _ (fun c => count_str c syms)) by exact Hcnt.
      rewrite (Zsum_count table syms Hnd Hsub), <- Htot.
      apply IZR_lt in Hpos. field. lra. }
    rewrite E, Rmult_1_r in H. apply H.
    intros c _. apply ratio_bounds; [apply Hc | exact Hpos].
Qed.

(** X12. The two profiles of a fingerprint cover their whole table, in
    table order, symbols that do not occur included; the value of a
    symbol is the binary64 quotient of its number of occurrences by the
    number of syllables, so the values of each profile lie in [0, 1] and
    their exact sum misses 1 by at most 2^-53; and the fingerprint's
    [totalSyllables] is the number of syllables. *)
Theorem fingerprint_profiles (Math_log2 : R -> R) (text : jsstring) :
  decomposed_syllables text <> [] ->
  let ds := decomposed_syllables text in
  exists fp,
    Binary64.fingerprint Math_log2 text = Some fp
    /\ fp_totalSyllables fp = len ds
    /\ profile_of CHOSEONG (cho_syms ds) (choProfile fp)
    /\ profile_of JUNGSEONG (jung_syms ds) (jungProfile fp).
Proof.
  intros Hne. cbv zeta.
  destruct (rounded_fingerprint_some Math_log2 text Hne)
    as (fp & Hfp & Hpos & Ec & Ej).
  destruct (analyze_facts text) as (Ht & Hc & Hj & _).
  exists fp. split; [exact Hfp|]. split.
  - unfold fingerprint in Hfp.
    destruct (totalSyllables (analyze text) =? 0)%Z; [discriminate|].
    injection Hfp as <-. exact Ht.
  - rewrite Ec, Ej. split.
    + apply rounded_profile_ok;
        [ apply NoDup_CHOSEONG | apply cho_syms_in_table | exact Hc
        | unfold cho_syms; rewrite len_map; exact Ht | exact Hpos ].
    + apply rounded_profile_ok;
        [ apply NoDup_JUNGSEONG | apply jung_syms_in_table | exact Hj
        | unfold jung_syms; rewrite len_map; exact Ht | exact Hpos ].
Qed.

Lemma fingerprint_profiles_witness :
  exists fp,
    Binary64.fingerprint (fun x => rnd (log2 x)) [0xD55C; 0xAE00]%Z = Some fp
    /\ fp_totalSyllables fp = len (decomposed_syllables [0xD55C; 0xAE00]%Z)
    /\ profile_of CHOSEONG (cho_syms (decomposed_syllables [0xD55C; 0xAE00]%Z))
         (choProfile fp)
    /\ profile_of JUNGSEONG (jung_syms (decomposed_syllables [0xD55C; 0xAE00]%Z))
         (jungProfile fp).
Proof.
  apply (fingerprint_profiles (fun x => rnd (log2 x)) [0xD55C; 0xAE00]%Z).
  vm_compute. discriminate.
Defined.

(** ** The rounding at work *)

Lemma nearest_even_near (y : R) (n : Z) :
  IZR n - / 2 < y < IZR n + / 2 -> nearest_even y = n.
Proof.
  intros H. destruct (base_Int_part y) as [H1 H2].
  assert (L : (n - 1 <= Int_part y <= n)%Z).
  { split.
    - assert (A : IZR (n - 1) < IZR (Int_part y) + 1) by (rewrite minus_IZR; lra).
      rewrite <- plus_IZR in A. apply lt_IZR in A. lia.
    - assert (A : IZR (Int_part y) < IZR (n + 1)) by (rewrite plus_IZR; lra).
      apply lt_IZR in A. lia. }
  destruct (nearest_even_cases y) as [[-> B]|[-> B]]; cbv zeta in B.
  - destruct (Z.eq_dec (Int_part y) n) as [E|E]; [exact E|].
    assert (E' : Int_part y = (n - 1)%Z) by lia.
    rewrite E', minus_IZR in B. lra.
  - destruct (Z.eq_dec (Int_part y) (n - 1)) as [E|E]; [lia|].
    assert (E' : Int_part y = n) by lia. rewrite E' in B. lra.
Qed.

(** The value of [rnd] at a real with a known binade and a known nearest
    significand. *)
Lemma rnd_eval (x : R) (m n : Z) :
  powerRZ 2 m <= Rabs x < powerRZ 2 (m + 1) ->
  IZR n - / 2 < x * powerRZ 2 (52 - m) < IZR n + / 2 ->
  rnd x = IZR n * powerRZ 2 (m - 52).
Proof.
  intros Hm Hn. unfold rnd. cbv zeta. rewrite (mag2_unique x m Hm).
  replace (- (m - 52))%Z with (52 - m)%Z by lia.
  now rewrite (nearest_even_near _ n Hn).
Qed.

(** The weight of a text with 201 closed syllables of 400 is the
    binary64 number nearest to 0.5025, which lies below it; its product
    with 1000 is rounded to the number just below 502.5, so the weight of
    the fingerprint is the binary64 number nearest to 0.502. *)
Example round_below_half :
  Binary64.round (rnd (201 / 400)) 3 = rnd (502 / 1000).
Proof.
  assert (P53 : powerRZ 2 53 = 9007199254740992) by (rewrite two_IZR by lia; reflexivity).
  assert (P44 : powerRZ 2 44 = 17592186044416) by (rewrite two_IZR by lia; reflexivity).
  assert (W : rnd (201 / 400) = 4526117625507348 * / 9007199254740992).
  { rewrite (rnd_eval (201 / 400) (-1) 4526117625507348).
    - change (-1 - 52)%Z with (- (53))%Z. now rewrite two_opp, P53.
    - rewrite Rabs_pos_eq by lra. change (-1 + 1)%Z with 0%Z.
      change (powerRZ 2 0) with 1. change (powerRZ 2 (-1)) with (/ (2 * 1)). lra.
    - change (52 - -1)%Z with 53%Z. rewrite P53. lra. }
  unfold Binary64.round, Binary64.fmul, Binary64.fdiv. cbv zeta.
  replace (10 ^ 3) with 1000 by lra. rewrite W.
  assert (Y : rnd (4526117625507348 * / 9007199254740992 * 1000)
              = 8840073487319039 * / 17592186044416).
  { rewrite (rnd_eval _ 8 8840073487319039).
    - change (8 - 52)%Z with (- (44))%Z. now rewrite two_opp, P44.
    - rewrite Rabs_pos_eq by lra. rewrite !two_IZR by lia.
      change (IZR (2 ^ 8)) with 256. change (IZR (2 ^ (8 + 1))) with 512. lra.
    - change (52 - 8)%Z with 44%Z. rewrite P44. lra. }
  rewrite Y. rewrite (Math_round_near _ 502) by lra. reflexivity.
Qed.

Example weight_below_half (Math_log2 : R -> R) :
  exists fp,
    Binary64.fingerprint Math_log2 sample_closed_201_of_400 = Some fp
    /\ withJong (analyze sample_closed_201_of_400) = 201%Z
    /\ totalSyllables (analyze sample_closed_201_of_400) = 400%Z
    /\ weight fp = rnd (502 / 1000).
Proof.
  assert (W : withJong (analyze sample_closed_201_of_400) = 201%Z)
    by (vm_compute; reflexivity).
  assert (T : totalSyllables (analyze sample_closed_201_of_400) = 400%Z)
    by (vm_compute; reflexivity).
  destruct (analyze_facts sample_closed_201_of_400) as (_ & _ & _ & _ & _ & _ & Hr).
  rewrite T, W in Hr. change (400 =? 0)%Z with false in Hr. cbv iota in Hr.
  unfold Binary64.fingerprint. rewrite T. change (400 =? 0)%Z with false. cbv iota.
  eexists. split; [reflexivity|]. cbn [weight]. rewrite Hr.
  repeat split. apply round_below_half.
Qed.


Lemma sqrt_between (x a b : R) :
  0 <= a -> 0 <= b -> a * a < x < b * b -> a < sqrt x < b.
Proof.
  intros Ha Hb [H1 H2]. assert (Hx : 0 <= x) by nra.
  pose proof (sqrt_pos x) as Hs. pose proof (sqrt_sqrt x Hx) as E.
  split.
  - destruct (Rlt_dec a (sqrt x)) as [L|L]; [exact L|]. exfalso. nra.
  - destruct (Rlt_dec (sqrt x) b) as [L|L]; [exact L|]. exfalso. nra.
Qed.

(** Before the rounding to four decimals the similarity of a vector with
    itself need not be 1: for a squared norm of 3 (the feature vector of
    the one-syllable text U+ADF8) it is the binary64 number just above 1,
    for a squared norm of 5 (that of U+D55C) the one just below. *)
Example self_similarity_above_one :
  fdiv 3 (fmul (fsqrt 3) (fsqrt 3)) = 1 + / 2 ^ 52.
Proof.
  assert (P52 : powerRZ 2 52 = 4503599627370496) by (rewrite two_IZR by lia; reflexivity).
  assert (P51 : powerRZ 2 51 = 2251799813685248) by (rewrite two_IZR by lia; reflexivity).
  assert (Q52 : (2 ^ 52 = 4503599627370496)%R) by lra.
  destruct (sqrt_between 3 (7800463371553961 / 4503599627370496 + / 9007199254740992)
              (7800463371553962 / 4503599627370496 + / 9007199254740992))
    as [S1 S2]; [lra | lra | lra |].
  unfold fdiv, fmul, fsqrt.
  assert (R3 : rnd (sqrt 3) = 7800463371553962 * / 4503599627370496).
  { rewrite (rnd_eval (sqrt 3) 0 7800463371553962).
    - change (0 - 52)%Z with (- (52))%Z. now rewrite two_opp, P52.
    - rewrite Rabs_pos_eq by lra. change (powerRZ 2 0) with 1.
      change (powerRZ 2 (0 + 1)) with (2 * 1). lra.
    - change (52 - 0)%Z with 52%Z. rewrite P52. lra. }
  rewrite R3.
  assert (D : rnd (7800463371553962 * / 4503599627370496
                   * (7800463371553962 * / 4503599627370496))
              = 6755399441055743 * / 2251799813685248).
  { rewrite (rnd_eval _ 1 6755399441055743).
    - change (1 - 52)%Z with (- (51))%Z. now rewrite two_opp, P51.
    - rewrite Rabs_pos_eq by lra. change (powerRZ 2 1) with (2 * 1).
      change (powerRZ 2 (1 + 1)) with (2 * (2 * 1)). lra.
    - change (52 - 1)%Z with 51%Z. rewrite P51. lra. }
  rewrite D.
  rewrite (rnd_eval _ 0 4503599627370497).
  - change (0 - 52)%Z with (- (52))%Z. rewrite two_opp, P52, Q52. lra.
  - rewrite Rabs_pos_eq by lra. change (powerRZ 2 0) with 1.
    change (powerRZ 2 (0 + 1)) with (2 * 1). lra.
  - change (52 - 0)%Z with 52%Z. rewrite P52. lra.
Qed.

Example self_similarity_below_one :
  fdiv 5 (fmul (fsqrt 5) (fsqrt 5)) = 1 - / 2 ^ 52.
Proof.
  assert (P53 : powerRZ 2 53 = 9007199254740992) by (rewrite two_IZR by lia; reflexivity).
  assert (P51 : powerRZ 2 51 = 2251799813685248) by (rewrite two_IZR by lia; reflexivity).
  assert (P50 : powerRZ 2 50 = 1125899906842624) by (rewrite two_IZR by lia; reflexivity).
  assert (Q52 : (2 ^ 52 = 4503599627370496)%R) by lra.
  destruct (sqrt_between 5 (5035177455121575 / 2251799813685248 + / 4503599627370496)
              (5035177455121576 / 2251799813685248 + / 4503599627370496))
    as [S1 S2]; [lra | lra | lra |].
  unfold fdiv, fmul, fsqrt.
  assert (R5 : rnd (sqrt 5) = 5035177455121576 * / 2251799813685248).
  { rewrite (rnd_eval (sqrt 5) 1 5035177455121576).
    - change (1 - 52)%Z with (- (51))%Z. now rewrite two_opp, P51.
    - rewrite Rabs_pos_eq by lra. change (powerRZ 2 1) with (2 * 1).
      change (powerRZ 2 (1 + 1)) with (2 * (2 * 1)). lra.
    - change (52 - 1)%Z with 51%Z. rewrite P51. lra. }
  rewrite R5.
  assert (D : rnd (5035177455121576 * / 2251799813685248
                   * (5035177455121576 * / 2251799813685248))
              = 5629499534213121 * / 1125899906842624).
  { rewrite (rnd_eval _ 2 5629499534213121).
    - change (2 - 52)%Z with (- (50))%Z. now rewrite two_opp, P50.
    - rewrite Rabs_pos_eq by lra. change (powerRZ 2 2) with (2 * (2 * 1)).
      change (powerRZ 2 (2 + 1)) with (2 * (2 * (2 * 1))). lra.
    - change (52 - 2)%Z with 50%Z. rewrite P50. lra. }
  rewrite D.
  rewrite (rnd_eval _ (-1) 9007199254740990).
  - change (-1 - 52)%Z with (- (53))%Z. rewrite two_opp, P53, Q52. lra.
  - rewrite Rabs_pos_eq by lra. change (powerRZ 2 (-1)) with (/ (2 * 1)).
    change (powerRZ 2 (-1 + 1)) with 1. lra.
  - change (52 - -1)%Z with 53%Z. rewrite P53. lra.
Qed.


Local Close Scope R_scope.
